(** * A shallow embedding of the 2D collision engine

    The development follows [src/utils/physics_engine]: the vector kernel
    ([core/vector.py]), the body model ([physics/body.py]), the broad phase,
    the narrow phase and the swept test ([collision/detector.py]), the
    resolver ([collision/resolver.py]) and the stepping loop
    ([core/engine.py]).

    Numbers.  A Python [float] is modelled by a real number: rounding,
    overflow and NaN are outside the model.  The one infinite value the code
    writes down, [float('inf')] for the mass of segments and rings, is kept
    by the type [xfloat].  Division can raise ([ZeroDivisionError]) and is
    modelled as fallible, except where the divisor is a non-zero literal;
    so is [math.sqrt] where its argument is not a sum of squares.

    Objects.  Bodies are mutable objects shared between the engine's list,
    the grid cells and the contacts; a body is therefore an address in a
    store and every mutation is a store update.  A [Vector2D] is a value:
    the constructors copy their arguments and no vector object is shared
    between two bodies by the code. *)

From Stdlib Require Import Reals Lra Lia ZArith List Bool String Psatz.
Import ListNotations.
Local Open Scope R_scope.

(** ** Python values *)

Inductive exn : Type :=
| ZeroDivisionError
| ValueError.

Inductive result (A : Type) : Type :=
| Ok (a : A)
| Raise (e : exn).
Arguments Ok {A} a.
Arguments Raise {A} e.

Definition rbind {A B} (r : result A) (f : A -> result B) : result B :=
  match r with
  | Ok a => f a
  | Raise e => Raise e
  end.

Notation "x <- e ;; k" := (rbind e (fun x => k))
  (at level 61, e at next level, right associativity).

Module Py.

(** Comparisons of floats, as booleans. *)
Definition ltb (a b : R) : bool := if Rlt_dec a b then true else false.
Definition leb (a b : R) : bool := if Rle_dec a b then true else false.
Definition gtb (a b : R) : bool := ltb b a.
Definition geb (a b : R) : bool := leb b a.
Definition eqb (a b : R) : bool := if Req_dec_T a b then true else false.

(** [a / b] *)
Definition truediv (a b : R) : result R :=
  if eqb b 0 then Raise ZeroDivisionError else Ok (a / b).

(** [math.sqrt], which refuses a negative argument. *)
Definition sqrt (a : R) : result R :=
  if ltb a 0 then Raise ValueError else Ok (R_sqrt.sqrt a).

(** [int], on a float: truncation towards zero. *)
Definition int (a : R) : Z :=
  if leb 0 a then Int_part a else (- Int_part (- a))%Z.

(** [math.floor] *)
Definition floor (a : R) : Z := Int_part a.

(** [math.ceil] *)
Definition ceil (a : R) : Z := (- Int_part (- a))%Z.

(** [a // b] *)
Definition floordiv (a b : R) : result R :=
  if eqb b 0 then Raise ZeroDivisionError else Ok (IZR (floor (a / b))).

(** [a % b]: the result has the sign of [b]. *)
Definition mod_ (a b : R) : result R :=
  if eqb b 0 then Raise ZeroDivisionError
  else Ok (a - b * IZR (floor (a / b))).

(** [a % 360], whose divisor is a non-zero literal. *)
Definition mod360 (a : R) : R := a - 360 * IZR (floor (a / 360)).

(** [math.atan2(y, x)] *)
Definition atan2 (y x : R) : R :=
  if ltb 0 x then atan (y / x)
  else if ltb x 0 then
         (if leb 0 y then atan (y / x) + PI else atan (y / x) - PI)
  else if ltb 0 y then PI / 2
  else if ltb y 0 then - (PI / 2)
  else 0.

(** [math.degrees] *)
Definition degrees (a : R) : R := a * (180 / PI).

(** A float that may be [float('inf')]. *)
Inductive xfloat : Type :=
| Fin (r : R)
| Inf.

(** [a / m] for a finite [a]: dividing by infinity gives zero. *)
Definition truediv_x (a : R) (m : xfloat) : result R :=
  match m with
  | Fin r => truediv a r
  | Inf => Ok 0
  end.

End Py.

Notation "a <? b" := (Py.ltb a b) : R_scope.
Notation "a <=? b" := (Py.leb a b) : R_scope.
Notation "a >? b" := (Py.gtb a b) : R_scope.
Notation "a >=? b" := (Py.geb a b) : R_scope.
Notation "a =? b" := (Py.eqb a b) : R_scope.

(** ** core/vector.py *)

Module Vector2D.

Record t : Type := mk { x : R; y : R }.

Definition __add__ (self other : t) : t :=
  mk (x self + x other) (y self + y other).

Definition __sub__ (self other : t) : t :=
  mk (x self - x other) (y self - y other).

Definition __mul__ (self : t) (scalar : R) : t :=
  mk (x self * scalar) (y self * scalar).

Definition __truediv__ (self : t) (scalar : R) : result t :=
  qx <- Py.truediv (x self) scalar ;;
  qy <- Py.truediv (y self) scalar ;;
  Ok (mk qx qy).

(** [self / scalar] where [scalar] may be infinite (a body's mass). *)
Definition truediv_x (self : t) (scalar : Py.xfloat) : result t :=
  qx <- Py.truediv_x (x self) scalar ;;
  qy <- Py.truediv_x (y self) scalar ;;
  Ok (mk qx qy).

Definition __neg__ (self : t) : t := mk (- x self) (- y self).

(** [math.sqrt] is applied to a sum of two squares and cannot raise. *)
Definition magnitude (self : t) : R :=
  sqrt (x self * x self + y self * y self).

Definition magnitude_squared (self : t) : R :=
  x self * x self + y self * y self.

(** The property [normalized]. *)
Definition normalized (self : t) : result t :=
  let mag := magnitude self in
  if mag =? 0 then Ok (mk 0 0)
  else
    qx <- Py.truediv (x self) mag ;;
    qy <- Py.truediv (y self) mag ;;
    Ok (mk qx qy).

(** The method [normalize], which changes [self] in place and returns it:
    the result is the new content of [self]. *)
Definition normalize (self : t) : result t :=
  let mag := magnitude self in
  if mag >? 0 then
    qx <- Py.truediv (x self) mag ;;
    qy <- Py.truediv (y self) mag ;;
    Ok (mk qx qy)
  else Ok self.

Definition dot (self other : t) : R :=
  x self * x other + y self * y other.

Definition distance_to (self other : t) : R :=
  let dx := x self - x other in
  let dy := y self - y other in
  sqrt (dx * dx + dy * dy).

Definition copy (self : t) : t := mk (x self) (y self).

End Vector2D.

Notation "u +v v" := (Vector2D.__add__ u v) (at level 50, left associativity).
Notation "u -v v" := (Vector2D.__sub__ u v) (at level 50, left associativity).
Notation "u *v k" := (Vector2D.__mul__ u k) (at level 40, left associativity).

(** ** physics/body.py *)

(** The fields a subclass adds to [PhysicsBody]. *)
Record SegmentData : Type := mkSegment {
  start : Vector2D.t;
  end_ : Vector2D.t;
  thickness : R
}.

Record RingData : Type := mkRing {
  inner_radius : R;
  outer_radius : R;
  gap_angle : R;
  gap_start : R;
  rotation : R
}.

Inductive Shape : Type :=
| Circle (radius : R)
| Segment (seg : SegmentData)
| Ring (ring : RingData).

Record PhysicsBody : Type := mkBody {
  position : Vector2D.t;
  velocity : Vector2D.t;
  acceleration : Vector2D.t;
  mass : Py.xfloat;
  inv_mass : R;
  static : bool;
  restitution : R;
  friction : R;
  drag_coefficient : R;
  forces : list Vector2D.t;
  shape : Shape
}.

Definition set_position (b : PhysicsBody) (v : Vector2D.t) : PhysicsBody :=
  mkBody v (velocity b) (acceleration b) (mass b) (inv_mass b) (static b)
         (restitution b) (friction b) (drag_coefficient b) (forces b) (shape b).

Definition set_velocity (b : PhysicsBody) (v : Vector2D.t) : PhysicsBody :=
  mkBody (position b) v (acceleration b) (mass b) (inv_mass b) (static b)
         (restitution b) (friction b) (drag_coefficient b) (forces b) (shape b).

Definition set_acceleration (b : PhysicsBody) (v : Vector2D.t) : PhysicsBody :=
  mkBody (position b) (velocity b) v (mass b) (inv_mass b) (static b)
         (restitution b) (friction b) (drag_coefficient b) (forces b) (shape b).

Definition set_forces (b : PhysicsBody) (l : list Vector2D.t) : PhysicsBody :=
  mkBody (position b) (velocity b) (acceleration b) (mass b) (inv_mass b)
         (static b) (restitution b) (friction b) (drag_coefficient b) l
         (shape b).

(** [PhysicsBody.__init__], with the fields of the subclass that calls it. *)
Definition PhysicsBody_init (position : Vector2D.t) (mass : Py.xfloat)
    (static : bool) (shape : Shape) : result PhysicsBody :=
  inv_mass <- (if static then Ok 0 else Py.truediv_x 1 mass) ;;
  Ok (mkBody (Vector2D.copy position) (Vector2D.mk 0 0) (Vector2D.mk 0 0)
             mass inv_mass static 0.8 0.3 0.1 [] shape).

(** [Circle.__init__] *)
Definition Circle_init (position : Vector2D.t) (radius : R)
    (mass : Py.xfloat) (static : bool) : result PhysicsBody :=
  PhysicsBody_init position mass static (Circle radius).

(** [Segment.__init__] *)
Definition Segment_init (start end_ : Vector2D.t) (thickness : R)
    (static : bool) : result PhysicsBody :=
  center <- Vector2D.__truediv__ (start +v end_) 2 ;;
  PhysicsBody_init center Py.Inf static
    (Segment (mkSegment (Vector2D.copy start) (Vector2D.copy end_) thickness)).

(** [Ring.__init__] *)
Definition Ring_init (center : Vector2D.t) (inner_radius outer_radius : R)
    (gap_angle gap_start : R) (static : bool) : result PhysicsBody :=
  PhysicsBody_init center Py.Inf static
    (Ring (mkRing inner_radius outer_radius gap_angle gap_start 0)).

Module SegmentM.

Definition get_direction (self : SegmentData) : result Vector2D.t :=
  Vector2D.normalized (end_ self -v start self).

Definition get_normal (self : SegmentData) : result Vector2D.t :=
  direction <- get_direction self ;;
  Ok (Vector2D.mk (- Vector2D.y direction) (Vector2D.x direction)).

Definition closest_point_on_segment (self : SegmentData)
    (point : Vector2D.t) : result Vector2D.t :=
  let line_vec := end_ self -v start self in
  let point_vec := point -v start self in
  if Vector2D.magnitude_squared line_vec =? 0 then
    Ok (Vector2D.copy (start self))
  else
    q <- Py.truediv (Vector2D.dot point_vec line_vec)
                    (Vector2D.magnitude_squared line_vec) ;;
    let t := Rmax 0 (Rmin 1 q) in
    Ok (start self +v line_vec *v t).

Definition get_bounding_box (self : SegmentData)
    : Vector2D.t * Vector2D.t :=
  let min_x := Rmin (Vector2D.x (start self)) (Vector2D.x (end_ self))
               - thickness self in
  let min_y := Rmin (Vector2D.y (start self)) (Vector2D.y (end_ self))
               - thickness self in
  let max_x := Rmax (Vector2D.x (start self)) (Vector2D.x (end_ self))
               + thickness self in
  let max_y := Rmax (Vector2D.y (start self)) (Vector2D.y (end_ self))
               + thickness self in
  (Vector2D.mk min_x min_y, Vector2D.mk max_x max_y).

End SegmentM.

(** What [Ring.collision_with_circle] returns: [None], the empty dictionary,
    or a dictionary with the four keys. *)
Inductive RingCollision : Type :=
| RingNone
| RingEmpty
| RingHit (type : string) (normal : Vector2D.t) (penetration : R)
          (contact_point : Vector2D.t).

Module RingM.

Definition has_gap (ring : RingData) : bool := gap_angle ring >? 0.

(** The angle of [point] about the ring's centre, in degrees, brought to
    [0, 360) the way [point_in_gap] does. *)
Definition point_angle (self : PhysicsBody) (point : Vector2D.t) : R :=
  let relative_pos := point -v position self in
  let angle := Py.degrees (Py.atan2 (Vector2D.y relative_pos)
                                    (Vector2D.x relative_pos)) in
  Py.mod360 (angle + 360).

Definition point_in_gap (self : PhysicsBody) (ring : RingData)
    (point : Vector2D.t) : bool :=
  if negb (has_gap ring) then false
  else
    let angle := point_angle self point in
    let gap_start_rotated := Py.mod360 (gap_start ring + rotation ring) in
    let gap_end := Py.mod360 (gap_start_rotated + gap_angle ring) in
    if gap_start_rotated <=? gap_end then
      (gap_start_rotated <=? angle) && (angle <=? gap_end)
    else
      (angle >=? gap_start_rotated) || (angle <=? gap_end).

Definition collision_with_circle (self : PhysicsBody) (ring : RingData)
    (circle_pos : Vector2D.t) (circle_radius : R) : result RingCollision :=
  let distance := Vector2D.distance_to (position self) circle_pos in
  if distance + circle_radius <? inner_radius ring then Ok RingNone
  else if distance - circle_radius >? outer_radius ring then Ok RingNone
  else if has_gap ring && point_in_gap self ring circle_pos then Ok RingNone
  else if distance <? inner_radius ring + circle_radius then
    normal <- Vector2D.normalized (circle_pos -v position self) ;;
    let penetration := inner_radius ring + circle_radius - distance in
    Ok (RingHit "inner" normal penetration
                (position self +v normal *v inner_radius ring))
  else if distance + circle_radius >? outer_radius ring then
    normal <- Vector2D.normalized (position self -v circle_pos) ;;
    let penetration := circle_radius + distance - outer_radius ring in
    outward <- Vector2D.normalized (circle_pos -v position self) ;;
    Ok (RingHit "outer" normal penetration
                (position self +v outward *v outer_radius ring))
  else Ok RingEmpty.

(** Modelled from the spec: [Ring.get_bounding_box] lies in the part of
    [body.py] that is cut off; the box used here is the square around the
    outer circle, the bounding box the broad phase needs of a ring. *)
Definition get_bounding_box (self : PhysicsBody) (ring : RingData)
    : Vector2D.t * Vector2D.t :=
  (Vector2D.mk (Vector2D.x (position self) - outer_radius ring)
               (Vector2D.y (position self) - outer_radius ring),
   Vector2D.mk (Vector2D.x (position self) + outer_radius ring)
               (Vector2D.y (position self) + outer_radius ring)).

End RingM.

(** [body.get_bounding_box()], dispatched on the class of [body]. *)
Definition get_bounding_box (self : PhysicsBody) : Vector2D.t * Vector2D.t :=
  match shape self with
  | Circle radius =>
      (Vector2D.mk (Vector2D.x (position self) - radius)
                   (Vector2D.y (position self) - radius),
       Vector2D.mk (Vector2D.x (position self) + radius)
                   (Vector2D.y (position self) + radius))
  | Segment seg => SegmentM.get_bounding_box seg
  | Ring ring => RingM.get_bounding_box self ring
  end.

(** ** The store of bodies *)

(** A body is an address; the store gives the object at each address. *)
Definition Store : Type := nat -> PhysicsBody.

Definition upd (s : Store) (id : nat) (b : PhysicsBody) : Store :=
  fun j => if Nat.eqb j id then b else s j.

(** A computation on the store returns or raises; what it wrote before it
    raised stays written. *)
Inductive Outcome (A : Type) : Type :=
| Return (a : A) (s : Store)
| Raised (e : exn) (s : Store).
Arguments Return {A} a s.
Arguments Raised {A} e s.

Definition M (A : Type) : Type := Store -> Outcome A.

Definition ret {A} (a : A) : M A := fun s => Return a s.

Definition bind {A B} (m : M A) (f : A -> M B) : M B :=
  fun s =>
    match m s with
    | Return a s' => f a s'
    | Raised e s' => Raised e s'
    end.

Definition lift {A} (r : result A) : M A :=
  fun s =>
    match r with
    | Ok a => Return a s
    | Raise e => Raised e s
    end.

Definition get (id : nat) : M PhysicsBody := fun s => Return (s id) s.

Definition modify (id : nat) (f : PhysicsBody -> PhysicsBody) : M unit :=
  fun s => Return tt (upd s id (f (s id))).

Definition final {A} (o : Outcome A) : Store :=
  match o with
  | Return _ s => s
  | Raised _ s => s
  end.

Notation "x <~ m ;; k" := (bind m (fun x => k))
  (at level 61, m at next level, right associativity).
Notation "m ;;; k" := (bind m (fun _ => k))
  (at level 61, right associativity).

Fixpoint for_each {A} (l : list A) (body : A -> M unit) : M unit :=
  match l with
  | [] => ret tt
  | a :: l' => body a ;;; for_each l' body
  end.

(** [PhysicsBody.add_impulse] *)
Definition add_impulse (self : nat) (impulse : Vector2D.t) : M unit :=
  b <~ get self ;;
  if negb (static b) then
    modify self (fun b => set_velocity b (velocity b +v impulse *v inv_mass b))
  else ret tt.

(** ** collision/detector.py: contacts *)

Inductive MetaValue : Type :=
| MetaStr (v : string)
| MetaFloat (v : R).

Record CollisionInfo : Type := mkCollisionInfo {
  body_a : nat;
  body_b : nat;
  contact_point : Vector2D.t;
  normal : Vector2D.t;
  penetration : R;
  collision_type : string;
  metadata : list (string * MetaValue)
}.


(** All [(l[i], l[j])] with [i < j], in the order of the two nested loops. *)
Fixpoint pairs_of {A} (l : list A) : list (A * A) :=
  match l with
  | [] => []
  | a :: l' => map (pair a) l' ++ pairs_of l'
  end.

(** ** collision/detector.py: the spatial grid *)

(** [range(lo, hi)] over the integers. *)
Definition zrange (lo hi : Z) : list Z :=
  map (fun k => (lo + Z.of_nat k)%Z) (seq 0 (Z.to_nat (hi - lo))).

Definition cell_eqb (c d : Z * Z) : bool :=
  Z.eqb (fst c) (fst d) && Z.eqb (snd c) (snd d).

Definition pair_eqb (p q : nat * nat) : bool :=
  Nat.eqb (fst p) (fst q) && Nat.eqb (snd p) (snd q).

Module SpatialGrid.

(** [grid] is a dictionary from cells to lists of bodies; the association
    list keeps the keys in the order of their insertion, which is the order
    the dictionary is iterated in. *)
Record t : Type := mk {
  world_width : R;
  world_height : R;
  cell_size : R;
  cols : Z;
  rows : Z;
  grid : list ((Z * Z) * list nat)
}.

Definition set_grid (self : t) (g : list ((Z * Z) * list nat)) : t :=
  mk (world_width self) (world_height self) (cell_size self) (cols self)
     (rows self) g.

Definition init (world_width world_height cell_size : R) : result t :=
  qc <- Py.truediv world_width cell_size ;;
  qr <- Py.truediv world_height cell_size ;;
  Ok (mk world_width world_height cell_size (Py.ceil qc) (Py.ceil qr) []).

Definition clear (self : t) : t := set_grid self [].

Definition _get_cell_coords (self : t) (x y : R) : result (Z * Z) :=
  qx <- Py.floordiv x (cell_size self) ;;
  let col := Py.int qx in
  qy <- Py.floordiv y (cell_size self) ;;
  let row := Py.int qy in
  Ok (Z.max 0 (Z.min col (cols self - 1)),
      Z.max 0 (Z.min row (rows self - 1))).

Definition _get_cells_for_body (self : t) (b : PhysicsBody)
    : result (list (Z * Z)) :=
  let '(min_pos, max_pos) := get_bounding_box b in
  lo <- _get_cell_coords self (Vector2D.x min_pos) (Vector2D.y min_pos) ;;
  hi <- _get_cell_coords self (Vector2D.x max_pos) (Vector2D.y max_pos) ;;
  let '(min_col, min_row) := lo in
  let '(max_col, max_row) := hi in
  Ok (flat_map (fun row =>
                  map (fun col => (col, row))
                      (zrange min_col (max_col + 1)))
               (zrange min_row (max_row + 1))).

(** [if cell not in grid: grid[cell] = []] then [grid[cell].append(body)] *)
Fixpoint grid_append (g : list ((Z * Z) * list nat)) (cell : Z * Z)
    (body : nat) : list ((Z * Z) * list nat) :=
  match g with
  | [] => [(cell, [body])]
  | (c, l) :: g' =>
      if cell_eqb c cell then (c, l ++ [body]) :: g'
      else (c, l) :: grid_append g' cell body
  end.

Definition insert (self : t) (s : Store) (body : nat) : result t :=
  cells <- _get_cells_for_body self (s body) ;;
  Ok (set_grid self
        (fold_left (fun g cell => grid_append g cell body) cells
                   (grid self))).

(** The pairs the generator yields, given the candidates in the order the
    loops meet them and the set [pairs] of the keys seen so far; the key
    of a pair is made of the two addresses, smaller first. *)
Fixpoint yield_new (candidates : list (nat * nat))
    (pairs : list (nat * nat)) : list (nat * nat) :=
  match candidates with
  | [] => []
  | (body_a, body_b) :: rest =>
      let pair := (Nat.min body_a body_b, Nat.max body_a body_b) in
      if existsb (pair_eqb pair) pairs then yield_new rest pairs
      else (body_a, body_b) :: yield_new rest (pair :: pairs)
  end.

Definition get_potential_collisions (self : t) : list (nat * nat) :=
  yield_new (flat_map (fun entry => pairs_of (snd entry)) (grid self)) [].

End SpatialGrid.

(** ** collision/detector.py: the detector *)

Module CollisionDetector.

Record t : Type := mk {
  use_spatial_optimization : bool;
  spatial_grid : option SpatialGrid.t;
  cell_size : R;
  collision_checks : Z;
  collisions_found : Z
}.

Definition init (use_spatial_optimization : bool) (cell_size : R) : t :=
  mk use_spatial_optimization None cell_size 0 0.

Definition setup_spatial_grid (self : t) (world_width world_height : R)
    : result t :=
  if use_spatial_optimization self then
    g <- SpatialGrid.init world_width world_height (cell_size self) ;;
    Ok (mk (use_spatial_optimization self) (Some g) (cell_size self)
           (collision_checks self) (collisions_found self))
  else Ok self.


(** The three tests read the store and return [None] or a contact.  A test
    called on a body of another class than it expects would raise
    [AttributeError]; [_check_collision] never does so, and the tests
    answer [None] there. *)

Definition _circle_circle_collision (s : Store) (circle_a circle_b : nat)
    : result (option CollisionInfo) :=
  match shape (s circle_a), shape (s circle_b) with
  | Circle radius_a, Circle radius_b =>
      let distance :=
        Vector2D.distance_to (position (s circle_a))
                             (position (s circle_b)) in
      let radius_sum := radius_a + radius_b in
      if (distance <? radius_sum) && (distance >? 0) then
        normal <- Vector2D.normalized
                    (position (s circle_b) -v position (s circle_a)) ;;
        let penetration := radius_sum - distance in
        let contact_point := position (s circle_a) +v normal *v radius_a in
        Ok (Some (mkCollisionInfo circle_a circle_b contact_point normal
                                  penetration "circle-circle" []))
      else Ok None
  | _, _ => Ok None
  end.

Definition _circle_segment_collision (s : Store) (circle segment : nat)
    : result (option CollisionInfo) :=
  match shape (s circle), shape (s segment) with
  | Circle radius, Segment seg =>
      closest_point <- SegmentM.closest_point_on_segment
                         seg (position (s circle)) ;;
      let distance :=
        Vector2D.distance_to (position (s circle)) closest_point in
      if distance <? radius + thickness seg / 2 then
        normal <- (if distance >? 0 then
                     Vector2D.normalized
                       (position (s circle) -v closest_point)
                   else SegmentM.get_normal seg) ;;
        let penetration := radius + thickness seg / 2 - distance in
        Ok (Some (mkCollisionInfo circle segment closest_point normal
                                  penetration "circle-segment" []))
      else Ok None
  | _, _ => Ok None
  end.

Definition _circle_ring_collision (s : Store) (circle ring : nat)
    : result (option CollisionInfo) :=
  match shape (s circle), shape (s ring) with
  | Circle radius, Ring r =>
      collision_data <- RingM.collision_with_circle
                          (s ring) r (position (s circle)) radius ;;
      match collision_data with
      | RingHit type normal penetration contact_point =>
          Ok (Some (mkCollisionInfo circle ring contact_point normal
                                    penetration "circle-ring"
                                    [("ring_collision_type"%string,
                                      MetaStr type)]))
      | _ => Ok None
      end
  | _, _ => Ok None
  end.

Definition _check_collision (s : Store) (body_a body_b : nat)
    : result (option CollisionInfo) :=
  match shape (s body_a), shape (s body_b) with
  | Circle _, Circle _ => _circle_circle_collision s body_a body_b
  | Circle _, Segment _ => _circle_segment_collision s body_a body_b
  | Segment _, Circle _ => _circle_segment_collision s body_b body_a
  | Circle _, Ring _ => _circle_ring_collision s body_a body_b
  | Ring _, Circle _ => _circle_ring_collision s body_b body_a
  | _, _ => Ok None
  end.

Fixpoint insert_all (g : SpatialGrid.t) (s : Store) (bodies : list nat)
    : result SpatialGrid.t :=
  match bodies with
  | [] => Ok g
  | body :: rest =>
      g' <- SpatialGrid.insert g s body ;;
      insert_all g' s rest
  end.

(** The contacts of the candidate pairs, in their order. *)
Fixpoint check_all (s : Store) (l : list (nat * nat))
    : result (list CollisionInfo) :=
  match l with
  | [] => Ok []
  | (body_a, body_b) :: rest =>
      collision <- _check_collision s body_a body_b ;;
      found <- check_all s rest ;;
      match collision with
      | Some c => Ok (c :: found)
      | None => Ok found
      end
  end.

(** The candidates of the naive double loop: every pair but those of two
    static bodies. *)
Definition naive_candidates (s : Store) (bodies : list nat)
    : list (nat * nat) :=
  filter (fun p => negb (static (s (fst p)) && static (s (snd p))))
         (pairs_of bodies).

(** [detect_collisions]: the contacts found, and the detector with its
    grid and counters as the call leaves them. *)
Definition detect_collisions (self : t) (s : Store) (bodies : list nat)
    : result (list CollisionInfo * t) :=
  match use_spatial_optimization self, spatial_grid self with
  | true, Some g =>
      g <- insert_all (SpatialGrid.clear g) s bodies ;;
      let candidates := SpatialGrid.get_potential_collisions g in
      collisions <- check_all s candidates ;;
      Ok (collisions,
          mk true (Some g) (cell_size self)
             (Z.of_nat (List.length candidates))
             (Z.of_nat (List.length collisions)))
  | _, _ =>
      collisions <- check_all s (naive_candidates s bodies) ;;
      Ok (collisions,
          mk (use_spatial_optimization self) (spatial_grid self)
             (cell_size self)
             (Z.of_nat (List.length (pairs_of bodies)))
             (Z.of_nat (List.length collisions)))
  end.

End CollisionDetector.

(** ** collision/resolver.py *)

(** The collision callbacks [on_collision] are code of the driver; a body
    has none unless the driver sets one, and the model has none. *)

Module CollisionResolver.

Record t : Type := mk {
  position_correction : bool;
  position_correction_factor : R;
  velocity_threshold : R
}.

Definition init : t := mk true 0.8 0.01.

Definition _resolve_position (self : t) (body_a body_b : nat)
    (normal : Vector2D.t) (penetration : R) : M unit :=
  a <~ get body_a ;;
  b <~ get body_b ;;
  let inv_mass_a := if static a then 0 else inv_mass a in
  let inv_mass_b := if static b then 0 else inv_mass b in
  let total_inv_mass := inv_mass_a + inv_mass_b in
  if total_inv_mass <=? 0 then ret tt
  else
    k <~ lift (Py.truediv (penetration * position_correction_factor self)
                          total_inv_mass) ;;
    let correction := normal *v k in
    (if negb (static a) then
       modify body_a (fun o =>
         set_position o (position o -v correction *v inv_mass_a))
     else ret tt) ;;;
    (if negb (static b) then
       modify body_b (fun o =>
         set_position o (position o +v correction *v inv_mass_b))
     else ret tt).

Definition _apply_friction (self : t) (body_a body_b : nat)
    (normal : Vector2D.t) (impulse_scalar : R) : M unit :=
  a <~ get body_a ;;
  b <~ get body_b ;;
  let relative_velocity := velocity b -v velocity a in
  let tangent :=
    relative_velocity
    -v normal *v Vector2D.dot relative_velocity normal in
  if Vector2D.magnitude tangent <? velocity_threshold self then ret tt
  else
    tangent <~ lift (Vector2D.normalized tangent) ;;
    let friction_magnitude := - Vector2D.dot relative_velocity tangent in
    mu <~ lift (Py.sqrt (friction a * friction b)) ;;
    let friction_impulse :=
      if Rabs friction_magnitude <? impulse_scalar * mu then
        tangent *v friction_magnitude
      else
        tangent *v (- impulse_scalar * mu) in
    let inv_mass_a := if static a then 0 else inv_mass a in
    let inv_mass_b := if static b then 0 else inv_mass b in
    (if negb (static a) then
       modify body_a (fun o =>
         set_velocity o (velocity o -v friction_impulse *v inv_mass_a))
     else ret tt) ;;;
    (if negb (static b) then
       modify body_b (fun o =>
         set_velocity o (velocity o +v friction_impulse *v inv_mass_b))
     else ret tt).

Definition _resolve_velocity (self : t) (body_a body_b : nat)
    (normal : Vector2D.t) (collision : CollisionInfo) : M unit :=
  a <~ get body_a ;;
  b <~ get body_b ;;
  let relative_velocity := velocity b -v velocity a in
  let velocity_along_normal := Vector2D.dot relative_velocity normal in
  if velocity_along_normal >? 0 then ret tt
  else
    let restitution := Rmin (restitution a) (restitution b) in
    let impulse_scalar := - (1 + restitution) * velocity_along_normal in
    let inv_mass_a := if static a then 0 else inv_mass a in
    let inv_mass_b := if static b then 0 else inv_mass b in
    impulse_scalar <~ lift (Py.truediv impulse_scalar
                                       (inv_mass_a + inv_mass_b)) ;;
    let impulse := normal *v impulse_scalar in
    (if negb (static a) then
       modify body_a (fun o =>
         set_velocity o (velocity o -v impulse *v inv_mass_a))
     else ret tt) ;;;
    (if negb (static b) then
       modify body_b (fun o =>
         set_velocity o (velocity o +v impulse *v inv_mass_b))
     else ret tt) ;;;
    _apply_friction self body_a body_b normal impulse_scalar.

Definition resolve_collision (self : t) (collision : CollisionInfo)
    (dt : R) : M unit :=
  let body_a := body_a collision in
  let body_b := body_b collision in
  let normal := normal collision in
  let penetration := penetration collision in
  (if position_correction self && (penetration >? 0) then
     _resolve_position self body_a body_b normal penetration
   else ret tt) ;;;
  _resolve_velocity self body_a body_b normal collision.

Definition resolve_collisions (self : t) (collisions : list CollisionInfo)
    (dt : R) : M unit :=
  for_each collisions (fun collision => resolve_collision self collision dt).

End CollisionResolver.

(** ** core/engine.py *)

Module EngineConfig.

Record t : Type := mk {
  gravity : Vector2D.t;
  air_resistance : R;
  restitution : R;
  friction : R;
  max_velocity : R
}.

Definition default : t := mk (Vector2D.mk 0 981) 0.99 0.8 0.1 2000.

End EngineConfig.

(** The dictionary [PhysicsEngine._check_collision] returns. *)
Record EngineContact : Type := mkEngineContact {
  ec_normal : Vector2D.t;
  ec_penetration : R;
  ec_contact_point : Vector2D.t
}.

(** The engine's constraints, update callbacks and collision callbacks are
    objects of the driver; a new engine has none, and the model has none. *)

Module PhysicsEngine.

Record t : Type := mk {
  config : EngineConfig.t;
  paused : bool;
  time_scale : R;
  bodies : list nat;
  collision_pairs : list (nat * nat * EngineContact);
  dt : R
}.

Definition set_collision_pairs (self : t)
    (l : list (nat * nat * EngineContact)) : t :=
  mk (config self) (paused self) (time_scale self) (bodies self) l
     (dt self).

Definition _apply_forces_body (self : t) (body : nat) : M unit :=
  b <~ get body ;;
  if negb (static b) then
    modify body (fun o =>
      set_acceleration o
        (Vector2D.copy (EngineConfig.gravity (config self)))) ;;;
    (if Vector2D.magnitude (velocity b) >? 0 then
       n <~ lift (Vector2D.normalized (velocity b)) ;;
       let air_force :=
         n *v (- Vector2D.magnitude_squared (velocity b)) *v 0.5
           *v drag_coefficient b in
       q <~ lift (Vector2D.truediv_x air_force (mass b)) ;;
       modify body (fun o => set_acceleration o (acceleration o +v q))
     else ret tt) ;;;
    for_each (forces b) (fun force =>
      q <~ lift (Vector2D.truediv_x force (mass b)) ;;
      modify body (fun o => set_acceleration o (acceleration o +v q))) ;;;
    modify body (fun o => set_forces o [])
  else ret tt.

Definition _apply_forces (self : t) (dt : R) : M unit :=
  for_each (bodies self) (_apply_forces_body self).

Definition _integrate_body (self : t) (dt : R) (body : nat) : M unit :=
  b <~ get body ;;
  if negb (static b) then
    modify body (fun o =>
      set_position o
        (position o
         +v (velocity o *v dt +v acceleration o *v 0.5 *v dt *v dt))) ;;;
    modify body (fun o =>
      set_velocity o (velocity o +v acceleration o *v dt)) ;;;
    b <~ get body ;;
    (if Vector2D.magnitude (velocity b)
        >? EngineConfig.max_velocity (config self) then
       n <~ lift (Vector2D.normalized (velocity b)) ;;
       modify body (fun o =>
         set_velocity o (n *v EngineConfig.max_velocity (config self)))
     else ret tt) ;;;
    modify body (fun o =>
      set_velocity o
        (velocity o *v (1 - EngineConfig.friction (config self) * dt)))
  else ret tt.

Definition _integrate (self : t) (dt : R) : M unit :=
  for_each (bodies self) (_integrate_body self dt).

(** The circle-circle test of the engine; [hasattr(body, 'radius')] holds
    of circles only. *)
Definition _check_collision (s : Store) (body_a body_b : nat)
    : result (option EngineContact) :=
  match shape (s body_a), shape (s body_b) with
  | Circle radius_a, Circle radius_b =>
      let distance :=
        Vector2D.distance_to (position (s body_a)) (position (s body_b)) in
      if distance <? radius_a + radius_b then
        normal <- Vector2D.normalized
                    (position (s body_b) -v position (s body_a)) ;;
        let penetration := radius_a + radius_b - distance in
        Ok (Some (mkEngineContact normal penetration
                    (position (s body_a) +v normal *v radius_a)))
      else Ok None
  | _, _ => Ok None
  end.

Fixpoint _detect_pairs (s : Store) (l : list (nat * nat))
    : result (list (nat * nat * EngineContact)) :=
  match l with
  | [] => Ok []
  | (body_a, body_b) :: l' =>
      if static (s body_a) && static (s body_b) then _detect_pairs s l'
      else
        collision_info <- _check_collision s body_a body_b ;;
        rest <- _detect_pairs s l' ;;
        match collision_info with
        | Some info => Ok ((body_a, body_b, info) :: rest)
        | None => Ok rest
        end
  end.

Definition _detect_collisions (self : t)
    : M (list (nat * nat * EngineContact)) :=
  fun s => lift (_detect_pairs s (pairs_of (bodies self))) s.

Definition _resolve_pair (self : t)
    (pair : nat * nat * EngineContact) : M unit :=
  let '(body_a, body_b, collision_info) := pair in
  let normal := ec_normal collision_info in
  let penetration := ec_penetration collision_info in
  let correction := normal *v penetration *v 0.5 in
  a <~ get body_a ;;
  b <~ get body_b ;;
  (if negb (static a) then
     modify body_a (fun o => set_position o (position o -v correction))
   else ret tt) ;;;
  (if negb (static b) then
     modify body_b (fun o => set_position o (position o +v correction))
   else ret tt) ;;;
  a <~ get body_a ;;
  b <~ get body_b ;;
  let relative_velocity := velocity b -v velocity a in
  let velocity_along_normal := Vector2D.dot relative_velocity normal in
  if velocity_along_normal >? 0 then ret tt
  else
    let restitution := Rmin (restitution a) (restitution b) in
    let impulse_scalar := - (1 + restitution) * velocity_along_normal in
    inv_mass_a <~ lift (if static a then Ok 0
                        else Py.truediv_x 1 (mass a)) ;;
    inv_mass_b <~ lift (if static b then Ok 0
                        else Py.truediv_x 1 (mass b)) ;;
    impulse_scalar <~ lift (Py.truediv impulse_scalar
                                       (inv_mass_a + inv_mass_b)) ;;
    let impulse := normal *v impulse_scalar in
    (if negb (static a) then
       modify body_a (fun o =>
         set_velocity o (velocity o -v impulse *v inv_mass_a))
     else ret tt) ;;;
    (if negb (static b) then
       modify body_b (fun o =>
         set_velocity o (velocity o +v impulse *v inv_mass_b))
     else ret tt).

Definition _resolve_collisions (self : t) (dt : R) : M unit :=
  for_each (collision_pairs self) (_resolve_pair self).

(** [step(dt)]; [None] stands for the default argument.  The returned
    engine carries the new [collision_pairs]. *)
Definition step (self : t) (dt : option R) : M t :=
  if paused self then ret self
  else
    let dt := match dt with
              | Some dt => dt
              | None => PhysicsEngine.dt self * time_scale self
              end in
    _apply_forces self dt ;;;
    _integrate self dt ;;;
    pairs <~ _detect_collisions self ;;
    let self := set_collision_pairs self pairs in
    _resolve_collisions self dt ;;;
    ret self.

End PhysicsEngine.


(** ** collision/detector.py: continuous detection *)

Module ContinuousCollisionDetector.

Definition tolerance : R := 1e-6.
Definition max_iterations : nat := 20.

(** The loop of [_binary_search_collision_time] with [n] iterations still
    to run; what it returns is what the function returns, the value after
    the loop included. *)
Fixpoint bisect (n : nat) (pos_a vel_a pos_b vel_b : Vector2D.t)
    (radius_sum t_min t_max : R) : R :=
  match n with
  | O => (t_min + t_max) / 2
  | S n' =>
      let t_mid := (t_min + t_max) / 2 in
      let pos_a_mid := pos_a +v vel_a *v t_mid in
      let pos_b_mid := pos_b +v vel_b *v t_mid in
      let distance := Vector2D.distance_to pos_a_mid pos_b_mid in
      if Rabs (distance - radius_sum) <? tolerance then t_mid
      else
        let t_min' := if distance >? radius_sum then t_mid else t_min in
        let t_max' := if distance >? radius_sum then t_max else t_mid in
        if t_max' - t_min' <? tolerance then (t_min' + t_max') / 2
        else bisect n' pos_a vel_a pos_b vel_b radius_sum t_min' t_max'
  end.

Definition _binary_search_collision_time (s : Store)
    (circle_a circle_b : nat) (dt radius_sum : R) : option R :=
  Some (bisect max_iterations
               (position (s circle_a)) (velocity (s circle_a))
               (position (s circle_b)) (velocity (s circle_b))
               radius_sum 0 dt).

Definition _circle_circle_ccd (s : Store) (circle_a circle_b : nat)
    (dt : R) : result (option CollisionInfo) :=
  match shape (s circle_a), shape (s circle_b) with
  | Circle radius_a, Circle radius_b =>
      let final_pos_a :=
        position (s circle_a) +v velocity (s circle_a) *v dt in
      let final_pos_b :=
        position (s circle_b) +v velocity (s circle_b) *v dt in
      let initial_distance :=
        Vector2D.distance_to (position (s circle_a))
                             (position (s circle_b)) in
      let radius_sum := radius_a + radius_b in
      if initial_distance <? radius_sum then Ok None
      else
        let final_distance :=
          Vector2D.distance_to final_pos_a final_pos_b in
        if final_distance >=? radius_sum then Ok None
        else
          match _binary_search_collision_time
                  s circle_a circle_b dt radius_sum with
          | Some t_collision =>
              let pos_a_collision :=
                position (s circle_a)
                +v velocity (s circle_a) *v t_collision in
              let pos_b_collision :=
                position (s circle_b)
                +v velocity (s circle_b) *v t_collision in
              normal <- Vector2D.normalized
                          (pos_b_collision -v pos_a_collision) ;;
              let contact_point :=
                pos_a_collision +v normal *v radius_a in
              Ok (Some (mkCollisionInfo circle_a circle_b contact_point
                          normal 0 "circle-circle-ccd"
                          [("collision_time"%string,
                            MetaFloat t_collision)]))
          | None => Ok None
          end
  | _, _ => Ok None
  end.

(** [isinstance(body, Circle)] on both bodies. *)
Definition detect_continuous_collision (s : Store) (body_a body_b : nat)
    (dt : R) : result (option CollisionInfo) :=
  match shape (s body_a), shape (s body_b) with
  | Circle _, Circle _ => _circle_circle_ccd s body_a body_b dt
  | _, _ => Ok None
  end.

End ContinuousCollisionDetector.

(** ** collision/detector.py: the quadtree *)

Inductive QuadTree : Type :=
  mkQuadTree (bounds : R * R * R * R) (max_objects max_levels level : Z)
             (objects : list nat) (nodes : list QuadTree).

Module QuadTreeM.

Definition bounds (self : QuadTree) : R * R * R * R :=
  let '(mkQuadTree b _ _ _ _ _) := self in b.
Definition max_objects (self : QuadTree) : Z :=
  let '(mkQuadTree _ m _ _ _ _) := self in m.
Definition max_levels (self : QuadTree) : Z :=
  let '(mkQuadTree _ _ m _ _ _) := self in m.
Definition level (self : QuadTree) : Z :=
  let '(mkQuadTree _ _ _ l _ _) := self in l.
Definition objects (self : QuadTree) : list nat :=
  let '(mkQuadTree _ _ _ _ o _) := self in o.
Definition nodes (self : QuadTree) : list QuadTree :=
  let '(mkQuadTree _ _ _ _ _ n) := self in n.

Definition init (bounds : R * R * R * R) (max_objects max_levels level : Z)
    : QuadTree :=
  mkQuadTree bounds max_objects max_levels level [] [].

(** The four quadrants [split] stores in [nodes]. *)
Definition split_nodes (bounds : R * R * R * R)
    (max_objects max_levels level : Z) : list QuadTree :=
  let '(x, y, width, height) := bounds in
  let sub_width := width / 2 in
  let sub_height := height / 2 in
  [ init (x + sub_width, y, sub_width, sub_height)
         max_objects max_levels (level + 1);
    init (x, y, sub_width, sub_height)
         max_objects max_levels (level + 1);
    init (x, y + sub_height, sub_width, sub_height)
         max_objects max_levels (level + 1);
    init (x + sub_width, y + sub_height, sub_width, sub_height)
         max_objects max_levels (level + 1) ].

Definition get_index (bounds : R * R * R * R) (b : PhysicsBody) : Z :=
  let '(x, y, width, height) := bounds in
  let vertical_midpoint := x + width / 2 in
  let horizontal_midpoint := y + height / 2 in
  let '(min_pos, max_pos) := get_bounding_box b in
  let top_quadrant :=
    (Vector2D.y min_pos <? horizontal_midpoint)
    && (Vector2D.y max_pos <? horizontal_midpoint) in
  let bottom_quadrant := Vector2D.y min_pos >? horizontal_midpoint in
  if (Vector2D.x min_pos <? vertical_midpoint)
     && (Vector2D.x max_pos <? vertical_midpoint) then
    if top_quadrant then 1
    else if bottom_quadrant then 2
    else (-1)
  else if Vector2D.x min_pos >? vertical_midpoint then
    if top_quadrant then 0
    else if bottom_quadrant then 3
    else (-1)
  else (-1).

Definition is_empty {A} (l : list A) : bool :=
  match l with
  | [] => true
  | _ => false
  end.

(** [nodes[index] = node] *)
Fixpoint set_nth (l : list QuadTree) (index : nat) (node : QuadTree)
    : list QuadTree :=
  match l, index with
  | [], _ => []
  | _ :: l', O => node :: l'
  | n :: l', S k => n :: set_nth l' k node
  end.

(** [insert].  A call on a child is a call one level down; [depth] bounds
    the number of levels the calls may go down, and [None] says that the
    bound was too small. *)
Fixpoint insert (depth : nat) (s : Store) (self : QuadTree) (body : nat)
    : option QuadTree :=
  match depth with
  | O => None
  | S depth' =>
      let '(mkQuadTree bounds max_objects max_levels level objects nodes) :=
        self in
      let index := get_index bounds (s body) in
      if negb (is_empty nodes) && negb (Z.eqb index (-1)) then
        match nth_error nodes (Z.to_nat index) with
        | Some child =>
            match insert depth' s child body with
            | Some child' =>
                Some (mkQuadTree bounds max_objects max_levels level
                        objects (set_nth nodes (Z.to_nat index) child'))
            | None => None
            end
        | None => None
        end
      else
        let objects := objects ++ [body] in
        if Z.ltb max_objects (Z.of_nat (List.length objects))
           && Z.ltb level max_levels then
          let nodes :=
            if is_empty nodes then
              split_nodes bounds max_objects max_levels level
            else nodes in
          (** the [while] loop: the objects that fit a quadrant leave
              [objects] for it, in their order; the others stay *)
          (fix redistribute (todo kept : list nat) (nodes : list QuadTree)
             : option QuadTree :=
             match todo with
             | [] =>
                 Some (mkQuadTree bounds max_objects max_levels level
                         kept nodes)
             | obj :: todo' =>
                 let index := get_index bounds (s obj) in
                 if Z.eqb index (-1) then
                   redistribute todo' (kept ++ [obj]) nodes
                 else
                   match nth_error nodes (Z.to_nat index) with
                   | Some child =>
                       match insert depth' s child obj with
                       | Some child' =>
                           redistribute todo' kept
                             (set_nth nodes (Z.to_nat index) child')
                       | None => None
                       end
                   | None => None
                   end
             end) objects [] nodes
        else
          Some (mkQuadTree bounds max_objects max_levels level
                  objects nodes)
  end.

(** [retrieve(return_objects, body)]: the list [return_objects] as the
    call leaves it. *)
Fixpoint retrieve (self : QuadTree) (return_objects : list nat)
    (s : Store) (body : nat) : list nat :=
  let '(mkQuadTree bounds _ _ _ objects nodes) := self in
  let index := get_index bounds (s body) in
  let return_objects :=
    if negb (Z.eqb index (-1)) && negb (is_empty nodes) then
      (fix at_index (l : list QuadTree) (k : nat) : list nat :=
         match l, k with
         | child :: _, O => retrieve child return_objects s body
         | _ :: l', S k' => at_index l' k'
         | [], _ => return_objects
         end) nodes (Z.to_nat index)
    else return_objects in
  return_objects ++ objects.

End QuadTreeM.

(** ** Scenes *)

(** The body at the addresses a scene leaves unused. *)
Definition nobody : PhysicsBody :=
  mkBody (Vector2D.mk 0 0) (Vector2D.mk 0 0) (Vector2D.mk 0 0) (Py.Fin 1) 0
         true 0.8 0.3 0.1 [] (Circle 0).

Definition store_of (l : list PhysicsBody) : Store :=
  fun id => nth id l nobody.

(** What [Circle(position, radius, mass, static)] builds when it returns. *)
Definition circle_body (position : Vector2D.t) (radius mass : R)
    (static : bool) : PhysicsBody :=
  mkBody position (Vector2D.mk 0 0) (Vector2D.mk 0 0) (Py.Fin mass)
         (if static then 0 else 1 / mass) static 0.8 0.3 0.1 []
         (Circle radius).

(** What [Segment(start, end, thickness, static)] builds. *)
Definition segment_body (start end_ : Vector2D.t) (thickness : R)
    (static : bool) : PhysicsBody :=
  mkBody (Vector2D.mk ((Vector2D.x start + Vector2D.x end_) / 2)
                      ((Vector2D.y start + Vector2D.y end_) / 2))
         (Vector2D.mk 0 0) (Vector2D.mk 0 0) Py.Inf 0 static 0.8 0.3 0.1 []
         (Segment (mkSegment start end_ thickness)).

(** What [Ring(center, inner_radius, outer_radius, gap_angle, gap_start,
    static)] builds. *)
Definition ring_body (center : Vector2D.t) (inner_radius outer_radius : R)
    (gap_angle gap_start : R) (static : bool) : PhysicsBody :=
  mkBody center (Vector2D.mk 0 0) (Vector2D.mk 0 0) Py.Inf 0 static
         0.8 0.3 0.1 []
         (Ring (mkRing inner_radius outer_radius gap_angle gap_start 0)).

(** A circle above a horizontal wall. *)
Definition scene_wall : Store :=
  store_of [ circle_body (Vector2D.mk 0 3) 5 1 false;
             segment_body (Vector2D.mk (-10) 0) (Vector2D.mk 10 0) 2 true ].

(** Two static circles that overlap. *)
Definition scene_static_pair : Store :=
  store_of [ circle_body (Vector2D.mk 0 0) 5 1 true;
             circle_body (Vector2D.mk 6 0) 5 1 true ].

(** ** Runs of the engine *)

(** [steps s s']: some number of calls of [step], on any engines and with
    any arguments, lead from the store [s] to the store [s']; a call that
    raises leaves the store as it was when it raised. *)
Inductive steps : Store -> Store -> Prop :=
| steps_none (s : Store) : steps s s
| steps_more (s s' : Store) (engine : PhysicsEngine.t) (dt : option R) :
    steps s s' -> steps s (final (PhysicsEngine.step engine dt s')).

(** ** Angles modulo 360 *)

(** The words of the specification of the gap: [angle] lies in the interval
    from [first] to [first + width], taken modulo 360 degrees. *)
Definition in_arc (angle first width : R) : Prop :=
  exists k : Z, first <= angle + 360 * IZR k <= first + width.

(** A ring whose gap is the whole circle, and a point to the east of its
    centre. *)
Definition scene_open_ring : PhysicsBody :=
  ring_body (Vector2D.mk 0 0) 40 50 360 90 true.

Definition scene_open_ring_data : RingData := mkRing 40 50 360 90 0.

(** Two small circles in opposite corners of a square of side 100, and a
    large circle that reaches over the first of them and over both centre
    lines of the square. *)
Definition scene_quadrants : Store :=
  store_of [ circle_body (Vector2D.mk 10 10) 5 1 false;
             circle_body (Vector2D.mk 80 80) 5 1 false;
             circle_body (Vector2D.mk 48 10) 40 1 false ].

(** Two boxes [(min, max)] overlap. *)
Definition boxes_overlap (p q : Vector2D.t * Vector2D.t) : Prop :=
  Vector2D.x (fst p) <= Vector2D.x (snd q)
  /\ Vector2D.x (fst q) <= Vector2D.x (snd p)
  /\ Vector2D.y (fst p) <= Vector2D.y (snd q)
  /\ Vector2D.y (fst q) <= Vector2D.y (snd p).

(** An engine with the default configuration that holds the bodies at the
    addresses 0 and 1. *)
Definition scene_engine : PhysicsEngine.t :=
  PhysicsEngine.mk EngineConfig.default false 1 [0; 1]%nat [] (1 / 60).

(** Two circles of mass 1, restitution 1 and friction 0 that approach each
    other along the line of their centres, and their contact. *)
Definition scene_head_on : Store :=
  store_of
    [ mkBody (Vector2D.mk 0 0) (Vector2D.mk 1 0) (Vector2D.mk 0 0) (Py.Fin 1)
             (1 / 1) false 1 0 0.1 [] (Circle 5);
      mkBody (Vector2D.mk 8 0) (Vector2D.mk (-1) 0) (Vector2D.mk 0 0)
             (Py.Fin 1) (1 / 1) false 1 0 0.1 [] (Circle 5) ].

Definition scene_head_on_contact : CollisionInfo :=
  mkCollisionInfo 0 1 (Vector2D.mk 5 0) (Vector2D.mk 1 0) 2
                  "circle-circle" [].

(** A falling circle above a wall that was built with [static=False]. *)
Definition scene_loose_wall : Store :=
  store_of
    [ set_velocity (circle_body (Vector2D.mk 0 3) 5 1 false)
                   (Vector2D.mk 0 (-2));
      segment_body (Vector2D.mk (-10) 0) (Vector2D.mk 10 0) 2 false ].

Definition scene_loose_wall_contact : CollisionInfo :=
  mkCollisionInfo 0 1 (Vector2D.mk 0 0) (Vector2D.mk 0 1) 3
                  "circle-segment" [].

(** A fast circle and a resting one, both of radius 10 and 100 apart. *)
Definition scene_sweep : Store :=
  store_of
    [ set_velocity (circle_body (Vector2D.mk 0 0) 10 1 false)
                   (Vector2D.mk 450 0);
      circle_body (Vector2D.mk 100 0) 10 1 false ].

(** ** Notions of the statements *)

(** The unit vector of a non-zero vector. *)
Definition unit_of (v : Vector2D.t) : Vector2D.t :=
  Vector2D.mk (Vector2D.x v / Vector2D.magnitude v)
              (Vector2D.y v / Vector2D.magnitude v).

(** [max(0, min(k, n - 1))], the clamp of [_get_cell_coords]. *)
Definition clamp (k n : Z) : Z := Z.max 0 (Z.min k (n - 1)).

(** The static flags are those of the store before, and a static body is
    the same object after as before. *)
Definition frozen (s s' : Store) : Prop :=
  forall i, static (s' i) = static (s i)
            /\ (static (s i) = true -> s' i = s i).

(** The inverse masses and the static flags are those of the store before,
    and a body whose inverse mass is 0 has the velocity it had. *)
Definition inert (s s' : Store) : Prop :=
  forall i, inv_mass (s' i) = inv_mass (s i)
            /\ static (s' i) = static (s i)
            /\ (inv_mass (s i) = 0 -> velocity (s' i) = velocity (s i)).

(** The store after differs from the store before in positions only. *)
Definition moved (s s' : Store) : Prop :=
  forall i, exists q, s' i = set_position (s i) q.

(** The square the quadtree of [scene_quadrants] covers. *)
Definition square100 : R * R * R * R := (0, 0, 100, 100).

(** The list [grid[cell]], empty when [cell] is not a key. *)
Fixpoint lookup_cell (g : list ((Z * Z) * list nat)) (cell : Z * Z)
    : list nat :=
  match g with
  | [] => []
  | (c, l) :: g' => if cell_eqb c cell then l else lookup_cell g' cell
  end.

(** A box whose corners are in order. *)
Definition box_ordered (p : Vector2D.t * Vector2D.t) : Prop :=
  Vector2D.x (fst p) <= Vector2D.x (snd p)
  /\ Vector2D.y (fst p) <= Vector2D.y (snd p).

(** Radii and thicknesses are not negative. *)
Definition sizes_nonnegative (b : PhysicsBody) : Prop :=
  match shape b with
  | Circle radius => 0 <= radius
  | Segment seg => 0 <= thickness seg
  | Ring ring => 0 <= outer_radius ring
  end.

(** The key [get_potential_collisions] files a pair under. *)
Definition pair_key (p : nat * nat) : nat * nat :=
  (Nat.min (fst p) (snd p), Nat.max (fst p) (snd p)).


From Stdlib Require Import Permutation.
From Stdlib Require PrimFloat FloatOps FloatAxioms SpecFloat.

(** ** core/vector.py: the other operations *)

Module Vector2DOps.

Definition cross (self other : Vector2D.t) : R :=
  Vector2D.x self * Vector2D.y other - Vector2D.y self * Vector2D.x other.


Definition rotate (self : Vector2D.t) (angle : R) : Vector2D.t :=
  let cos_a := cos angle in
  let sin_a := sin angle in
  Vector2D.mk (Vector2D.x self * cos_a - Vector2D.y self * sin_a)
              (Vector2D.x self * sin_a + Vector2D.y self * cos_a).

(** [self - 2 * self.dot(normal) * normal]; the product of a float with a
    vector is [normal.__mul__] of the float. *)
Definition reflect (self normal : Vector2D.t) : Vector2D.t :=
  self -v normal *v (2 * Vector2D.dot self normal).

Definition project_onto (self other : Vector2D.t) : result Vector2D.t :=
  let other_mag_sq := Vector2D.magnitude_squared other in
  if other_mag_sq =? 0 then Ok (Vector2D.mk 0 0)
  else
    q <- Py.truediv (Vector2D.dot self other) other_mag_sq ;;
    Ok (other *v q).

Definition lerp (self other : Vector2D.t) (t : R) : Vector2D.t :=
  self +v (other -v self) *v t.

End Vector2DOps.

(** ** core/utils.py *)

Module Utils.

Definition clamp (value min_val max_val : R) : R :=
  Rmax min_val (Rmin max_val value).

Definition map_range (value in_min in_max out_min out_max : R) : result R :=
  q <- Py.truediv (value - in_min) (in_max - in_min) ;;
  Ok (out_min + (out_max - out_min) * q).

Definition distance_point_to_line (point line_start line_end : Vector2D.t)
    : result R :=
  let line_vec := line_end -v line_start in
  let point_vec := point -v line_start in
  if Vector2D.magnitude_squared line_vec =? 0 then
    Ok (Vector2D.magnitude point_vec)
  else
    q <- Py.truediv (Vector2D.dot point_vec line_vec)
                    (Vector2D.magnitude_squared line_vec) ;;
    let t := Rmax 0 (Rmin 1 q) in
    let projection := line_start +v line_vec *v t in
    Ok (Vector2D.distance_to point projection).

Definition smooth_step (edge0 edge1 x : R) : result R :=
  q <- Py.truediv (x - edge0) (edge1 - edge0) ;;
  let t := clamp q 0 1 in
  Ok (t * t * (3 - 2 * t)).

Definition ease_in_out_quad (t : R) : R :=
  if t <? 0.5 then 2 * t * t
  else -1 + (4 - 2 * t) * t.

End Utils.

(** ** physics/body.py: the other queries *)

Module SegmentOps.


Definition distance_to_point (self : SegmentData) (point : Vector2D.t)
    : result R :=
  closest <- SegmentM.closest_point_on_segment self point ;;
  Ok (Vector2D.distance_to point closest).

End SegmentOps.

Module RingOps.

(** [update_rotation(dt)]; the field [rotation_speed] of the ring is an
    argument. *)
Definition update_rotation (self : RingData) (rotation_speed dt : R)
    : RingData :=
  let rotation := rotation self + rotation_speed * dt in
  mkRing (inner_radius self) (outer_radius self) (gap_angle self)
         (gap_start self) (Py.mod360 rotation).

End RingOps.

(** ** core/engine.py: the list of bodies *)

Module PhysicsEngineOps.

Definition set_bodies (self : PhysicsEngine.t) (l : list nat)
    : PhysicsEngine.t :=
  PhysicsEngine.mk (PhysicsEngine.config self) (PhysicsEngine.paused self)
                   (PhysicsEngine.time_scale self) l
                   (PhysicsEngine.collision_pairs self)
                   (PhysicsEngine.dt self).

(** [body in self.bodies] *)
Definition contains (l : list nat) (body : nat) : bool :=
  existsb (Nat.eqb body) l.

(** [list.remove(body)] on a list that holds [body]: the first occurrence
    goes. *)
Fixpoint remove_first (l : list nat) (body : nat) : list nat :=
  match l with
  | [] => []
  | x :: l' => if Nat.eqb x body then l' else x :: remove_first l' body
  end.

(** The back reference [body.engine] is not modelled. *)
Definition add_body (self : PhysicsEngine.t) (body : nat)
    : PhysicsEngine.t :=
  set_bodies self (PhysicsEngine.bodies self ++ [body]).

Definition remove_body (self : PhysicsEngine.t) (body : nat)
    : PhysicsEngine.t :=
  if contains (PhysicsEngine.bodies self) body then
    set_bodies self (remove_first (PhysicsEngine.bodies self) body)
  else self.

End PhysicsEngineOps.

(** ** collision/detector.py: the quadtree, continued *)

Module QuadTreeOps.

(** [clear]: the objects go, the sub-nodes are cleared and dropped. *)
Definition clear (self : QuadTree) : QuadTree :=
  let '(mkQuadTree bounds max_objects max_levels level _ _) := self in
  mkQuadTree bounds max_objects max_levels level [] [].

End QuadTreeOps.

(** The objects a tree holds, those of its sub-nodes included. *)
Fixpoint all_objects (t : QuadTree) : list nat :=
  let '(mkQuadTree _ _ _ _ objects nodes) := t in
  objects ++ flat_map all_objects nodes.

(** ** core/engine.py: the forces on a body *)

(** The sum of a list of vectors. *)
Definition vsum (l : list Vector2D.t) : Vector2D.t :=
  fold_right Vector2D.__add__ (Vector2D.mk 0 0) l.

(** The drag on a body of velocity [v] and drag coefficient [c]: against
    the velocity, of size [c |v|^2 / 2]; none on a body at rest. *)
Definition drag_force (v : Vector2D.t) (c : R) : Vector2D.t :=
  Vector2D.__neg__ v *v (Vector2D.magnitude v * 0.5 * c).

(** ** core/engine.py: the engine's own contacts *)


(** ** collision/resolver.py: notions of the statements *)

(** [0 if body.static else body.inv_mass], the inverse mass the resolver
    works with. *)
Definition effective_inv_mass (b : PhysicsBody) : R :=
  if static b then 0 else inv_mass b.

(** The store after differs from the store before in velocities only:
    the body [a] has lost the impulse [J], the body [b] has gained it, each
    by its effective inverse mass. *)
Definition kicked (a b : nat) (J : Vector2D.t) (s s' : Store) : Prop :=
  velocity (s' a) = velocity (s a) -v J *v effective_inv_mass (s a)
  /\ velocity (s' b) = velocity (s b) +v J *v effective_inv_mass (s b)
  /\ forall i, exists v, s' i = set_velocity (s i) v.

(** ** collision/detector.py: trees that [insert] builds *)

(** What [split] makes of the children of a node: they carry the limits of
    their parent and the next level. *)
Definition children_ok (wf : QuadTree -> Prop)
    (max_objects max_levels level : Z) (nodes : list QuadTree) : Prop :=
  fold_right
    (fun c P =>
       (QuadTreeM.max_objects c = max_objects
        /\ QuadTreeM.max_levels c = max_levels
        /\ QuadTreeM.level c = (level + 1)%Z
        /\ wf c)
       /\ P)
    True nodes.

(** A node has no children or the four of a split, which happens below
    [max_levels] only. *)
Fixpoint well_formed (t : QuadTree) : Prop :=
  let '(mkQuadTree _ max_objects max_levels level _ nodes) := t in
  (nodes = [] \/ (List.length nodes = 4%nat /\ (level < max_levels)%Z))
  /\ children_ok well_formed max_objects max_levels level nodes.

(** The number of levels left below a node. *)
Definition room (t : QuadTree) : nat :=
  Z.to_nat (QuadTreeM.max_levels t - QuadTreeM.level t).

(** ** collision/detector.py: notions of the statements on swept circles *)

(** The distance of the centres of two circles at the time [t] of the step:
    what [_binary_search_collision_time] computes as [distance]. *)
Definition distance_at (pos_a vel_a pos_b vel_b : Vector2D.t) (t : R) : R :=
  Vector2D.distance_to (pos_a +v vel_a *v t) (pos_b +v vel_b *v t).

(** ** core/vector.py on binary64 floats *)

(** The magnitude and the two normalisations once more, on the floats of
    the machine: here squares underflow to 0 and overflow to infinity, as
    they do when the program runs. *)
Module Vector2DF.

Import PrimFloat.
Local Open Scope float_scope.

Record t : Type := mk { x : float; y : float }.

(** [a / b] on floats, which raises on a divisor [0.0] or [-0.0]. *)
Definition truediv (a b : float) : result float :=
  if b =? 0 then Raise ZeroDivisionError else Ok (a / b).

(** [math.sqrt] is applied to a sum of two squares, which is never
    negative, and returns infinity and nan as they come. *)
Definition magnitude (self : t) : float :=
  sqrt (x self * x self + y self * y self).

Definition normalized (self : t) : result t :=
  let mag := magnitude self in
  if mag =? 0 then Ok (mk 0 0)
  else
    qx <- truediv (x self) mag ;;
    qy <- truediv (y self) mag ;;
    Ok (mk qx qy).

Definition normalize (self : t) : result t :=
  let mag := magnitude self in
  if 0 <? mag then
    qx <- truediv (x self) mag ;;
    qy <- truediv (y self) mag ;;
    Ok (mk qx qy)
  else Ok self.




End Vector2DF.


(** The store after differs from the store before in accelerations and
    queues of forces only. *)
Definition accelerated (s s' : Store) : Prop :=
  forall j, exists a f, s' j = set_forces (set_acceleration (s j) a) f.


(** * Proofs *)

(** ** Comparisons and square roots *)

Lemma ltb_true (a b : R) : (a <? b) = true <-> a < b.
Proof. unfold Py.ltb. destruct (Rlt_dec a b); split; intros; try easy. Qed.

Lemma ltb_false (a b : R) : (a <? b) = false <-> b <= a.
Proof.
  unfold Py.ltb. destruct (Rlt_dec a b); split; intros; try easy; lra.
Qed.

Lemma leb_true (a b : R) : (a <=? b) = true <-> a <= b.
Proof. unfold Py.leb. destruct (Rle_dec a b); split; intros; try easy. Qed.

Lemma leb_false (a b : R) : (a <=? b) = false <-> b < a.
Proof.
  unfold Py.leb. destruct (Rle_dec a b); split; intros; try easy; lra.
Qed.

Lemma eqb_true (a b : R) : (a =? b) = true <-> a = b.
Proof. unfold Py.eqb. destruct (Req_dec_T a b); split; intros; try easy. Qed.

Lemma eqb_false (a b : R) : (a =? b) = false <-> a <> b.
Proof. unfold Py.eqb. destruct (Req_dec_T a b); split; intros; try easy. Qed.

(** [rcases] decides every float comparison of the goal, leaving the facts
    among the hypotheses. *)
Ltac rcases :=
  unfold Py.gtb, Py.geb, Py.ltb, Py.leb, Py.eqb in *;
  repeat match goal with
         | |- context [Rlt_dec ?a ?b] => destruct (Rlt_dec a b)
         | |- context [Rle_dec ?a ?b] => destruct (Rle_dec a b)
         | |- context [Req_dec_T ?a ?b] => destruct (Req_dec_T a b)
         end.

Lemma truediv_ok (a b : R) : b <> 0 -> Py.truediv a b = Ok (a / b).
Proof. intros Hb. unfold Py.truediv. rcases; [contradiction | reflexivity]. Qed.

Lemma truediv_zero (a : R) : Py.truediv a 0 = Raise ZeroDivisionError.
Proof. unfold Py.truediv. rcases; [reflexivity | lra]. Qed.

Lemma sumsq_nonneg (a b : R) : 0 <= a * a + b * b.
Proof. nra. Qed.

Lemma magnitude_nonneg (v : Vector2D.t) : 0 <= Vector2D.magnitude v.
Proof. apply sqrt_pos. Qed.

Lemma magnitude_zero (v : Vector2D.t) :
  Vector2D.magnitude v = 0 <-> v = Vector2D.mk 0 0.
Proof.
  destruct v as [a b]. unfold Vector2D.magnitude. simpl. split.
  - intros H. apply sqrt_eq_0 in H; [| apply sumsq_nonneg].
    assert (a = 0) by nra. assert (b = 0) by nra. subst. reflexivity.
  - intros H. injection H as -> ->.
    replace (0 * 0 + 0 * 0) with 0 by ring. apply sqrt_0.
Qed.

Lemma magnitude_sqr (v : Vector2D.t) :
  Vector2D.magnitude v * Vector2D.magnitude v
  = Vector2D.x v * Vector2D.x v + Vector2D.y v * Vector2D.y v.
Proof. unfold Vector2D.magnitude. apply sqrt_def, sumsq_nonneg. Qed.

Lemma distance_to_magnitude (p q : Vector2D.t) :
  Vector2D.distance_to p q = Vector2D.magnitude (p -v q).
Proof. reflexivity. Qed.

Lemma distance_to_sym (p q : Vector2D.t) :
  Vector2D.distance_to p q = Vector2D.distance_to q p.
Proof. unfold Vector2D.distance_to. f_equal. ring. Qed.

Lemma normalized_nonzero (v : Vector2D.t) :
  Vector2D.magnitude v <> 0 -> Vector2D.normalized v = Ok (unit_of v).
Proof.
  intros H. unfold Vector2D.normalized.
  destruct (eqb_false (Vector2D.magnitude v) 0) as [_ E]. rewrite (E H).
  rewrite !truediv_ok by assumption. reflexivity.
Qed.

Lemma normalized_zero_mag (v : Vector2D.t) :
  Vector2D.magnitude v = 0 -> Vector2D.normalized v = Ok (Vector2D.mk 0 0).
Proof.
  intros H. unfold Vector2D.normalized.
  destruct (eqb_true (Vector2D.magnitude v) 0) as [_ E]. rewrite (E H).
  reflexivity.
Qed.


Lemma unit_of_magnitude (v : Vector2D.t) :
  Vector2D.magnitude v <> 0 -> Vector2D.magnitude (unit_of v) = 1.
Proof.
  intros H. pose proof (magnitude_nonneg v) as Hp.
  pose proof (magnitude_sqr v) as Hs.
  unfold Vector2D.magnitude at 1. unfold unit_of. simpl.
  apply sqrt_lem_1; [apply sumsq_nonneg | lra |].
  set (m := Vector2D.magnitude v) in *.
  replace (Vector2D.x v / m * (Vector2D.x v / m)
           + Vector2D.y v / m * (Vector2D.y v / m))
    with ((Vector2D.x v * Vector2D.x v + Vector2D.y v * Vector2D.y v)
          / (m * m)) by (field; assumption).
  rewrite <- Hs. field. assumption.
Qed.


(** Every call of [normalized] returns. *)
Lemma normalized_returns (v : Vector2D.t) :
  exists n, Vector2D.normalized v = Ok n.
Proof.
  destruct (Req_dec_T (Vector2D.magnitude v) 0) as [H | H].
  - eexists. apply normalized_zero_mag, H.
  - eexists. apply normalized_nonzero, H.
Qed.

(** ** Vector kernel *)





(** ** Vector kernel *)


Lemma magnitude_3_4 : Vector2D.magnitude (Vector2D.mk 3 4) = 5.
Proof.
  unfold Vector2D.magnitude. simpl. apply sqrt_lem_1; lra.
Qed.






(** ** Narrow phase *)

Lemma unit_of_dot (v : Vector2D.t) :
  Vector2D.magnitude v <> 0 ->
  Vector2D.dot (unit_of v) v = Vector2D.magnitude v.
Proof.
  intros H. pose proof (magnitude_sqr v) as Hs.
  unfold Vector2D.dot, unit_of. simpl.
  set (m := Vector2D.magnitude v) in *.
  replace (Vector2D.x v / m * Vector2D.x v + Vector2D.y v / m * Vector2D.y v)
    with ((Vector2D.x v * Vector2D.x v + Vector2D.y v * Vector2D.y v) / m)
    by (field; assumption).
  rewrite <- Hs. field. assumption.
Qed.

Lemma circle_circle_collision_some
    (s : Store) (a b : nat) (ra rb : R) :
  shape (s a) = Circle ra -> shape (s b) = Circle rb ->
  0 < Vector2D.distance_to (position (s a)) (position (s b)) < ra + rb ->
  CollisionDetector._circle_circle_collision s a b
  = Ok (Some (mkCollisionInfo a b
                (position (s a)
                 +v unit_of (position (s b) -v position (s a)) *v ra)
                (unit_of (position (s b) -v position (s a)))
                (ra + rb
                 - Vector2D.distance_to (position (s a)) (position (s b)))
                "circle-circle" [])).
Proof.
  intros Ha Hb [Hpos Hlt].
  assert (Hm : Vector2D.magnitude (position (s b) -v position (s a)) <> 0).
  { rewrite <- distance_to_magnitude, distance_to_sym. lra. }
  unfold CollisionDetector._circle_circle_collision. rewrite Ha, Hb.
  destruct (ltb_true (Vector2D.distance_to (position (s a)) (position (s b)))
                     (ra + rb)) as [_ E1]. rewrite (E1 Hlt).
  destruct (ltb_true 0 (Vector2D.distance_to (position (s a))
                                             (position (s b))))
    as [_ E2]. unfold Py.gtb. rewrite (E2 Hpos).
  simpl. rewrite (normalized_nonzero _ Hm). reflexivity.
Qed.

Lemma circle_circle_collision_none
    (s : Store) (a b : nat) (ra rb : R) :
  shape (s a) = Circle ra -> shape (s b) = Circle rb ->
  ~ 0 < Vector2D.distance_to (position (s a)) (position (s b)) < ra + rb ->
  CollisionDetector._circle_circle_collision s a b = Ok None.
Proof.
  intros Ha Hb H. unfold CollisionDetector._circle_circle_collision.
  rewrite Ha, Hb.
  destruct (_ <? _) eqn:E1; [| reflexivity].
  destruct (_ >? _) eqn:E2; [| reflexivity].
  apply ltb_true in E1. apply ltb_true in E2. lra.
Qed.

(** C5: the circle-circle test returns a contact exactly when the distance
    of the centres is positive and below the sum of the radii; the contact
    then carries the unit vector from A to B as normal, the overlap as
    penetration and the point of A's rim on that normal; with coinciding
    centres there is no contact. *)
Theorem circle_circle_contact_iff
    (s : Store) (a b : nat) (ra rb : R)
    (Ha : shape (s a) = Circle ra) (Hb : shape (s b) = Circle rb) :
  let pa := position (s a) in
  let pb := position (s b) in
  let d := Vector2D.distance_to pa pb in
  (0 < d < ra + rb ->
   exists n : Vector2D.t,
     Vector2D.normalized (pb -v pa) = Ok n
     /\ Vector2D.magnitude n = 1
     /\ CollisionDetector._circle_circle_collision s a b
        = Ok (Some (mkCollisionInfo a b (pa +v n *v ra) n (ra + rb - d)
                                    "circle-circle" [])))
  /\ (~ 0 < d < ra + rb ->
      CollisionDetector._circle_circle_collision s a b = Ok None)
  /\ (d = 0 -> CollisionDetector._circle_circle_collision s a b = Ok None).
Proof.
  intros pa pb d. split; [| split].
  - intros H.
    assert (Hm : Vector2D.magnitude (pb -v pa) <> 0).
    { rewrite <- distance_to_magnitude, distance_to_sym. fold d. lra. }
    exists (unit_of (pb -v pa)). split; [| split].
    + apply normalized_nonzero, Hm.
    + apply unit_of_magnitude, Hm.
    + apply circle_circle_collision_some; assumption.
  - apply circle_circle_collision_none; assumption.
  - intros H. apply (circle_circle_collision_none s a b ra rb Ha Hb).
    fold pa pb d. lra.
Qed.


Lemma if_ltb_true {A} (a b : R) (u v : A) :
  a < b -> (if a <? b then u else v) = u.
Proof. intros H. destruct (ltb_true a b) as [_ E]. rewrite (E H). reflexivity. Qed.

Lemma if_ltb_false {A} (a b : R) (u v : A) :
  b <= a -> (if a <? b then u else v) = v.
Proof. intros H. destruct (ltb_false a b) as [_ E]. rewrite (E H). reflexivity. Qed.

Lemma if_eqb_false {A} (a b : R) (u v : A) :
  a <> b -> (if a =? b then u else v) = v.
Proof. intros H. destruct (eqb_false a b) as [_ E]. rewrite (E H). reflexivity. Qed.

Lemma ltb_intro (a b : R) : a < b -> (a <? b) = true.
Proof. apply ltb_true. Qed.

Lemma ltb_elim (a b : R) : b <= a -> (a <? b) = false.
Proof. apply ltb_false. Qed.

Lemma leb_intro (a b : R) : a <= b -> (a <=? b) = true.
Proof. apply leb_true. Qed.

Lemma leb_elim (a b : R) : b < a -> (a <=? b) = false.
Proof. apply leb_false. Qed.

Lemma eqb_elim (a b : R) : a <> b -> (a =? b) = false.
Proof. apply eqb_false. Qed.

(** [rdecide] settles the comparisons of the goal that linear arithmetic
    settles. *)
Ltac rdecide :=
  unfold Py.gtb, Py.geb;
  repeat match goal with
         | |- context [Py.ltb ?a ?b] =>
             first [ rewrite (ltb_intro a b) by lra
                   | rewrite (ltb_elim a b) by lra ]
         | |- context [Py.leb ?a ?b] =>
             first [ rewrite (leb_intro a b) by lra
                   | rewrite (leb_elim a b) by lra ]
         | |- context [Py.eqb ?a ?b] =>
             rewrite (eqb_elim a b) by lra
         end.

(** Closed facts of real arithmetic. *)
Ltac rarith := solve [lra | intro; lra | nra | intro; nra].

Lemma sqrt_of_square (a b : R) : 0 <= b -> a = b * b -> sqrt a = b.
Proof. intros Hb ->. apply sqrt_square, Hb. Qed.

Lemma scene_wall_closest :
  SegmentM.closest_point_on_segment
    (mkSegment (Vector2D.mk (-10) 0) (Vector2D.mk 10 0) 2) (Vector2D.mk 0 3)
  = Ok (Vector2D.mk 0 0).
Proof.
  unfold SegmentM.closest_point_on_segment, Vector2D.magnitude_squared,
    Vector2D.dot. simpl.
  rewrite if_eqb_false by rarith. rewrite truediv_ok by rarith. simpl.
  replace (Rmax 0 (Rmin 1 _)) with (1 / 2).
  - unfold Vector2D.__add__, Vector2D.__mul__. simpl. f_equal. f_equal; lra.
  - match goal with
    | |- context [Rmin 1 ?q] => replace q with (1 / 2) by (field; rarith)
    end.
    rewrite Rmin_right by lra. rewrite Rmax_right by lra. reflexivity.
Qed.

Lemma copy_id (v : Vector2D.t) : Vector2D.copy v = v.
Proof. destruct v. reflexivity. Qed.

(** The constructors return the bodies the scenes are made of. *)
Lemma Circle_init_ok (p : Vector2D.t) (radius m : R) (st : bool) :
  st = true \/ m <> 0 ->
  Circle_init p radius (Py.Fin m) st = Ok (circle_body p radius m st).
Proof.
  intros H. unfold Circle_init, PhysicsBody_init, circle_body.
  rewrite copy_id. destruct st; simpl.
  - reflexivity.
  - destruct H as [H | H]; [discriminate |].
    rewrite truediv_ok by assumption. reflexivity.
Qed.

Lemma Segment_init_ok (a b : Vector2D.t) (th : R) (st : bool) :
  Segment_init a b th st = Ok (segment_body a b th st).
Proof.
  unfold Segment_init, PhysicsBody_init, segment_body, Vector2D.__truediv__.
  rewrite !truediv_ok by lra. simpl. rewrite !copy_id.
  destruct st; reflexivity.
Qed.

Lemma Ring_init_ok (c : Vector2D.t) (ri ro ga gs : R) (st : bool) :
  Ring_init c ri ro ga gs st = Ok (ring_body c ri ro ga gs st).
Proof.
  unfold Ring_init, PhysicsBody_init, ring_body. rewrite copy_id.
  destruct st; reflexivity.
Qed.

(** C2, on the circle above the wall: the circle-segment test stores the
    circle as body A and the segment as body B, and a normal that points
    from the wall to the circle, away from B: its product with the vector
    from A's centre to the contact point, and with the vector from A's
    position to B's, is negative. *)
Theorem circle_segment_normal_points_from_b_to_a :
  exists c : CollisionInfo,
    CollisionDetector._check_collision scene_wall 0 1 = Ok (Some c)
    /\ body_a c = 0%nat /\ body_b c = 1%nat
    /\ normal c = Vector2D.mk 0 1
    /\ contact_point c = Vector2D.mk 0 0
    /\ penetration c = 3
    /\ Vector2D.dot (normal c)
         (contact_point c -v position (scene_wall (body_a c))) < 0
    /\ Vector2D.dot (normal c)
         (position (scene_wall (body_b c))
          -v position (scene_wall (body_a c))) < 0.
Proof.
  assert (D : Vector2D.distance_to (Vector2D.mk 0 3) (Vector2D.mk 0 0) = 3).
  { unfold Vector2D.distance_to. simpl. apply sqrt_of_square; lra. }
  assert (N : Vector2D.normalized (Vector2D.mk 0 3 -v Vector2D.mk 0 0)
              = Ok (Vector2D.mk 0 1)).
  { pose proof (distance_to_magnitude (Vector2D.mk 0 3) (Vector2D.mk 0 0))
      as E. rewrite D in E.
    rewrite normalized_nonzero by (rewrite <- E; lra).
    unfold unit_of. rewrite <- E. simpl. f_equal. f_equal; lra. }
  eexists. split.
  - unfold CollisionDetector._check_collision,
      CollisionDetector._circle_segment_collision. simpl.
    rewrite scene_wall_closest. simpl. rewrite D.
    rewrite if_ltb_true by lra. unfold Py.gtb. rewrite if_ltb_true by lra.
    rewrite N. simpl. reflexivity.
  - simpl. unfold Vector2D.dot. simpl. repeat split; lra.
Qed.


(** ** Resolver *)

(** The contact of the two static circles. *)
Lemma scene_static_pair_contact :
  CollisionDetector._check_collision scene_static_pair 0 1
  = Ok (Some (mkCollisionInfo 0 1 (Vector2D.mk 5 0) (Vector2D.mk 1 0) 4
                              "circle-circle" [])).
Proof.
  assert (D : Vector2D.distance_to (Vector2D.mk 0 0) (Vector2D.mk 6 0) = 6).
  { unfold Vector2D.distance_to. simpl. apply sqrt_of_square; lra. }
  pose proof (distance_to_magnitude (Vector2D.mk 6 0) (Vector2D.mk 0 0)) as E.
  rewrite distance_to_sym, D in E.
  unfold CollisionDetector._check_collision,
    CollisionDetector._circle_circle_collision. simpl.
  rewrite D. unfold Py.gtb. rewrite !ltb_intro by lra. simpl.
  rewrite normalized_nonzero by (rewrite <- E; lra).
  unfold unit_of. rewrite <- E. simpl.
  unfold Vector2D.__add__, Vector2D.__mul__. simpl.
  do 2 f_equal. f_equal; try reflexivity; try (f_equal; lra); lra.
Qed.

Lemma resolve_position_both_static
    (r : CollisionResolver.t) (s : Store) (a b : nat) (n : Vector2D.t)
    (p : R) :
  static (s a) = true -> static (s b) = true ->
  CollisionResolver._resolve_position r a b n p s = Return tt s.
Proof.
  intros Ha Hb. unfold CollisionResolver._resolve_position, bind, get.
  rewrite Ha, Hb. rewrite leb_intro by lra. reflexivity.
Qed.

Lemma resolve_velocity_both_static
    (r : CollisionResolver.t) (s : Store) (a b : nat) (n : Vector2D.t)
    (c : CollisionInfo) :
  static (s a) = true -> static (s b) = true ->
  Vector2D.dot (velocity (s b) -v velocity (s a)) n <= 0 ->
  CollisionResolver._resolve_velocity r a b n c s
  = Raised ZeroDivisionError s.
Proof.
  intros Ha Hb Hv. unfold CollisionResolver._resolve_velocity, bind, get.
  unfold Py.gtb. rewrite ltb_elim by assumption.
  rewrite Ha, Hb. unfold lift. replace (0 + 0) with 0 by lra.
  rewrite truediv_zero. reflexivity.
Qed.

Lemma resolve_collision_both_static
    (r : CollisionResolver.t) (s : Store) (c : CollisionInfo) (dt : R) :
  static (s (body_a c)) = true -> static (s (body_b c)) = true ->
  Vector2D.dot (velocity (s (body_b c)) -v velocity (s (body_a c)))
               (normal c) <= 0 ->
  CollisionResolver.resolve_collision r c dt s = Raised ZeroDivisionError s.
Proof.
  intros Ha Hb Hv. unfold CollisionResolver.resolve_collision.
  unfold bind at 1.
  destruct (CollisionResolver.position_correction r && (penetration c >? 0)).
  - rewrite resolve_position_both_static by assumption.
    apply resolve_velocity_both_static; assumption.
  - unfold ret. apply resolve_velocity_both_static; assumption.
Qed.


(** ** Floors and cells *)

Lemma floor_spec (a : R) (z : Z) : IZR z <= a < IZR z + 1 -> Py.floor a = z.
Proof.
  intros H. unfold Py.floor. symmetry. apply Int_part_spec. lra.
Qed.

Lemma floor_bounds (a : R) : IZR (Py.floor a) <= a < IZR (Py.floor a) + 1.
Proof. unfold Py.floor. pose proof (base_Int_part a). lra. Qed.

Lemma floor_IZR (z : Z) : Py.floor (IZR z) = z.
Proof. apply floor_spec. lra. Qed.

Lemma floor_mono (a b : R) : a <= b -> (Py.floor a <= Py.floor b)%Z.
Proof.
  intros H. pose proof (floor_bounds a). pose proof (floor_bounds b).
  assert (IZR (Py.floor a) < IZR (Py.floor b + 1)).
  { rewrite plus_IZR. lra. }
  apply lt_IZR in H2. lia.
Qed.

Lemma int_IZR (z : Z) : Py.int (IZR z) = z.
Proof.
  unfold Py.int. destruct (0 <=? IZR z).
  - apply floor_IZR.
  - rewrite <- opp_IZR. change (Int_part (IZR (- z))) with (Py.floor (IZR (- z))).
    rewrite floor_IZR. lia.
Qed.

Lemma ceil_spec (a : R) (z : Z) : IZR z - 1 < a <= IZR z -> Py.ceil a = z.
Proof.
  intros H. unfold Py.ceil.
  change (Int_part (- a)) with (Py.floor (- a)).
  rewrite (floor_spec (- a) (- z)); [lia |]. rewrite opp_IZR. lra.
Qed.

Lemma clamp_mono (j k n : Z) : (j <= k)%Z -> (clamp j n <= clamp k n)%Z.
Proof. unfold clamp. lia. Qed.

Lemma get_cell_coords_ok (g : SpatialGrid.t) (x y : R) :
  SpatialGrid.cell_size g <> 0 ->
  SpatialGrid._get_cell_coords g x y
  = Ok (clamp (Py.floor (x / SpatialGrid.cell_size g)) (SpatialGrid.cols g),
        clamp (Py.floor (y / SpatialGrid.cell_size g)) (SpatialGrid.rows g)).
Proof.
  intros H. unfold SpatialGrid._get_cell_coords, Py.floordiv.
  rewrite eqb_elim by assumption. simpl. rewrite !int_IZR. reflexivity.
Qed.

(** The grid of a detector set up for a world of 1080 by 1920 with cells of
    100. *)
Lemma setup_grid_1080_1920 :
  CollisionDetector.setup_spatial_grid (CollisionDetector.init true 100)
                                       1080 1920
  = Ok (CollisionDetector.mk true
          (Some (SpatialGrid.mk 1080 1920 100 11 20 [])) 100 0 0).
Proof.
  unfold CollisionDetector.setup_spatial_grid, SpatialGrid.init. simpl.
  rewrite !truediv_ok by lra. simpl.
  rewrite (ceil_spec (1080 / 100) 11) by lra.
  rewrite (ceil_spec (1920 / 100) 20) by lra. reflexivity.
Qed.

Lemma detect_static_pair :
  exists d : CollisionDetector.t,
    CollisionDetector.detect_collisions
      (CollisionDetector.mk true
         (Some (SpatialGrid.mk 1080 1920 100 11 20 [])) 100 0 0)
      scene_static_pair [0; 1]%nat
    = Ok ([mkCollisionInfo 0 1 (Vector2D.mk 5 0) (Vector2D.mk 1 0) 4
                           "circle-circle" []], d).
Proof.
  eexists. unfold CollisionDetector.detect_collisions. simpl.
  unfold SpatialGrid.insert, SpatialGrid._get_cells_for_body. simpl.
  rewrite !get_cell_coords_ok by (simpl; lra). simpl.
  rewrite !(floor_spec ((0 - 5) / 100) (-1)) by lra.
  rewrite !(floor_spec ((0 + 5) / 100) 0) by lra. cbn.
  rewrite !get_cell_coords_ok by (simpl; lra). simpl.
  rewrite !(floor_spec ((6 - 5) / 100) 0) by lra.
  rewrite !(floor_spec ((0 - 5) / 100) (-1)) by lra.
  rewrite !(floor_spec ((6 + 5) / 100) 0) by lra.
  rewrite !(floor_spec ((0 + 5) / 100) 0) by lra. cbn.
  repeat match goal with
         | |- context [fold_left ?f ?l ?i] =>
             let v := eval vm_compute in (fold_left f l i) in
             change (fold_left f l i) with v
         end.
  cbn -[CollisionDetector._check_collision].
  rewrite scene_static_pair_contact. cbn. reflexivity.
Qed.

(** C3, on two static circles that overlap: the detector that uses the
    grid hands their contact to the resolver, and resolving it divides the
    impulse by the sum 0 + 0 of the inverse masses: the call raises
    [ZeroDivisionError]. *)
Theorem resolver_divides_by_zero_on_static_pair :
  exists (d d' : CollisionDetector.t) (c : CollisionInfo),
    CollisionDetector.setup_spatial_grid (CollisionDetector.init true 100)
                                         1080 1920 = Ok d
    /\ CollisionDetector.detect_collisions d scene_static_pair [0; 1]%nat
       = Ok ([c], d')
    /\ static (scene_static_pair (body_a c)) = true
    /\ static (scene_static_pair (body_b c)) = true
    /\ forall dt : R,
         CollisionResolver.resolve_collision CollisionResolver.init c dt
                                             scene_static_pair
         = Raised ZeroDivisionError scene_static_pair.
Proof.
  destruct detect_static_pair as [d' Hd].
  eexists. exists d'. eexists. split; [apply setup_grid_1080_1920 |].
  split; [exact Hd |]. split; [reflexivity |]. split; [reflexivity |].
  intros dt. apply resolve_collision_both_static; try reflexivity.
  unfold Vector2D.dot. simpl. lra.
Qed.

Lemma scene_static_pair_constructed :
  Circle_init (Vector2D.mk 0 0) 5 (Py.Fin 1) true
  = Ok (scene_static_pair 0%nat)
  /\ Circle_init (Vector2D.mk 6 0) 5 (Py.Fin 1) true
     = Ok (scene_static_pair 1%nat).
Proof. split; apply Circle_init_ok; left; reflexivity. Qed.

Lemma scene_wall_constructed :
  Circle_init (Vector2D.mk 0 3) 5 (Py.Fin 1) false = Ok (scene_wall 0%nat)
  /\ Segment_init (Vector2D.mk (-10) 0) (Vector2D.mk 10 0) 2 true
     = Ok (scene_wall 1%nat).
Proof.
  split.
  - apply Circle_init_ok. right. lra.
  - rewrite Segment_init_ok. reflexivity.
Qed.


(** ** Stores and invariants of computations *)

Lemma upd_eq (s : Store) (i : nat) (b : PhysicsBody) : upd s i b i = b.
Proof. unfold upd. rewrite Nat.eqb_refl. reflexivity. Qed.

Lemma upd_neq (s : Store) (i j : nat) (b : PhysicsBody) :
  j <> i -> upd s i b j = s j.
Proof.
  intros H. unfold upd. destruct (Nat.eqb j i) eqn:E; [| reflexivity].
  apply Nat.eqb_eq in E. contradiction.
Qed.

Section Invariants.

(** A relation between the store before and the store after, kept by
    each step of a computation, is kept by the computation. *)
Variable Rel : Store -> Store -> Prop.
Hypothesis Rel_refl : forall s, Rel s s.
Hypothesis Rel_trans : forall s1 s2 s3, Rel s1 s2 -> Rel s2 s3 -> Rel s1 s3.

Lemma rel_bind {A B} (m : M A) (k : A -> M B) (s : Store) :
  Rel s (final (m s)) ->
  (forall a s1, m s = Return a s1 -> Rel s1 (final (k a s1))) ->
  Rel s (final (bind m k s)).
Proof.
  intros Hm Hk. unfold bind. destruct (m s) as [a s1 | e s1] eqn:E.
  - simpl in Hm. apply Rel_trans with s1; [exact Hm |]. apply Hk.
    reflexivity.
  - exact Hm.
Qed.

Lemma rel_ret {A} (a : A) (s : Store) : Rel s (final (ret a s)).
Proof. apply Rel_refl. Qed.

Lemma rel_lift {A} (r : result A) (s : Store) : Rel s (final (lift r s)).
Proof. unfold lift. destruct r; apply Rel_refl. Qed.

Lemma rel_get (id : nat) (s : Store) : Rel s (final (get id s)).
Proof. apply Rel_refl. Qed.

Lemma rel_for_each {A} (l : list A) (f : A -> M unit) :
  (forall a s, Rel s (final (f a s))) ->
  forall s, Rel s (final (for_each l f s)).
Proof.
  intros Hf. induction l as [| a l IH]; intros s; simpl.
  - apply Rel_refl.
  - apply rel_bind; [apply Hf |]. intros _ s1 _. apply IH.
Qed.

(** The same for a loop whose body relies on a property [P] of the store
    that it keeps. *)
Lemma rel_for_each_with {A} (P : Store -> Prop) (l : list A)
    (f : A -> M unit) :
  (forall a s, P s -> Rel s (final (f a s)) /\ P (final (f a s))) ->
  forall s, P s ->
    Rel s (final (for_each l f s)) /\ P (final (for_each l f s)).
Proof.
  intros Hf. induction l as [| a l IH]; intros s Hs; simpl.
  - split; [apply Rel_refl | exact Hs].
  - destruct (Hf a s Hs) as [R1 P1]. unfold bind.
    destruct (f a s) as [u s1 | e s1]; simpl in *.
    + destruct (IH s1 P1) as [R2 P2]. split; [| exact P2].
      apply Rel_trans with s1; assumption.
    + split; assumption.
Qed.

End Invariants.

Lemma get_returns (id : nat) (s : Store) (a : PhysicsBody) (s1 : Store) :
  get id s = Return a s1 -> a = s id /\ s1 = s.
Proof. unfold get. intros H. injection H as <- <-. split; reflexivity. Qed.

Lemma lift_returns {A} (r : result A) (s : Store) (a : A) (s1 : Store) :
  lift r s = Return a s1 -> r = Ok a /\ s1 = s.
Proof.
  unfold lift. destruct r; intros H; [| discriminate].
  injection H as <- <-. split; reflexivity.
Qed.

Lemma modify_returns (id : nat) (f : PhysicsBody -> PhysicsBody)
    (s : Store) (u : unit) (s1 : Store) :
  modify id f s = Return u s1 -> s1 = upd s id (f (s id)).
Proof. unfold modify. intros H. injection H as _ <-. reflexivity. Qed.

(** ** Static bodies *)

Lemma frozen_refl (s : Store) : frozen s s.
Proof. intros i. split; [reflexivity | intros _; reflexivity]. Qed.

Lemma frozen_trans (s1 s2 s3 : Store) :
  frozen s1 s2 -> frozen s2 s3 -> frozen s1 s3.
Proof.
  intros H12 H23 i. destruct (H12 i) as [A1 B1]. destruct (H23 i) as [A2 B2].
  split.
  - congruence.
  - intros H. rewrite B2 by congruence. apply B1, H.
Qed.

Lemma frozen_modify (id : nat) (f : PhysicsBody -> PhysicsBody) (s : Store) :
  static (s id) = false ->
  (forall o, static (f o) = static o) ->
  frozen s (final (modify id f s)).
Proof.
  intros Hs Hf i. simpl. destruct (Nat.eq_dec i id) as [-> | Hn].
  - rewrite upd_eq. split; [apply Hf | congruence].
  - rewrite upd_neq by assumption. split; reflexivity.
Qed.

(** A write that is guarded by [if not body.static]. *)
Lemma frozen_guarded (id : nat) (b : PhysicsBody)
    (f : PhysicsBody -> PhysicsBody) (s : Store) :
  static b = static (s id) ->
  (forall o, static (f o) = static o) ->
  frozen s (final ((if negb (static b) then modify id f else ret tt) s)).
Proof.
  intros Hb Hf. destruct (static b) eqn:E; simpl.
  - apply frozen_refl.
  - apply frozen_modify; [congruence | exact Hf].
Qed.

(** One step of a proof that a computation keeps [frozen]: the first
    command of a sequence is set apart, and what it returned is recorded. *)
Ltac frozen_seq :=
  lazymatch goal with
  | |- frozen ?s (final (bind (get ?id) ?k ?s)) =>
      apply (rel_bind frozen frozen_trans);
      [ apply frozen_refl
      | let a := fresh "o" in
        let s1 := fresh "s" in
        let H := fresh "H" in
        intros a s1 H; apply get_returns in H; destruct H as [-> ->] ]
  | |- frozen ?s (final (bind (lift ?r) ?k ?s)) =>
      apply (rel_bind frozen frozen_trans);
      [ apply (rel_lift frozen frozen_refl)
      | let a := fresh "v" in
        let s1 := fresh "s" in
        let H := fresh "H" in
        intros a s1 H; apply lift_returns in H; destruct H as [H ->] ]
  | |- frozen ?s (final (bind ?m ?k ?s)) =>
      let F := fresh "F" in
      assert (F : frozen s (final (m s)));
      [ | apply (rel_bind frozen frozen_trans);
          [ exact F
          | let a := fresh "u" in
            let s1 := fresh "s" in
            let H := fresh "H" in
            intros a s1 H; rewrite H in F; simpl in F ] ]
  end.

Lemma static_of_frozen (s s' : Store) (i : nat) :
  frozen s s' -> static (s' i) = static (s i).
Proof. intros H. apply H. Qed.

Lemma add_impulse_frozen (self : nat) (impulse : Vector2D.t) (s : Store) :
  frozen s (final (add_impulse self impulse s)).
Proof.
  unfold add_impulse. frozen_seq.
  apply frozen_guarded; reflexivity.
Qed.

Lemma resolve_position_frozen (r : CollisionResolver.t) (a b : nat)
    (n : Vector2D.t) (p : R) (s : Store) :
  frozen s (final (CollisionResolver._resolve_position r a b n p s)).
Proof.
  unfold CollisionResolver._resolve_position. do 2 frozen_seq.
  match goal with |- context [if ?c then _ else _] => destruct c end.
  - apply frozen_refl.
  - frozen_seq. frozen_seq.
    + apply frozen_guarded; reflexivity.
    + apply frozen_guarded; [| reflexivity].
      symmetry. apply static_of_frozen, F.
Qed.

Lemma apply_friction_frozen (r : CollisionResolver.t) (a b : nat)
    (n : Vector2D.t) (j : R) (s : Store) :
  frozen s (final (CollisionResolver._apply_friction r a b n j s)).
Proof.
  unfold CollisionResolver._apply_friction. do 2 frozen_seq.
  match goal with |- context [if ?c then _ else _] => destruct c end.
  - apply frozen_refl.
  - do 3 frozen_seq.
    + apply frozen_guarded; reflexivity.
    + apply frozen_guarded; [| reflexivity].
      symmetry. apply static_of_frozen, F.
Qed.

Lemma resolve_velocity_frozen (r : CollisionResolver.t) (a b : nat)
    (n : Vector2D.t) (c : CollisionInfo) (s : Store) :
  frozen s (final (CollisionResolver._resolve_velocity r a b n c s)).
Proof.
  unfold CollisionResolver._resolve_velocity. do 2 frozen_seq.
  match goal with |- context [if ?c then _ else _] => destruct c end.
  - apply frozen_refl.
  - do 2 frozen_seq.
    + apply frozen_guarded; reflexivity.
    + frozen_seq.
      * apply frozen_guarded; [| reflexivity].
        symmetry. apply static_of_frozen, F.
      * apply apply_friction_frozen.
Qed.

Lemma resolve_collision_frozen (r : CollisionResolver.t)
    (c : CollisionInfo) (dt : R) (s : Store) :
  frozen s (final (CollisionResolver.resolve_collision r c dt s)).
Proof.
  unfold CollisionResolver.resolve_collision. frozen_seq.
  - match goal with |- context [if ?c then _ else _] => destruct c end.
    + apply resolve_position_frozen.
    + apply frozen_refl.
  - apply resolve_velocity_frozen.
Qed.

Lemma resolve_collisions_frozen (r : CollisionResolver.t)
    (cs : list CollisionInfo) (dt : R) (s : Store) :
  frozen s (final (CollisionResolver.resolve_collisions r cs dt s)).
Proof.
  unfold CollisionResolver.resolve_collisions.
  apply (rel_for_each frozen frozen_refl frozen_trans).
  intros c s'. apply resolve_collision_frozen.
Qed.

(** The engine. *)

Lemma frozen_write (id : nat) (f : PhysicsBody -> PhysicsBody) (s : Store) :
  static (s id) = false ->
  (forall o, static (f o) = static o) ->
  frozen s (final (modify id f s))
  /\ static (final (modify id f s) id) = false.
Proof.
  intros Hs Hf. split; [apply frozen_modify; assumption |].
  simpl. rewrite upd_eq, Hf. exact Hs.
Qed.

Lemma apply_forces_body_frozen (e : PhysicsEngine.t) (id : nat) (s : Store) :
  frozen s (final (PhysicsEngine._apply_forces_body e id s)).
Proof.
  unfold PhysicsEngine._apply_forces_body. frozen_seq.
  destruct (static (s id)) eqn:E; simpl; [apply frozen_refl |].
  frozen_seq; [apply frozen_modify; [exact E | reflexivity] |].
  assert (E0 : static (s0 id) = false)
    by (rewrite (static_of_frozen _ _ id F); exact E).
  clear F H. frozen_seq.
  { match goal with |- context [if ?c then _ else _] => destruct c end.
    - do 2 frozen_seq. apply frozen_modify; [exact E0 | reflexivity].
    - apply frozen_refl. }
  assert (E1 : static (s1 id) = false)
    by (rewrite (static_of_frozen _ _ id F); exact E0).
  clear F H. frozen_seq.
  { apply (rel_for_each_with frozen frozen_refl frozen_trans
             (fun s' => static (s' id) = false)); [| exact E1].
    intros force s' E'. unfold bind, lift.
    destruct (Vector2D.truediv_x force (mass (s id))).
    - apply frozen_write; [exact E' | reflexivity].
    - split; [apply frozen_refl | exact E']. }
  apply frozen_modify; [| reflexivity].
  rewrite (static_of_frozen _ _ id F). exact E1.
Qed.

Lemma integrate_body_frozen (e : PhysicsEngine.t) (dt : R) (id : nat)
    (s : Store) :
  frozen s (final (PhysicsEngine._integrate_body e dt id s)).
Proof.
  unfold PhysicsEngine._integrate_body. frozen_seq.
  destruct (static (s id)) eqn:E; simpl; [apply frozen_refl |].
  frozen_seq; [apply frozen_modify; [exact E | reflexivity] |].
  assert (E0 : static (s0 id) = false)
    by (rewrite (static_of_frozen _ _ id F); exact E).
  clear F H. frozen_seq; [apply frozen_modify; [exact E0 | reflexivity] |].
  assert (E1 : static (s1 id) = false)
    by (rewrite (static_of_frozen _ _ id F); exact E0).
  clear F H. frozen_seq. frozen_seq.
  { match goal with |- context [if ?c then _ else _] => destruct c end.
    - frozen_seq. apply frozen_modify; [exact E1 | reflexivity].
    - apply frozen_refl. }
  apply frozen_modify; [| reflexivity].
  rewrite (static_of_frozen _ _ id F). exact E1.
Qed.

Lemma resolve_pair_frozen (e : PhysicsEngine.t)
    (p : nat * nat * EngineContact) (s : Store) :
  frozen s (final (PhysicsEngine._resolve_pair e p s)).
Proof.
  destruct p as [[a b] info]. unfold PhysicsEngine._resolve_pair.
  do 2 frozen_seq. frozen_seq; [apply frozen_guarded; reflexivity |].
  frozen_seq.
  { apply frozen_guarded; [| reflexivity].
    symmetry. apply static_of_frozen, F. }
  clear F F0 H H0. do 2 frozen_seq.
  match goal with |- context [if ?c then _ else _] => destruct c end.
  - apply frozen_refl.
  - do 3 frozen_seq. frozen_seq.
    + apply frozen_guarded; reflexivity.
    + apply frozen_guarded; [| reflexivity].
      symmetry. apply static_of_frozen, F.
Qed.

Lemma step_frozen (e : PhysicsEngine.t) (dt : option R) (s : Store) :
  frozen s (final (PhysicsEngine.step e dt s)).
Proof.
  unfold PhysicsEngine.step. destruct (PhysicsEngine.paused e).
  - apply frozen_refl.
  - frozen_seq.
    { apply (rel_for_each frozen frozen_refl frozen_trans).
      intros id s'. apply apply_forces_body_frozen. }
    frozen_seq.
    { apply (rel_for_each frozen frozen_refl frozen_trans).
      intros id s'. apply integrate_body_frozen. }
    frozen_seq.
    { unfold PhysicsEngine._detect_collisions.
      apply (rel_lift frozen frozen_refl). }
    frozen_seq.
    { apply (rel_for_each frozen frozen_refl frozen_trans).
      intros p s'. apply resolve_pair_frozen. }
    apply frozen_refl.
Qed.

Lemma steps_frozen (s s' : Store) : steps s s' -> frozen s s'.
Proof.
  induction 1 as [s | s s' e dt _ IH].
  - apply frozen_refl.
  - apply frozen_trans with s'; [exact IH | apply step_frozen].
Qed.

(** C4: a body whose static flag is set keeps its position and its
    velocity (and its flag) through any number of calls of [step], through
    the resolver's treatment of any list of contacts (positional
    correction, impulse and friction) and through [add_impulse]. *)
Theorem static_body_never_moves :
  (forall (s s' : Store) (i : nat),
     steps s s' -> static (s i) = true ->
     static (s' i) = true
     /\ position (s' i) = position (s i)
     /\ velocity (s' i) = velocity (s i))
  /\ (forall (r : CollisionResolver.t) (cs : list CollisionInfo) (dt : R)
             (s : Store) (i : nat),
        static (s i) = true ->
        let s' := final (CollisionResolver.resolve_collisions r cs dt s) in
        static (s' i) = true
        /\ position (s' i) = position (s i)
        /\ velocity (s' i) = velocity (s i))
  /\ (forall (self : nat) (impulse : Vector2D.t) (s : Store) (i : nat),
        static (s i) = true ->
        let s' := final (add_impulse self impulse s) in
        static (s' i) = true
        /\ position (s' i) = position (s i)
        /\ velocity (s' i) = velocity (s i)).
Proof.
  assert (K : forall s s' i, frozen s s' -> static (s i) = true ->
              static (s' i) = true /\ position (s' i) = position (s i)
              /\ velocity (s' i) = velocity (s i)).
  { intros s s' i F H. destruct (F i) as [_ E]. rewrite (E H).
    repeat split. exact H. }
  split; [| split].
  - intros s s' i Hs. apply K, steps_frozen, Hs.
  - intros r cs dt s i. apply K, resolve_collisions_frozen.
  - intros self impulse s i. apply K, add_impulse_frozen.
Qed.



(** ** Bodies of infinite mass *)

Lemma inert_refl (s : Store) : inert s s.
Proof. intros i. repeat split. Qed.

Lemma inert_trans (s1 s2 s3 : Store) :
  inert s1 s2 -> inert s2 s3 -> inert s1 s3.
Proof.
  intros H12 H23 i.
  destruct (H12 i) as (A1 & B1 & C1). destruct (H23 i) as (A2 & B2 & C2).
  repeat split; try congruence.
  intros H. rewrite C2 by congruence. apply C1, H.
Qed.

Lemma inert_modify (id : nat) (f : PhysicsBody -> PhysicsBody) (s : Store) :
  inv_mass (f (s id)) = inv_mass (s id) ->
  static (f (s id)) = static (s id) ->
  (inv_mass (s id) = 0 -> velocity (f (s id)) = velocity (s id)) ->
  inert s (final (modify id f s)).
Proof.
  intros Hm Hs Hv i. simpl. destruct (Nat.eq_dec i id) as [-> | Hn].
  - rewrite upd_eq. repeat split; assumption.
  - rewrite upd_neq by assumption. repeat split.
Qed.

Lemma vec_sub_scaled_zero (v w : Vector2D.t) : v -v w *v 0 = v.
Proof.
  destruct v, w. unfold Vector2D.__sub__, Vector2D.__mul__. simpl.
  f_equal; ring.
Qed.

Lemma vec_add_scaled_zero (v w : Vector2D.t) : v +v w *v 0 = v.
Proof.
  destruct v, w. unfold Vector2D.__add__, Vector2D.__mul__. simpl.
  f_equal; ring.
Qed.

(** The two impulse writes of the resolver, weighted by the inverse mass
    the resolver computed for the body. *)
Lemma inert_impulse_sub (id : nat) (b : PhysicsBody) (imp : Vector2D.t)
    (s : Store) :
  static b = static (s id) -> inv_mass b = inv_mass (s id) ->
  inert s (final ((if negb (static b) then
                     modify id (fun o =>
                       set_velocity o
                         (velocity o
                          -v imp *v (if static b then 0 else inv_mass b)))
                   else ret tt) s)).
Proof.
  intros Hs Hm. destruct (static b) eqn:E; simpl negb; cbv iota.
  - apply inert_refl.
  - apply inert_modify; try reflexivity.
    intros H. simpl. rewrite Hm, H. apply vec_sub_scaled_zero.
Qed.

Lemma inert_impulse_add (id : nat) (b : PhysicsBody) (imp : Vector2D.t)
    (s : Store) :
  static b = static (s id) -> inv_mass b = inv_mass (s id) ->
  inert s (final ((if negb (static b) then
                     modify id (fun o =>
                       set_velocity o
                         (velocity o
                          +v imp *v (if static b then 0 else inv_mass b)))
                   else ret tt) s)).
Proof.
  intros Hs Hm. destruct (static b) eqn:E; simpl negb; cbv iota.
  - apply inert_refl.
  - apply inert_modify; try reflexivity.
    intros H. simpl. rewrite Hm, H. apply vec_add_scaled_zero.
Qed.

Lemma inert_move (id : nat) (b : PhysicsBody)
    (f : PhysicsBody -> Vector2D.t) (s : Store) :
  inert s (final ((if negb (static b) then
                     modify id (fun o => set_position o (f o))
                   else ret tt) s)).
Proof.
  destruct (static b); simpl negb; cbv iota.
  - apply inert_refl.
  - apply inert_modify; reflexivity.
Qed.

Ltac inert_seq :=
  lazymatch goal with
  | |- inert ?s (final (bind (get ?id) ?k ?s)) =>
      apply (rel_bind inert inert_trans);
      [ apply inert_refl
      | let a := fresh "o" in
        let s1 := fresh "s" in
        let H := fresh "H" in
        intros a s1 H; apply get_returns in H; destruct H as [-> ->] ]
  | |- inert ?s (final (bind (lift ?r) ?k ?s)) =>
      apply (rel_bind inert inert_trans);
      [ apply (rel_lift inert inert_refl)
      | let a := fresh "v" in
        let s1 := fresh "s" in
        let H := fresh "H" in
        intros a s1 H; apply lift_returns in H; destruct H as [H ->] ]
  | |- inert ?s (final (bind ?m ?k ?s)) =>
      let F := fresh "F" in
      assert (F : inert s (final (m s)));
      [ | apply (rel_bind inert inert_trans);
          [ exact F
          | let a := fresh "u" in
            let s1 := fresh "s" in
            let H := fresh "H" in
            intros a s1 H; rewrite H in F; simpl in F ] ]
  end.

Lemma add_impulse_inert (self : nat) (impulse : Vector2D.t) (s : Store) :
  inert s (final (add_impulse self impulse s)).
Proof.
  unfold add_impulse. inert_seq.
  destruct (static (s self)); simpl negb; cbv iota.
  - apply inert_refl.
  - apply inert_modify; try reflexivity.
    intros H. simpl. rewrite H. apply vec_add_scaled_zero.
Qed.

Lemma resolve_position_inert (r : CollisionResolver.t) (a b : nat)
    (n : Vector2D.t) (p : R) (s : Store) :
  inert s (final (CollisionResolver._resolve_position r a b n p s)).
Proof.
  unfold CollisionResolver._resolve_position. do 2 inert_seq.
  match goal with |- context [if ?c then _ else _] => destruct c end.
  - apply inert_refl.
  - inert_seq. inert_seq; apply inert_move.
Qed.

Lemma apply_friction_inert (r : CollisionResolver.t) (a b : nat)
    (n : Vector2D.t) (j : R) (s : Store) :
  inert s (final (CollisionResolver._apply_friction r a b n j s)).
Proof.
  unfold CollisionResolver._apply_friction. do 2 inert_seq.
  match goal with |- context [if ?c then _ else _] => destruct c end.
  - apply inert_refl.
  - do 3 inert_seq.
    + apply inert_impulse_sub; reflexivity.
    + destruct (F b) as (Fm & Fs & _).
      apply inert_impulse_add; symmetry; assumption.
Qed.

Lemma resolve_velocity_inert (r : CollisionResolver.t) (a b : nat)
    (n : Vector2D.t) (c : CollisionInfo) (s : Store) :
  inert s (final (CollisionResolver._resolve_velocity r a b n c s)).
Proof.
  unfold CollisionResolver._resolve_velocity. do 2 inert_seq.
  match goal with |- context [if ?c then _ else _] => destruct c end.
  - apply inert_refl.
  - do 2 inert_seq.
    + apply inert_impulse_sub; reflexivity.
    + inert_seq.
      * destruct (F b) as (Fm & Fs & _).
        apply inert_impulse_add; symmetry; assumption.
      * apply apply_friction_inert.
Qed.

Lemma resolve_collisions_inert (r : CollisionResolver.t)
    (cs : list CollisionInfo) (dt : R) (s : Store) :
  inert s (final (CollisionResolver.resolve_collisions r cs dt s)).
Proof.
  unfold CollisionResolver.resolve_collisions.
  apply (rel_for_each inert inert_refl inert_trans).
  intros c s'. unfold CollisionResolver.resolve_collision. inert_seq.
  - match goal with |- context [if ?c then _ else _] => destruct c end.
    + apply resolve_position_inert.
    + apply inert_refl.
  - apply resolve_velocity_inert.
Qed.

(** C10: the constructors of segments and rings return, whatever the static
    flag, a body of infinite mass and inverse mass 0; and a body of inverse
    mass 0, static or not, keeps its velocity through [add_impulse] and
    through the resolver's treatment of any list of contacts. *)
Theorem walls_have_zero_inverse_mass :
  (forall (start end_ : Vector2D.t) (thickness : R) (flag : bool),
     exists b : PhysicsBody,
       Segment_init start end_ thickness flag = Ok b
       /\ mass b = Py.Inf /\ inv_mass b = 0 /\ static b = flag)
  /\ (forall (center : Vector2D.t) (inner outer angle first : R)
            (flag : bool),
        exists b : PhysicsBody,
          Ring_init center inner outer angle first flag = Ok b
          /\ mass b = Py.Inf /\ inv_mass b = 0 /\ static b = flag)
  /\ (forall (s : Store) (self : nat) (impulse : Vector2D.t) (i : nat),
        inv_mass (s i) = 0 ->
        velocity (final (add_impulse self impulse s) i) = velocity (s i))
  /\ (forall (r : CollisionResolver.t) (cs : list CollisionInfo) (dt : R)
            (s : Store) (i : nat),
        inv_mass (s i) = 0 ->
        velocity (final (CollisionResolver.resolve_collisions r cs dt s) i)
        = velocity (s i)).
Proof.
  split; [| split; [| split]].
  - intros a b th st. eexists. split; [apply Segment_init_ok |].
    repeat split.
  - intros c ri ro ga gs st. eexists. split; [apply Ring_init_ok |].
    repeat split.
  - intros s self impulse i H. apply (add_impulse_inert self impulse s i), H.
  - intros r cs dt s i H. apply (resolve_collisions_inert r cs dt s i), H.
Qed.


(** ** The elastic head-on collision *)

Lemma vec_eq (u v : Vector2D.t) :
  Vector2D.x u = Vector2D.x v -> Vector2D.y u = Vector2D.y v -> u = v.
Proof. destruct u, v. simpl. intros -> ->. reflexivity. Qed.

Lemma set_position_same (b : PhysicsBody) : set_position b (position b) = b.
Proof. destruct b. reflexivity. Qed.

Lemma moved_refl (s : Store) : moved s s.
Proof. intros i. exists (position (s i)). symmetry. apply set_position_same. Qed.

Lemma moved_upd (s s' : Store) (id : nat) (q : Vector2D.t) :
  moved s s' -> moved s (upd s' id (set_position (s' id) q)).
Proof.
  intros H i. destruct (Nat.eq_dec i id) as [-> | Hn].
  - rewrite upd_eq. destruct (H id) as [q' ->]. exists q. reflexivity.
  - rewrite upd_neq by assumption. apply H.
Qed.

Lemma resolve_position_moves (r : CollisionResolver.t) (a b : nat)
    (n : Vector2D.t) (p : R) (s : Store) :
  exists s', CollisionResolver._resolve_position r a b n p s = Return tt s'
             /\ moved s s'.
Proof.
  unfold CollisionResolver._resolve_position, bind, get.
  set (ia := if static (s a) then 0 else inv_mass (s a)).
  set (ib := if static (s b) then 0 else inv_mass (s b)).
  destruct (ia + ib <=? 0) eqn:E.
  - exists s. split; [reflexivity | apply moved_refl].
  - apply leb_false in E. rewrite truediv_ok by lra. unfold lift.
    destruct (static (s a)), (static (s b)); simpl; unfold modify, ret;
      eexists; (split; [reflexivity |]);
      repeat apply moved_upd; apply moved_refl.
Qed.

(** Friction on a contact without tangential velocity returns and leaves
    every velocity as it is. *)
Lemma apply_friction_no_tangent (r : CollisionResolver.t) (a b : nat)
    (n : Vector2D.t) (j : R) (s : Store) :
  a <> b ->
  0 <= friction (s a) * friction (s b) ->
  (velocity (s b) -v velocity (s a))
  -v n *v Vector2D.dot (velocity (s b) -v velocity (s a)) n
  = Vector2D.mk 0 0 ->
  exists s', CollisionResolver._apply_friction r a b n j s = Return tt s'
             /\ forall i, velocity (s' i) = velocity (s i).
Proof.
  intros Hab Hf Ht. unfold CollisionResolver._apply_friction, bind, get.
  rewrite Ht.
  assert (Z0 : Vector2D.magnitude (Vector2D.mk 0 0) = 0)
    by (apply magnitude_zero; reflexivity).
  rewrite Z0.
  destruct (0 <? CollisionResolver.velocity_threshold r).
  - exists s. split; reflexivity.
  - rewrite (normalized_zero_mag _ Z0). unfold lift at 1.
    unfold Py.sqrt. rewrite ltb_elim by assumption. unfold lift at 1.
    set (fi := if _ <? _ then _ else _).
    assert (Hfi : fi = Vector2D.mk 0 0).
    { unfold fi. destruct (_ <? _); unfold Vector2D.__mul__; simpl;
        f_equal; ring. }
    rewrite Hfi.
    assert (Z1 : forall v k, v -v Vector2D.mk 0 0 *v k = v).
    { intros v k. apply vec_eq; simpl; ring. }
    assert (Z2 : forall v k, v +v Vector2D.mk 0 0 *v k = v).
    { intros v k. apply vec_eq; simpl; ring. }
    assert (V : forall o, set_velocity o (velocity o) = o)
      by (intros o; destruct o; reflexivity).
    destruct (static (s a)), (static (s b)); simpl; unfold modify, ret;
      eexists; (split; [reflexivity |]); intros i;
      rewrite ?Z1, ?Z2, ?V; unfold upd;
      repeat match goal with
             | |- context [Nat.eqb ?u ?v] =>
                 destruct (Nat.eqb_spec u v); subst
             end; rewrite ?Z1, ?Z2, ?V; try reflexivity; try contradiction.
Qed.

Lemma resolve_velocity_exchange (r : CollisionResolver.t) (a b : nat)
    (n : Vector2D.t) (c : CollisionInfo) (m : R) (s : Store) :
  a <> b ->
  static (s a) = false -> static (s b) = false ->
  m <> 0 -> inv_mass (s a) = 1 / m -> inv_mass (s b) = 1 / m ->
  restitution (s a) = 1 -> restitution (s b) = 1 ->
  friction (s a) = 0 -> friction (s b) = 0 ->
  velocity (s b) -v velocity (s a)
  = n *v Vector2D.dot (velocity (s b) -v velocity (s a)) n ->
  Vector2D.dot (velocity (s b) -v velocity (s a)) n < 0 ->
  exists s', CollisionResolver._resolve_velocity r a b n c s = Return tt s'
             /\ velocity (s' a) = velocity (s b)
             /\ velocity (s' b) = velocity (s a).
Proof.
  intros Hab Hsa Hsb Hm Hia Hib Hra Hrb Hfa Hfb Hpar Hclose.
  unfold CollisionResolver._resolve_velocity, bind, get.
  set (van := Vector2D.dot (velocity (s b) -v velocity (s a)) n) in *.
  unfold Py.gtb. rewrite ltb_elim by lra.
  rewrite Hsa, Hsb, Hia, Hib, Hra, Hrb. rewrite Rmin_left by lra.
  assert (Him : 1 / m <> 0).
  { unfold Rdiv. rewrite Rmult_1_l. apply Rinv_neq_0_compat, Hm. }
  assert (Hsum : 1 / m + 1 / m <> 0) by (intros H; apply Him; lra).
  rewrite truediv_ok by exact Hsum. unfold lift.
  set (J := - (1 + 1) * van / (1 / m + 1 / m)).
  assert (HJ : J * (1 / m) = - van).
  { unfold J. field. first [exact Hm | split; [exact Hm | lra]]. }
  unfold modify at 1 2. change (negb false) with true. cbv beta iota.
  set (s2 := upd s a _). set (s3 := upd s2 b _).
  (** the velocities after the two impulses *)
  assert (Px : Vector2D.x (velocity (s b)) - Vector2D.x (velocity (s a))
               = Vector2D.x n * van)
    by (apply (f_equal Vector2D.x) in Hpar; exact Hpar).
  assert (Py : Vector2D.y (velocity (s b)) - Vector2D.y (velocity (s a))
               = Vector2D.y n * van)
    by (apply (f_equal Vector2D.y) in Hpar; exact Hpar).
  assert (Va : velocity (s3 a) = velocity (s b)).
  { unfold s3. rewrite upd_neq by exact Hab. unfold s2. rewrite upd_eq.
    simpl. apply vec_eq; simpl.
    - replace (Vector2D.x n * J * (1 / m))
        with (Vector2D.x n * (J * (1 / m))) by ring. rewrite HJ. lra.
    - replace (Vector2D.y n * J * (1 / m))
        with (Vector2D.y n * (J * (1 / m))) by ring. rewrite HJ. lra. }
  assert (Vb : velocity (s3 b) = velocity (s a)).
  { unfold s3. rewrite upd_eq. simpl. unfold s2.
    rewrite upd_neq by (intros E; apply Hab; symmetry; exact E).
    apply vec_eq; simpl.
    - replace (Vector2D.x n * J * (1 / m))
        with (Vector2D.x n * (J * (1 / m))) by ring. rewrite HJ. lra.
    - replace (Vector2D.y n * J * (1 / m))
        with (Vector2D.y n * (J * (1 / m))) by ring. rewrite HJ. lra. }
  assert (Fa : friction (s3 a) = 0).
  { unfold s3. rewrite upd_neq by exact Hab. unfold s2. rewrite upd_eq.
    exact Hfa. }
  assert (Fb : friction (s3 b) = 0).
  { unfold s3. rewrite upd_eq. simpl. unfold s2.
    rewrite upd_neq by (intros E; apply Hab; symmetry; exact E). exact Hfb. }
  destruct (apply_friction_no_tangent r a b n J s3 Hab) as (s' & E & V).
  - rewrite Fa, Fb. lra.
  - rewrite Va, Vb. apply vec_eq; unfold Vector2D.dot; simpl.
    + unfold van, Vector2D.dot in Px, Py |- *. simpl in Px, Py |- *. nra.
    + unfold van, Vector2D.dot in Px, Py |- *. simpl in Px, Py |- *. nra.
  - exists s'. split.
    + cbv beta iota. exact E.
    + rewrite !V. split; assumption.
Qed.

(** C9: two distinct non-static bodies of the same mass, restitution 1 and
    friction 0 on both, relative velocity along the contact normal and
    closing: resolving the contact returns, and each body then has the
    velocity the other had. *)
Theorem head_on_elastic_exchange
    (r : CollisionResolver.t) (c : CollisionInfo) (dt m : R) (s : Store) :
  let a := body_a c in
  let b := body_b c in
  let rel := velocity (s b) -v velocity (s a) in
  a <> b ->
  static (s a) = false -> static (s b) = false ->
  m <> 0 ->
  mass (s a) = Py.Fin m -> mass (s b) = Py.Fin m ->
  inv_mass (s a) = 1 / m -> inv_mass (s b) = 1 / m ->
  restitution (s a) = 1 -> restitution (s b) = 1 ->
  friction (s a) = 0 -> friction (s b) = 0 ->
  rel = normal c *v Vector2D.dot rel (normal c) ->
  Vector2D.dot rel (normal c) < 0 ->
  exists s',
    CollisionResolver.resolve_collision r c dt s = Return tt s'
    /\ velocity (s' a) = velocity (s b)
    /\ velocity (s' b) = velocity (s a).
Proof.
  intros a b rel Hab Hsa Hsb Hm _ _ Hia Hib Hra Hrb Hfa Hfb Hpar Hclose.
  unfold CollisionResolver.resolve_collision. fold a b.
  assert (P : exists s1,
            (if CollisionResolver.position_correction r
                && (penetration c >? 0)
             then CollisionResolver._resolve_position r a b (normal c)
                    (penetration c)
             else ret tt) s = Return tt s1 /\ moved s s1).
  { destruct (_ && _).
    - apply resolve_position_moves.
    - exists s. split; [reflexivity | apply moved_refl]. }
  destruct P as (s1 & E1 & M1). unfold bind at 1. rewrite E1.
  destruct (M1 a) as [qa Ea]. destruct (M1 b) as [qb Eb].
  destruct (resolve_velocity_exchange r a b (normal c) c m s1)
    as (s' & E & Va & Vb); rewrite ?Ea, ?Eb; simpl; try assumption.
  exists s'. split; [exact E |].
  rewrite Va, Vb, Ea, Eb. split; reflexivity.
Qed.


(** ** Continuous detection *)

(** The bisection returns a time strictly inside the interval it is given,
    after at most [n] iterations. *)
Lemma bisect_inside (n : nat) (pa va pb vb : Vector2D.t) (rs : R) :
  forall lo hi : R,
    lo < hi ->
    lo < ContinuousCollisionDetector.bisect n pa va pb vb rs lo hi < hi.
Proof.
  induction n as [| n IH]; intros lo hi H; simpl.
  - lra.
  - destruct (Rabs _ <? ContinuousCollisionDetector.tolerance); [lra |].
    destruct (_ >? rs).
    + destruct (_ <? ContinuousCollisionDetector.tolerance); [lra |].
      assert (I : (lo + hi) / 2 < hi) by lra.
      specialize (IH _ _ I). lra.
    + destruct (_ <? ContinuousCollisionDetector.tolerance); [lra |].
      assert (I : lo < (lo + hi) / 2) by lra.
      specialize (IH _ _ I). lra.
Qed.

(** Between a time at which the centres are at least [rs] apart and a later
    time at which they are at most [rs] apart there is a time at which they
    are [rs] apart: the circles touch. *)
Lemma touch_between (pa va pb vb : Vector2D.t) (rs lo hi : R) :
  lo <= hi ->
  rs <= distance_at pa va pb vb lo ->
  distance_at pa va pb vb hi <= rs ->
  exists z, lo <= z <= hi /\ distance_at pa va pb vb z = rs.
Proof.
  intros Hle Hlo Hhi.
  set (q := fun t : R =>
              (Vector2D.x pa + Vector2D.x va * t
               - (Vector2D.x pb + Vector2D.x vb * t))
              * (Vector2D.x pa + Vector2D.x va * t
                 - (Vector2D.x pb + Vector2D.x vb * t))
              + (Vector2D.y pa + Vector2D.y va * t
                 - (Vector2D.y pb + Vector2D.y vb * t))
                * (Vector2D.y pa + Vector2D.y va * t
                   - (Vector2D.y pb + Vector2D.y vb * t))).
  assert (D : forall t, distance_at pa va pb vb t = sqrt (q t))
    by reflexivity.
  assert (Q : forall t, 0 <= q t) by (intros t; unfold q; apply sumsq_nonneg).
  rewrite D in Hlo, Hhi.
  assert (Hrs : 0 <= rs) by (pose proof (sqrt_pos (q hi)); lra).
  assert (Flo : rs * rs <= q lo).
  { rewrite <- (sqrt_def (q lo) (Q lo)). pose proof (sqrt_pos (q lo)). nra. }
  assert (Fhi : q hi <= rs * rs).
  { rewrite <- (sqrt_def (q hi) (Q hi)). pose proof (sqrt_pos (q hi)). nra. }
  destruct (IVT_cor (fun t => q t - rs * rs) lo hi) as [z [Hz Ez]].
  - unfold q. reg.
  - exact Hle.
  - nra.
  - exists z. split; [exact Hz |]. rewrite D.
    apply sqrt_of_square; [exact Hrs | lra].
Qed.

Lemma bisect_step (n : nat) (pa va pb vb : Vector2D.t) (rs lo hi : R) :
  ContinuousCollisionDetector.bisect (S n) pa va pb vb rs lo hi
  = let t_mid := (lo + hi) / 2 in
    let distance := distance_at pa va pb vb t_mid in
    if Rabs (distance - rs) <? ContinuousCollisionDetector.tolerance
    then t_mid
    else
      let lo' := if distance >? rs then t_mid else lo in
      let hi' := if distance >? rs then hi else t_mid in
      if hi' - lo' <? ContinuousCollisionDetector.tolerance
      then (lo' + hi') / 2
      else ContinuousCollisionDetector.bisect n pa va pb vb rs lo' hi'.
Proof. reflexivity. Qed.

(** The bisection keeps a bracket at whose lower end the centres are at
    least [rs] apart and at whose upper end they are at most [rs] apart; so
    a time at which the circles touch lies in every bracket, and the time
    returned is one at which the distance of the centres is within the
    tolerance of [rs], or the middle of a bracket shorter than the
    tolerance, or the middle of the bracket left after all halvings. *)
Lemma bisect_near_contact (n : nat) (pa va pb vb : Vector2D.t) (rs : R) :
  forall lo hi : R,
    lo < hi ->
    rs <= distance_at pa va pb vb lo ->
    distance_at pa va pb vb hi <= rs ->
    let t := ContinuousCollisionDetector.bisect n pa va pb vb rs lo hi in
    exists z,
      lo <= z <= hi
      /\ distance_at pa va pb vb z = rs
      /\ (Rabs (distance_at pa va pb vb t - rs)
          < ContinuousCollisionDetector.tolerance
          \/ Rabs (t - z) < ContinuousCollisionDetector.tolerance / 2
          \/ Rabs (t - z) <= (hi - lo) / 2 ^ S n).
Proof.
  induction n as [| n IH]; intros lo hi Hlt Hlo Hhi t.
  - destruct (touch_between pa va pb vb rs lo hi) as (z & Hz & Ez);
      [lra | assumption | assumption |].
    exists z. split; [exact Hz |]. split; [exact Ez |].
    right. right. unfold t. simpl. apply Rabs_le. lra.
  - unfold t. rewrite bisect_step. cbv zeta.
    set (mid := (lo + hi) / 2).
    destruct (Rabs (distance_at pa va pb vb mid - rs)
              <? ContinuousCollisionDetector.tolerance) eqn:Near.
    + apply ltb_true in Near.
      destruct (touch_between pa va pb vb rs lo hi) as (z & Hz & Ez);
        [lra | assumption | assumption |].
      exists z. split; [exact Hz |]. split; [exact Ez |]. left. exact Near.
    + assert (B : exists lo' hi',
                 (if distance_at pa va pb vb mid >? rs then mid else lo) = lo'
                 /\ (if distance_at pa va pb vb mid >? rs then hi else mid)
                    = hi'
                 /\ lo <= lo' /\ hi' <= hi /\ lo' < hi'
                 /\ hi' - lo' = (hi - lo) / 2
                 /\ rs <= distance_at pa va pb vb lo'
                 /\ distance_at pa va pb vb hi' <= rs).
      { destruct (distance_at pa va pb vb mid >? rs) eqn:G.
        - apply ltb_true in G. exists mid, hi. unfold mid.
          repeat split; try reflexivity; try lra. fold mid. lra.
        - apply ltb_false in G. exists lo, mid. unfold mid.
          repeat split; try reflexivity; try lra. fold mid. lra. }
      destruct B as (lo' & hi' & -> & -> & L1 & L2 & L3 & W & Blo & Bhi).
      destruct (hi' - lo' <? ContinuousCollisionDetector.tolerance) eqn:Short.
      * apply ltb_true in Short.
        destruct (touch_between pa va pb vb rs lo' hi') as (z & Hz & Ez);
          [lra | assumption | assumption |].
        exists z. split; [lra |]. split; [exact Ez |].
        right. left. apply Rabs_def1; lra.
      * destruct (IH lo' hi' L3 Blo Bhi) as (z & Hz & Ez & Hc).
        exists z. split; [lra |]. split; [exact Ez |].
        destruct Hc as [Hc | [Hc | Hc]]; [left | right; left | right; right];
          try exact Hc.
        rewrite W in Hc.
        replace ((hi - lo) / 2 ^ S (S n)) with ((hi - lo) / 2 / 2 ^ S n);
          [exact Hc |].
        change (2 ^ S (S n)) with (2 * 2 ^ S n). field.
        apply pow_nonzero. lra.
Qed.

Lemma vec_at_zero (p v : Vector2D.t) : p +v v *v 0 = p.
Proof.
  destruct p, v. unfold Vector2D.__add__, Vector2D.__mul__. simpl.
  f_equal; ring.
Qed.

(** C6: for two circles and a positive step [dt], when the circles do not
    overlap at the start and overlap at the end of the step, the swept test
    returns a contact of penetration 0 whose metadata records the time the
    bisection (20 iterations at most, tolerance 1e-6) returns.  This time
    lies strictly between 0 and [dt], and it is a time of impact up to the
    precision of the search: there is a time [z] of the step at which the
    two circles touch, the centres exactly [ra + rb] apart, and either the
    distance of the centres at the recorded time is within 1e-6 of
    [ra + rb], or the recorded time is within 5e-7 of [z], or it is within
    [dt / 2^21] of [z].  When the circles overlap at the start, or do not
    overlap at the end, the test returns no contact. *)
Theorem ccd_contact_at_time_of_impact
    (s : Store) (a b : nat) (ra rb dt : R)
    (Ha : shape (s a) = Circle ra) (Hb : shape (s b) = Circle rb)
    (Hdt : 0 < dt) :
  let pa := position (s a) in
  let pb := position (s b) in
  let va := velocity (s a) in
  let vb := velocity (s b) in
  let d0 := Vector2D.distance_to pa pb in
  let d1 := Vector2D.distance_to (pa +v va *v dt) (pb +v vb *v dt) in
  (ra + rb <= d0 -> d1 < ra + rb ->
   exists (t : R) (n : Vector2D.t),
     t = ContinuousCollisionDetector.bisect 20 pa va pb vb (ra + rb) 0 dt
     /\ ContinuousCollisionDetector.max_iterations = 20%nat
     /\ ContinuousCollisionDetector.tolerance = 1e-6
     /\ 0 < t < dt
     /\ (exists z : R,
           0 <= z <= dt
           /\ distance_at pa va pb vb z = ra + rb
           /\ (Rabs (distance_at pa va pb vb t - (ra + rb)) < 1e-6
               \/ Rabs (t - z) < 1e-6 / 2
               \/ Rabs (t - z) <= dt / 2 ^ 21))
     /\ Vector2D.normalized ((pb +v vb *v t) -v (pa +v va *v t)) = Ok n
     /\ ContinuousCollisionDetector._circle_circle_ccd s a b dt
        = Ok (Some (mkCollisionInfo a b ((pa +v va *v t) +v n *v ra) n 0
                      "circle-circle-ccd"
                      [("collision_time"%string, MetaFloat t)])))
  /\ (d0 < ra + rb ->
      ContinuousCollisionDetector._circle_circle_ccd s a b dt = Ok None)
  /\ (ra + rb <= d1 ->
      ContinuousCollisionDetector._circle_circle_ccd s a b dt = Ok None).
Proof.
  intros pa pb va vb d0 d1. split; [| split].
  - intros H0 H1.
    set (t := ContinuousCollisionDetector.bisect 20 pa va pb vb (ra + rb)
                0 dt).
    destruct (normalized_returns ((pb +v vb *v t) -v (pa +v va *v t)))
      as [n Hn].
    exists t, n. split; [reflexivity |]. split; [reflexivity |].
    split; [reflexivity |]. split; [apply bisect_inside, Hdt |].
    split.
    { destruct (bisect_near_contact 20 pa va pb vb (ra + rb) 0 dt Hdt)
        as (z & Hz & Ez & Hc).
      - unfold distance_at. rewrite !vec_at_zero. exact H0.
      - unfold distance_at. fold d1. lra.
      - exists z. split; [exact Hz |]. split; [exact Ez |].
        fold t in Hc. replace (dt - 0) with dt in Hc by ring. exact Hc. }
    split; [exact Hn |].
    unfold ContinuousCollisionDetector._circle_circle_ccd.
    rewrite Ha, Hb. fold pa pb va vb d0 d1.
    rewrite ltb_elim by exact H0. unfold Py.geb. rewrite leb_elim by exact H1.
    unfold ContinuousCollisionDetector._binary_search_collision_time.
    fold pa pb va vb. change ContinuousCollisionDetector.max_iterations
      with 20%nat. fold t. rewrite Hn. reflexivity.
  - intros H0. unfold ContinuousCollisionDetector._circle_circle_ccd.
    rewrite Ha, Hb. fold pa pb va vb d0 d1.
    rewrite ltb_intro by exact H0. reflexivity.
  - intros H1. unfold ContinuousCollisionDetector._circle_circle_ccd.
    rewrite Ha, Hb. fold pa pb va vb d0 d1.
    destruct (d0 <? ra + rb); [reflexivity |].
    unfold Py.geb. rewrite leb_intro by exact H1. reflexivity.
Qed.


(** ** The gap of a ring *)

Lemma mod360_range (a : R) : 0 <= Py.mod360 a < 360.
Proof.
  unfold Py.mod360. pose proof (floor_bounds (a / 360)) as H. lra.
Qed.

Lemma mod360_spec (a : R) (k : Z) :
  0 <= a - 360 * IZR k < 360 -> Py.mod360 a = a - 360 * IZR k.
Proof.
  intros H. unfold Py.mod360. rewrite (floor_spec (a / 360) k); [reflexivity |].
  lra.
Qed.

Lemma mod360_shift (a : R) : exists k : Z, Py.mod360 a = a - 360 * IZR k.
Proof. exists (Py.floor (a / 360)). reflexivity. Qed.

(** An integer between two reals less than one apart from 0 is 0, and so
    on: the integer cases of the proofs below. *)
Lemma IZR_between (k : Z) (lo hi : Z) :
  IZR lo - 1 < IZR k < IZR hi + 1 -> (lo <= k <= hi)%Z.
Proof.
  intros [H1 H2].
  assert (IZR (lo - 1) < IZR k) by (rewrite minus_IZR; lra).
  assert (IZR k < IZR (hi + 1)) by (rewrite plus_IZR; lra).
  apply lt_IZR in H, H0. lia.
Qed.

(** Membership in the gap, for an angle and a rotated start both in
    [0, 360) and a gap of less than a full turn. *)
Lemma gap_test_arc (angle gs g : R) :
  0 <= angle < 360 -> 0 <= gs < 360 -> 0 < g < 360 ->
  let ge := Py.mod360 (gs + g) in
  (if gs <=? ge then (gs <=? angle) && (angle <=? ge)
   else (angle >=? gs) || (angle <=? ge)) = true
  <-> in_arc angle gs g.
Proof.
  intros Ha Hs Hg ge.
  destruct (Rlt_dec (gs + g) 360) as [Hlt | Hge].
  - assert (E : ge = gs + g).
    { unfold ge. rewrite (mod360_spec (gs + g) 0); lra. }
    rewrite E. rewrite leb_intro by lra. rewrite andb_true_iff.
    rewrite !leb_true. split.
    + intros H. exists 0%Z. lra.
    + intros [k Hk].
      assert (Hk0 : (0 <= k <= 0)%Z) by (apply IZR_between; lra).
      assert (k = 0%Z) by lia. subst k. lra.
  - assert (E : ge = gs + g - 360).
    { unfold ge. rewrite (mod360_spec (gs + g) 1); lra. }
    rewrite E. rewrite leb_elim by lra. rewrite orb_true_iff.
    unfold Py.geb. rewrite !leb_true. split.
    + intros [H | H].
      * exists 0%Z. lra.
      * exists 1%Z. lra.
    + intros [k Hk].
      assert (Hk0 : (0 <= k <= 1)%Z) by (apply IZR_between; lra).
      assert (Hc : k = 0%Z \/ k = 1%Z) by lia.
      destruct Hc as [-> | ->]; [left | right]; lra.
Qed.

Lemma in_arc_shift (angle first width : R) (j : Z) :
  in_arc angle (first - 360 * IZR j) width <-> in_arc angle first width.
Proof.
  unfold in_arc. split; intros [k Hk].
  - exists (k + j)%Z. rewrite plus_IZR. lra.
  - exists (k - j)%Z. rewrite minus_IZR. lra.
Qed.

Lemma point_angle_range (self : PhysicsBody) (p : Vector2D.t) :
  0 <= RingM.point_angle self p < 360.
Proof. unfold RingM.point_angle. apply mod360_range. Qed.

(** C7, as the code has it: for a ring whose gap angle lies strictly
    between 0 and 360, [point_in_gap] holds exactly of the points whose
    angle about the centre, brought to [0, 360), lies in the interval from
    [gap_start + rotation] to [gap_start + rotation + gap_angle] modulo
    360, the interval that crosses 0 included; for a ring whose gap angle
    is 0 it holds of no point. *)
Theorem point_in_gap_iff_in_arc
    (self : PhysicsBody) (ring : RingData) (point : Vector2D.t) :
  (0 < gap_angle ring < 360 ->
   (RingM.point_in_gap self ring point = true
    <-> in_arc (RingM.point_angle self point)
               (gap_start ring + rotation ring) (gap_angle ring)))
  /\ (gap_angle ring = 0 -> RingM.point_in_gap self ring point = false).
Proof.
  split.
  - intros Hg. unfold RingM.point_in_gap, RingM.has_gap, Py.gtb.
    rewrite ltb_intro by lra. simpl.
    destruct (mod360_shift (gap_start ring + rotation ring)) as [j Ej].
    rewrite <- (in_arc_shift _ _ _ j). rewrite <- Ej.
    apply gap_test_arc.
    + apply point_angle_range.
    + apply mod360_range.
    + exact Hg.
  - intros H. unfold RingM.point_in_gap, RingM.has_gap, Py.gtb.
    rewrite ltb_elim by lra. reflexivity.
Qed.

Lemma point_angle_east :
  RingM.point_angle scene_open_ring (Vector2D.mk 1 0) = 0.
Proof.
  unfold RingM.point_angle, Py.atan2, Py.degrees. simpl.
  rewrite ltb_intro by lra.
  replace ((0 - 0) / (1 - 0)) with 0 by (field; lra).
  rewrite atan_0. rewrite (mod360_spec _ 1); lra.
Qed.

(** The ring of the scene is the one its constructor returns. *)
Lemma scene_open_ring_constructed :
  Ring_init (Vector2D.mk 0 0) 40 50 360 90 true = Ok scene_open_ring
  /\ shape scene_open_ring = Ring scene_open_ring_data.
Proof. split; [apply Ring_init_ok | reflexivity]. Qed.

(** C7 as stated fails on a gap of a full turn: the interval from 90 to 450
    degrees contains, modulo 360, the angle 0 of the point to the east, and
    [point_in_gap] answers [False]. *)
Lemma point_in_gap_full_turn_counterexample :
  ~ (0 < gap_angle scene_open_ring_data ->
     (RingM.point_in_gap scene_open_ring scene_open_ring_data
                         (Vector2D.mk 1 0) = true
      <-> in_arc (RingM.point_angle scene_open_ring (Vector2D.mk 1 0))
                 (gap_start scene_open_ring_data
                  + rotation scene_open_ring_data)
                 (gap_angle scene_open_ring_data))).
Proof.
  intros H.
  assert (Hg : 0 < gap_angle scene_open_ring_data) by (simpl; lra).
  destruct (H Hg) as [_ H2].
  assert (A : in_arc (RingM.point_angle scene_open_ring (Vector2D.mk 1 0))
                (gap_start scene_open_ring_data
                 + rotation scene_open_ring_data)
                (gap_angle scene_open_ring_data)).
  { rewrite point_angle_east. exists 1%Z. simpl. lra. }
  apply H2 in A. revert A.
  unfold RingM.point_in_gap, RingM.has_gap, Py.gtb.
  rewrite point_angle_east. simpl.
  rewrite ltb_intro by lra. simpl.
  rewrite (mod360_spec (90 + 0) 0) by lra.
  rewrite (mod360_spec (90 + 0 - 360 * 0 + 360) 1) by lra.
  rewrite leb_intro by lra. rewrite (leb_elim _ 0) by lra.
  simpl. discriminate.
Qed.

Lemma point_in_gap_iff_in_arc_witness :
  RingM.point_in_gap scene_open_ring (mkRing 40 50 90 0 0)
                     (Vector2D.mk 1 0) = true
  <-> in_arc (RingM.point_angle scene_open_ring (Vector2D.mk 1 0))
             (gap_start (mkRing 40 50 90 0 0)
              + rotation (mkRing 40 50 90 0 0))
             (gap_angle (mkRing 40 50 90 0 0)).
Proof.
  apply (proj1 (point_in_gap_iff_in_arc scene_open_ring
                  (mkRing 40 50 90 0 0) (Vector2D.mk 1 0))).
  simpl. lra.
Defined.


(** ** The quadtree *)

Lemma quadrant_of_first :
  QuadTreeM.get_index square100 (scene_quadrants 0%nat) = 1%Z.
Proof.
  unfold QuadTreeM.get_index, square100. simpl. rdecide. reflexivity.
Qed.

Lemma quadrant_of_second :
  QuadTreeM.get_index square100 (scene_quadrants 1%nat) = 3%Z.
Proof.
  unfold QuadTreeM.get_index, square100. simpl. rdecide. reflexivity.
Qed.

Lemma quadrant_of_third :
  QuadTreeM.get_index square100 (scene_quadrants 2%nat) = (-1)%Z.
Proof.
  unfold QuadTreeM.get_index, square100. simpl. rdecide. reflexivity.
Qed.

Lemma scene_quadrants_tree :
  exists t1 t2 : QuadTree,
    QuadTreeM.insert 2 scene_quadrants (QuadTreeM.init square100 1 5 0) 0
    = Some t1
    /\ QuadTreeM.insert 2 scene_quadrants t1 1 = Some t2
    /\ QuadTreeM.objects t2 = []
    /\ map QuadTreeM.objects (QuadTreeM.nodes t2)
       = [[]; [0%nat]; []; [1%nat]]
    /\ QuadTreeM.retrieve t2 [] scene_quadrants 2 = [].
Proof.
  eexists. eexists. split; [| split].
  - cbn -[QuadTreeM.get_index]. reflexivity.
  - cbn -[QuadTreeM.get_index].
    change (circle_body (Vector2D.mk 10 10) 5 1 false)
      with (scene_quadrants 0%nat).
    change (circle_body (Vector2D.mk 80 80) 5 1 false)
      with (scene_quadrants 1%nat).
    rewrite quadrant_of_first, quadrant_of_second. cbn. reflexivity.
  - cbn -[QuadTreeM.get_index].
    change (circle_body (Vector2D.mk 48 10) 40 1 false)
      with (scene_quadrants 2%nat).
    rewrite quadrant_of_third. cbn. repeat split.
Qed.

(** C1, on the quadtree: after the two small circles are inserted into a
    tree of capacity 1 over the square, the tree has split and holds them
    in two quadrants; the large circle fits no quadrant, and [retrieve]
    returns for it the objects of the root only, none, although its box
    overlaps the box of the first circle and the two circles collide. *)
Theorem quadtree_retrieve_misses_overlapping_object :
  exists t1 t2 : QuadTree,
    QuadTreeM.insert 2 scene_quadrants (QuadTreeM.init (0, 0, 100, 100) 1 5 0)
                     0 = Some t1
    /\ QuadTreeM.insert 2 scene_quadrants t1 1 = Some t2
    /\ map QuadTreeM.objects (QuadTreeM.nodes t2)
       = [[]; [0%nat]; []; [1%nat]]
    /\ QuadTreeM.retrieve t2 [] scene_quadrants 2 = []
    /\ boxes_overlap (get_bounding_box (scene_quadrants 0%nat))
                     (get_bounding_box (scene_quadrants 2%nat))
    /\ exists c : CollisionInfo,
         CollisionDetector._check_collision scene_quadrants 0 2
         = Ok (Some c).
Proof.
  destruct scene_quadrants_tree as (t1 & t2 & E1 & E2 & _ & N & Rt).
  exists t1, t2. repeat split; try assumption; try (simpl; lra).
  assert (D : Vector2D.distance_to (Vector2D.mk 10 10) (Vector2D.mk 48 10)
              = 38).
  { unfold Vector2D.distance_to. simpl. apply sqrt_of_square; lra. }
  eexists. unfold CollisionDetector._check_collision. simpl.
  apply (circle_circle_collision_some scene_quadrants 0 2 5 40
           eq_refl eq_refl).
  simpl. rewrite D. lra.
Qed.


(** ** The theorems at the scenes *)

Lemma distance_on_x_axis (a b d : R) :
  0 <= d -> d = b - a \/ d = a - b ->
  Vector2D.distance_to (Vector2D.mk a 0) (Vector2D.mk b 0) = d.
Proof.
  intros Hd H. unfold Vector2D.distance_to. simpl.
  apply sqrt_of_square; [exact Hd |]. destruct H as [-> | ->]; ring.
Qed.

Lemma circle_circle_contact_iff_witness :
  exists n : Vector2D.t,
    Vector2D.normalized (position (scene_static_pair 1%nat)
                         -v position (scene_static_pair 0%nat)) = Ok n
    /\ Vector2D.magnitude n = 1
    /\ CollisionDetector._circle_circle_collision scene_static_pair 0 1
       = Ok (Some (mkCollisionInfo 0 1
                     (position (scene_static_pair 0%nat) +v n *v 5) n
                     (5 + 5
                      - Vector2D.distance_to
                          (position (scene_static_pair 0%nat))
                          (position (scene_static_pair 1%nat)))
                     "circle-circle" [])).
Proof.
  apply (proj1 (circle_circle_contact_iff scene_static_pair 0 1 5 5
                  eq_refl eq_refl)).
  simpl. rewrite (distance_on_x_axis 0 6 6) by lra. lra.
Defined.

Lemma static_body_never_moves_witness :
  static (final (PhysicsEngine.step scene_engine None scene_wall) 1%nat)
  = true
  /\ position (final (PhysicsEngine.step scene_engine None scene_wall) 1%nat)
     = position (scene_wall 1%nat)
  /\ velocity (final (PhysicsEngine.step scene_engine None scene_wall) 1%nat)
     = velocity (scene_wall 1%nat).
Proof.
  apply (proj1 static_body_never_moves scene_wall _ 1%nat
           (steps_more scene_wall scene_wall scene_engine None
              (steps_none scene_wall))).
  reflexivity.
Defined.

Lemma walls_have_zero_inverse_mass_witness :
  static (scene_loose_wall 1%nat) = false
  /\ velocity (final (CollisionResolver.resolve_collisions
                        CollisionResolver.init [scene_loose_wall_contact]
                        (1 / 60) scene_loose_wall) 1%nat)
     = velocity (scene_loose_wall 1%nat).
Proof.
  split; [reflexivity |].
  apply (proj2 (proj2 (proj2 walls_have_zero_inverse_mass))
           CollisionResolver.init [scene_loose_wall_contact] (1 / 60)
           scene_loose_wall 1%nat).
  reflexivity.
Defined.

Lemma head_on_elastic_exchange_witness :
  exists s' : Store,
    CollisionResolver.resolve_collision CollisionResolver.init
      scene_head_on_contact (1 / 60) scene_head_on = Return tt s'
    /\ velocity (s' 0%nat) = velocity (scene_head_on 1%nat)
    /\ velocity (s' 1%nat) = velocity (scene_head_on 0%nat).
Proof.
  apply (head_on_elastic_exchange CollisionResolver.init
           scene_head_on_contact (1 / 60) 1 scene_head_on);
    try reflexivity.
  - simpl. discriminate.
  - lra.
  - simpl. apply vec_eq; unfold Vector2D.dot; simpl; lra.
  - unfold Vector2D.dot. simpl. lra.
Defined.

Lemma ccd_contact_at_time_of_impact_witness :
  exists (t : R) (n : Vector2D.t),
    t = ContinuousCollisionDetector.bisect 20
          (position (scene_sweep 0%nat)) (velocity (scene_sweep 0%nat))
          (position (scene_sweep 1%nat)) (velocity (scene_sweep 1%nat))
          (10 + 10) 0 0.2
    /\ ContinuousCollisionDetector.max_iterations = 20%nat
    /\ ContinuousCollisionDetector.tolerance = 1e-6
    /\ 0 < t < 0.2
    /\ (exists z : R,
          0 <= z <= 0.2
          /\ distance_at (position (scene_sweep 0%nat))
                         (velocity (scene_sweep 0%nat))
                         (position (scene_sweep 1%nat))
                         (velocity (scene_sweep 1%nat)) z = 10 + 10
          /\ (Rabs (distance_at (position (scene_sweep 0%nat))
                                (velocity (scene_sweep 0%nat))
                                (position (scene_sweep 1%nat))
                                (velocity (scene_sweep 1%nat)) t
                    - (10 + 10)) < 1e-6
              \/ Rabs (t - z) < 1e-6 / 2
              \/ Rabs (t - z) <= 0.2 / 2 ^ 21))
    /\ Vector2D.normalized
         ((position (scene_sweep 1%nat) +v velocity (scene_sweep 1%nat) *v t)
          -v (position (scene_sweep 0%nat)
              +v velocity (scene_sweep 0%nat) *v t)) = Ok n
    /\ ContinuousCollisionDetector._circle_circle_ccd scene_sweep 0 1 0.2
       = Ok (Some (mkCollisionInfo 0 1
                     ((position (scene_sweep 0%nat)
                       +v velocity (scene_sweep 0%nat) *v t) +v n *v 10)
                     n 0 "circle-circle-ccd"
                     [("collision_time"%string, MetaFloat t)])).
Proof.
  assert (Hdt : 0 < 0.2) by lra.
  apply (proj1 (ccd_contact_at_time_of_impact scene_sweep 0 1 10 10 0.2
                  eq_refl eq_refl Hdt)).
  - simpl. rewrite (distance_on_x_axis 0 100 100) by lra. lra.
  - simpl. unfold Vector2D.__add__, Vector2D.__mul__. simpl.
    unfold Vector2D.distance_to. simpl.
    rewrite (sqrt_of_square _ 10) by lra. lra.
Defined.


(** ** The spatial grid *)

Lemma In_zrange (lo hi k : Z) : In k (zrange lo hi) <-> (lo <= k < hi)%Z.
Proof.
  unfold zrange. rewrite in_map_iff. split.
  - intros (n & <- & Hn). apply in_seq in Hn. lia.
  - intros H. exists (Z.to_nat (k - lo)). split; [lia |].
    apply in_seq. lia.
Qed.

Lemma cell_eqb_eq (c d : Z * Z) : cell_eqb c d = true <-> c = d.
Proof.
  destruct c, d. unfold cell_eqb. simpl.
  rewrite andb_true_iff, !Z.eqb_eq. split.
  - intros [-> ->]. reflexivity.
  - intros E. injection E as -> ->. split; reflexivity.
Qed.

Lemma pair_eqb_eq (p q : nat * nat) : pair_eqb p q = true <-> p = q.
Proof.
  destruct p, q. unfold pair_eqb. simpl.
  rewrite andb_true_iff, !Nat.eqb_eq. split.
  - intros [-> ->]. reflexivity.
  - intros E. injection E as -> ->. split; reflexivity.
Qed.

(** The cells of a body: all the cells between the cell of the lower corner
    of its box and the cell of the upper corner. *)
Lemma get_cells_for_body_ok (g : SpatialGrid.t) (b : PhysicsBody) :
  SpatialGrid.cell_size g <> 0 ->
  exists cells,
    SpatialGrid._get_cells_for_body g b = Ok cells
    /\ forall col row,
         In (col, row) cells
         <-> (clamp (Py.floor (Vector2D.x (fst (get_bounding_box b))
                               / SpatialGrid.cell_size g))
                    (SpatialGrid.cols g) <= col
              <= clamp (Py.floor (Vector2D.x (snd (get_bounding_box b))
                                  / SpatialGrid.cell_size g))
                       (SpatialGrid.cols g))%Z
             /\ (clamp (Py.floor (Vector2D.y (fst (get_bounding_box b))
                                  / SpatialGrid.cell_size g))
                       (SpatialGrid.rows g) <= row
                 <= clamp (Py.floor (Vector2D.y (snd (get_bounding_box b))
                                     / SpatialGrid.cell_size g))
                          (SpatialGrid.rows g))%Z.
Proof.
  intros Hc. unfold SpatialGrid._get_cells_for_body.
  destruct (get_bounding_box b) as [lo hi]. simpl fst. simpl snd.
  rewrite !get_cell_coords_ok by exact Hc. simpl.
  eexists. split; [reflexivity |].
  intros col row. rewrite in_flat_map. split.
  - intros (r & Hr & Hin). apply in_map_iff in Hin.
    destruct Hin as (k & E & Hk). injection E as <- <-.
    apply In_zrange in Hr, Hk. lia.
  - intros [H1 H2]. exists row. split.
    + apply In_zrange. lia.
    + apply in_map_iff. exists col. split; [reflexivity |].
      apply In_zrange. lia.
Qed.

Lemma div_mono (a b c : R) : 0 < c -> a <= b -> a / c <= b / c.
Proof.
  intros Hc H. unfold Rdiv. apply Rmult_le_compat_r; [| exact H].
  left. apply Rinv_0_lt_compat, Hc.
Qed.

Lemma cell_index_mono (a b c : R) (n : Z) :
  0 < c -> a <= b ->
  (clamp (Py.floor (a / c)) n <= clamp (Py.floor (b / c)) n)%Z.
Proof. intros Hc H. apply clamp_mono, floor_mono, div_mono; assumption. Qed.

(** Two boxes that overlap have a cell in common. *)
Lemma overlapping_boxes_share_cell (g : SpatialGrid.t) (a b : PhysicsBody)
    (ca cb : list (Z * Z)) :
  0 < SpatialGrid.cell_size g ->
  box_ordered (get_bounding_box a) -> box_ordered (get_bounding_box b) ->
  boxes_overlap (get_bounding_box a) (get_bounding_box b) ->
  SpatialGrid._get_cells_for_body g a = Ok ca ->
  SpatialGrid._get_cells_for_body g b = Ok cb ->
  exists cell, In cell ca /\ In cell cb.
Proof.
  intros Hc [Oax Oay] [Obx Oby] (X1 & X2 & Y1 & Y2) Ea Eb.
  assert (Hn : SpatialGrid.cell_size g <> 0) by lra.
  destruct (get_cells_for_body_ok g a Hn) as (ca' & Ea' & Ia).
  destruct (get_cells_for_body_ok g b Hn) as (cb' & Eb' & Ib).
  rewrite Ea in Ea'. injection Ea' as <-.
  rewrite Eb in Eb'. injection Eb' as <-.
  set (cs := SpatialGrid.cell_size g) in *.
  set (nc := SpatialGrid.cols g) in *. set (nr := SpatialGrid.rows g) in *.
  destruct (get_bounding_box a) as [la ha].
  destruct (get_bounding_box b) as [lb hb]. simpl in *.
  pose proof (cell_index_mono _ _ cs nc Hc Oax).
  pose proof (cell_index_mono _ _ cs nc Hc Obx).
  pose proof (cell_index_mono _ _ cs nc Hc X1).
  pose proof (cell_index_mono _ _ cs nc Hc X2).
  pose proof (cell_index_mono _ _ cs nr Hc Oay).
  pose proof (cell_index_mono _ _ cs nr Hc Oby).
  pose proof (cell_index_mono _ _ cs nr Hc Y1).
  pose proof (cell_index_mono _ _ cs nr Hc Y2).
  exists (Z.max (clamp (Py.floor (Vector2D.x la / cs)) nc)
                (clamp (Py.floor (Vector2D.x lb / cs)) nc),
          Z.max (clamp (Py.floor (Vector2D.y la / cs)) nr)
                (clamp (Py.floor (Vector2D.y lb / cs)) nr)).
  split; [apply Ia | apply Ib]; lia.
Qed.

Lemma lookup_grid_append (g : list ((Z * Z) * list nat)) (cell cell' : Z * Z)
    (id : nat) :
  lookup_cell (SpatialGrid.grid_append g cell id) cell'
  = if cell_eqb cell cell' then lookup_cell g cell' ++ [id]
    else lookup_cell g cell'.
Proof.
  induction g as [| [c l] g IH]; simpl.
  - destruct (cell_eqb cell cell'); reflexivity.
  - destruct (cell_eqb c cell) eqn:E1; simpl.
    + apply cell_eqb_eq in E1. subst c.
      destruct (cell_eqb cell cell'); reflexivity.
    + destruct (cell_eqb c cell') eqn:E2.
      * apply cell_eqb_eq in E2. subst c.
        destruct (cell_eqb cell cell') eqn:E3; [| reflexivity].
        apply cell_eqb_eq in E3. subst cell'.
        assert (cell_eqb cell cell = true) by (apply cell_eqb_eq; reflexivity).
        congruence.
      * exact IH.
Qed.

Lemma lookup_after_appends (cells : list (Z * Z)) (id : nat) :
  forall (g : list ((Z * Z) * list nat)) (cell : Z * Z) (j : nat),
    In j (lookup_cell g cell) \/ (j = id /\ In cell cells) ->
    In j (lookup_cell
            (fold_left (fun g c => SpatialGrid.grid_append g c id) cells g)
            cell).
Proof.
  induction cells as [| c cells IH]; intros g cell j H; simpl.
  - destruct H as [H | [_ []]]. exact H.
  - apply IH. rewrite lookup_grid_append.
    destruct (cell_eqb c cell) eqn:E.
    + apply cell_eqb_eq in E. subst c. destruct H as [H | [-> [_ | H]]].
      * left. apply in_or_app. left. exact H.
      * left. apply in_or_app. right. left. reflexivity.
      * right. split; [reflexivity | exact H].
    + destruct H as [H | [-> [Hc | H]]].
      * left. exact H.
      * subst c. assert (cell_eqb cell cell = true)
          by (apply cell_eqb_eq; reflexivity). congruence.
      * right. split; [reflexivity | exact H].
Qed.

(** After all the bodies are inserted, a body is in the list of each of its
    cells. *)
Lemma insert_all_fills (s : Store) (bodies : list nat) :
  forall (g g' : SpatialGrid.t),
    CollisionDetector.insert_all g s bodies = Ok g' ->
    SpatialGrid.cell_size g' = SpatialGrid.cell_size g
    /\ SpatialGrid.cols g' = SpatialGrid.cols g
    /\ SpatialGrid.rows g' = SpatialGrid.rows g
    /\ (forall cell j, In j (lookup_cell (SpatialGrid.grid g) cell) ->
                       In j (lookup_cell (SpatialGrid.grid g') cell))
    /\ (forall id cells cell,
          In id bodies ->
          SpatialGrid._get_cells_for_body g (s id) = Ok cells ->
          In cell cells ->
          In id (lookup_cell (SpatialGrid.grid g') cell)).
Proof.
  induction bodies as [| b bodies IH]; intros g g' H; simpl in H.
  - injection H as <-. repeat split; try tauto. intros id cells cell [].
  - unfold SpatialGrid.insert in H.
    destruct (SpatialGrid._get_cells_for_body g (s b)) as [cb | e] eqn:Eb;
      [| discriminate]. simpl in H.
    apply IH in H. destruct H as (Hs & Hc & Hr & Hkeep & Hall).
    simpl in Hs, Hc, Hr. repeat split; try assumption.
    + intros cell j Hj. apply Hkeep. simpl.
      apply lookup_after_appends. left. exact Hj.
    + intros id cells cell [-> | Hin] Ecells Hcell.
      * rewrite Eb in Ecells. injection Ecells as <-.
        apply Hkeep. simpl. apply lookup_after_appends. right.
        split; [reflexivity | exact Hcell].
      * apply (Hall id cells cell Hin); [| exact Hcell].
        rewrite <- Ecells. reflexivity.
Qed.

Lemma lookup_is_entry (g : list ((Z * Z) * list nat)) (cell : Z * Z)
    (j : nat) :
  In j (lookup_cell g cell) -> exists c, In (c, lookup_cell g cell) g.
Proof.
  induction g as [| [c l] g IH]; simpl; [intros [] |].
  destruct (cell_eqb c cell).
  - intros _. exists c. left. reflexivity.
  - intros H. destruct (IH H) as [c' Hc']. exists c'. right. exact Hc'.
Qed.

(** The double loop over a list meets every two distinct members of it, in
    one order or the other. *)
Lemma pairs_of_complete (l : list nat) (a b : nat) :
  In a l -> In b l -> a <> b ->
  In (a, b) (pairs_of l) \/ In (b, a) (pairs_of l).
Proof.
  induction l as [| x l IH]; intros Ha Hb Hab; [destruct Ha |].
  simpl. destruct Ha as [-> | Ha], Hb as [-> | Hb].
  - contradiction.
  - left. apply in_or_app. left. apply in_map, Hb.
  - right. apply in_or_app. left. apply in_map, Ha.
  - destruct (IH Ha Hb Hab) as [H | H]; [left | right];
      apply in_or_app; right; exact H.
Qed.

Lemma pair_key_eq (a b x y : nat) :
  pair_key (a, b) = pair_key (x, y) ->
  (x, y) = (a, b) \/ (x, y) = (b, a).
Proof.
  unfold pair_key. simpl. intros E. injection E as E1 E2.
  assert ((x = a /\ y = b) \/ (x = b /\ y = a)) as [[-> ->] | [-> ->]]
    by lia; [left | right]; reflexivity.
Qed.

Lemma existsb_pair_eqb (k : nat * nat) (seen : list (nat * nat)) :
  existsb (pair_eqb k) seen = true <-> In k seen.
Proof.
  rewrite existsb_exists. split.
  - intros (q & Hq & E). apply pair_eqb_eq in E. subst q. exact Hq.
  - intros H. exists k. split; [exact H | apply pair_eqb_eq; reflexivity].
Qed.

(** A candidate whose key was not seen before is yielded, itself or in the
    other order. *)
Lemma yield_new_covers (candidates : list (nat * nat)) :
  forall (seen : list (nat * nat)) (a b : nat),
    In (a, b) candidates -> ~ In (pair_key (a, b)) seen ->
    In (a, b) (SpatialGrid.yield_new candidates seen)
    \/ In (b, a) (SpatialGrid.yield_new candidates seen).
Proof.
  induction candidates as [| [x y] rest IH]; intros seen a b Hin Hseen;
    [destruct Hin |].
  simpl. change (Nat.min x y, Nat.max x y) with (pair_key (x, y)).
  destruct (existsb (pair_eqb (pair_key (x, y))) seen) eqn:E.
  - apply existsb_pair_eqb in E. destruct Hin as [Hh | Hin].
    + injection Hh as -> ->. contradiction.
    + apply IH; assumption.
  - destruct Hin as [Hh | Hin].
    + injection Hh as -> ->. left. left. reflexivity.
    + destruct (list_eq_dec Nat.eq_dec
                  [fst (pair_key (a, b)); snd (pair_key (a, b))]
                  [fst (pair_key (x, y)); snd (pair_key (x, y))])
        as [K | K].
      * assert (K' : pair_key (a, b) = pair_key (x, y)).
        { injection K as K1 K2. unfold pair_key in *. simpl in *.
          f_equal; assumption. }
        destruct (pair_key_eq a b x y K') as [Q | Q]; rewrite Q.
        -- left. left. reflexivity.
        -- right. left. reflexivity.
      * assert (Hns : ~ In (pair_key (a, b)) (pair_key (x, y) :: seen)).
        { intros [Q | Q]; [| contradiction]. apply K. rewrite Q.
          reflexivity. }
        destruct (IH _ a b Hin Hns) as [H | H]; [left | right];
          right; exact H.
Qed.

(** The candidates of the grid contain, in one order or the other, every
    two distinct bodies whose boxes overlap. *)
Lemma grid_covers_overlapping_boxes
    (g g' : SpatialGrid.t) (s : Store) (bodies : list nat) (a b : nat) :
  0 < SpatialGrid.cell_size g ->
  CollisionDetector.insert_all (SpatialGrid.clear g) s bodies = Ok g' ->
  In a bodies -> In b bodies -> a <> b ->
  box_ordered (get_bounding_box (s a)) ->
  box_ordered (get_bounding_box (s b)) ->
  boxes_overlap (get_bounding_box (s a)) (get_bounding_box (s b)) ->
  In (a, b) (SpatialGrid.get_potential_collisions g')
  \/ In (b, a) (SpatialGrid.get_potential_collisions g').
Proof.
  intros Hc Hins Ha Hb Hab Oa Ob Hov.
  set (g0 := SpatialGrid.clear g) in *.
  assert (Hc0 : 0 < SpatialGrid.cell_size g0) by exact Hc.
  assert (Hn : SpatialGrid.cell_size g0 <> 0) by lra.
  destruct (get_cells_for_body_ok g0 (s a) Hn) as (ca & Ea & _).
  destruct (get_cells_for_body_ok g0 (s b) Hn) as (cb & Eb & _).
  destruct (overlapping_boxes_share_cell g0 (s a) (s b) ca cb
              Hc0 Oa Ob Hov Ea Eb) as (cell & Hca & Hcb).
  destruct (insert_all_fills s bodies g0 g' Hins) as (_ & _ & _ & _ & Hall).
  pose proof (Hall a ca cell Ha Ea Hca) as Ia.
  pose proof (Hall b cb cell Hb Eb Hcb) as Ib.
  destruct (lookup_is_entry _ _ _ Ia) as [c Hentry].
  assert (Hp : forall p,
            In p (pairs_of (lookup_cell (SpatialGrid.grid g') cell)) ->
            In p (flat_map (fun entry : Z * Z * list nat =>
                              pairs_of (snd entry))
                           (SpatialGrid.grid g'))).
  { intros p Hin. apply in_flat_map. eexists. split; [exact Hentry |].
    exact Hin. }
  unfold SpatialGrid.get_potential_collisions.
  destruct (pairs_of_complete _ a b Ia Ib Hab) as [H | H].
  - apply yield_new_covers; [apply Hp, H | intros []].
  - assert (Hs : forall u v : Prop, u \/ v -> v \/ u) by tauto.
    apply Hs. apply yield_new_covers; [apply Hp, H | intros []].
Qed.

(** The narrow phase finds a contact between bodies whose boxes overlap
    only. *)

Lemma abs_dx_le_distance (p q : Vector2D.t) :
  - Vector2D.distance_to p q <= Vector2D.x p - Vector2D.x q
  <= Vector2D.distance_to p q.
Proof.
  pose proof (magnitude_nonneg (p -v q)) as Hn.
  pose proof (magnitude_sqr (p -v q)) as Hs.
  rewrite <- distance_to_magnitude in Hn, Hs. simpl in Hs.
  set (d := Vector2D.distance_to p q) in *.
  set (dx := Vector2D.x p - Vector2D.x q) in *.
  set (dy := Vector2D.y p - Vector2D.y q) in *.
  pose proof (sumsq_nonneg dy 0) as Hy.
  split.
  - destruct (Rle_dec (- d) dx) as [H | H]; [exact H | exfalso]. nra.
  - destruct (Rle_dec dx d) as [H | H]; [exact H | exfalso]. nra.
Qed.

Lemma abs_dy_le_distance (p q : Vector2D.t) :
  - Vector2D.distance_to p q <= Vector2D.y p - Vector2D.y q
  <= Vector2D.distance_to p q.
Proof.
  pose proof (magnitude_nonneg (p -v q)) as Hn.
  pose proof (magnitude_sqr (p -v q)) as Hs.
  rewrite <- distance_to_magnitude in Hn, Hs. simpl in Hs.
  set (d := Vector2D.distance_to p q) in *.
  set (dx := Vector2D.x p - Vector2D.x q) in *.
  set (dy := Vector2D.y p - Vector2D.y q) in *.
  pose proof (sumsq_nonneg dx 0) as Hy.
  split.
  - destruct (Rle_dec (- d) dy) as [H | H]; [exact H | exfalso]. nra.
  - destruct (Rle_dec dy d) as [H | H]; [exact H | exfalso]. nra.
Qed.

Lemma boxes_overlap_sym (p q : Vector2D.t * Vector2D.t) :
  boxes_overlap p q -> boxes_overlap q p.
Proof. unfold boxes_overlap. tauto. Qed.

Lemma box_ordered_of_sizes (b : PhysicsBody) :
  sizes_nonnegative b -> box_ordered (get_bounding_box b).
Proof.
  unfold sizes_nonnegative, get_bounding_box, box_ordered.
  destruct (shape b) as [r | sg | rg]; simpl; intros H.
  - lra.
  - pose proof (Rmin_l (Vector2D.x (start sg)) (Vector2D.x (end_ sg))).
    pose proof (Rmax_l (Vector2D.x (start sg)) (Vector2D.x (end_ sg))).
    pose proof (Rmin_l (Vector2D.y (start sg)) (Vector2D.y (end_ sg))).
    pose proof (Rmax_l (Vector2D.y (start sg)) (Vector2D.y (end_ sg))).
    lra.
  - lra.
Qed.

Lemma closest_point_within (seg : SegmentData) (p cp : Vector2D.t) :
  SegmentM.closest_point_on_segment seg p = Ok cp ->
  Rmin (Vector2D.x (start seg)) (Vector2D.x (end_ seg)) <= Vector2D.x cp
  <= Rmax (Vector2D.x (start seg)) (Vector2D.x (end_ seg))
  /\ Rmin (Vector2D.y (start seg)) (Vector2D.y (end_ seg)) <= Vector2D.y cp
     <= Rmax (Vector2D.y (start seg)) (Vector2D.y (end_ seg)).
Proof.
  unfold SegmentM.closest_point_on_segment.
  pose proof (Rmin_l (Vector2D.x (start seg)) (Vector2D.x (end_ seg))).
  pose proof (Rmin_r (Vector2D.x (start seg)) (Vector2D.x (end_ seg))).
  pose proof (Rmax_l (Vector2D.x (start seg)) (Vector2D.x (end_ seg))).
  pose proof (Rmax_r (Vector2D.x (start seg)) (Vector2D.x (end_ seg))).
  pose proof (Rmin_l (Vector2D.y (start seg)) (Vector2D.y (end_ seg))).
  pose proof (Rmin_r (Vector2D.y (start seg)) (Vector2D.y (end_ seg))).
  pose proof (Rmax_l (Vector2D.y (start seg)) (Vector2D.y (end_ seg))).
  pose proof (Rmax_r (Vector2D.y (start seg)) (Vector2D.y (end_ seg))).
  destruct (_ =? 0).
  - intros E. injection E as <-. simpl. lra.
  - destruct (Py.truediv _ _) as [q | e]; [| discriminate]. simpl.
    intros E. injection E as <-. simpl.
    set (t := Rmax 0 (Rmin 1 q)).
    assert (Ht : 0 <= t <= 1).
    { unfold t. split; [apply Rmax_l |].
      apply Rmax_lub; [lra | apply Rmin_l]. }
    split; split; nra.
Qed.

Lemma circle_circle_boxes (s : Store) (a b : nat) (c : CollisionInfo) :
  CollisionDetector._circle_circle_collision s a b = Ok (Some c) ->
  boxes_overlap (get_bounding_box (s a)) (get_bounding_box (s b)).
Proof.
  unfold CollisionDetector._circle_circle_collision, get_bounding_box.
  destruct (shape (s a)) as [ra | |]; try discriminate.
  destruct (shape (s b)) as [rb | |]; try discriminate.
  destruct (_ <? _) eqn:E; [| discriminate]. intros _.
  apply ltb_true in E.
  pose proof (abs_dx_le_distance (position (s a)) (position (s b))).
  pose proof (abs_dy_le_distance (position (s a)) (position (s b))).
  unfold boxes_overlap. simpl. lra.
Qed.

Lemma circle_segment_boxes (s : Store) (a b : nat) (c : CollisionInfo) :
  sizes_nonnegative (s b) ->
  CollisionDetector._circle_segment_collision s a b = Ok (Some c) ->
  boxes_overlap (get_bounding_box (s a)) (get_bounding_box (s b)).
Proof.
  unfold CollisionDetector._circle_segment_collision, get_bounding_box,
    sizes_nonnegative.
  destruct (shape (s a)) as [ra | |]; try discriminate.
  destruct (shape (s b)) as [| sg |]; try discriminate.
  intros Hth.
  destruct (SegmentM.closest_point_on_segment sg (position (s a)))
    as [cp | e] eqn:Ec; [| discriminate]. simpl.
  destruct (_ <? _) eqn:E; [| discriminate]. intros _.
  apply ltb_true in E.
  destruct (closest_point_within _ _ _ Ec) as [Hx Hy].
  pose proof (abs_dx_le_distance (position (s a)) cp).
  pose proof (abs_dy_le_distance (position (s a)) cp).
  unfold boxes_overlap, SegmentM.get_bounding_box. simpl. lra.
Qed.

Lemma circle_ring_boxes (s : Store) (a b : nat) (c : CollisionInfo) :
  CollisionDetector._circle_ring_collision s a b = Ok (Some c) ->
  boxes_overlap (get_bounding_box (s a)) (get_bounding_box (s b)).
Proof.
  unfold CollisionDetector._circle_ring_collision, get_bounding_box.
  destruct (shape (s a)) as [ra | |]; try discriminate.
  destruct (shape (s b)) as [| | rg]; try discriminate.
  unfold RingM.collision_with_circle.
  destruct (_ <? _); [discriminate |].
  destruct (_ >? _) eqn:E; [discriminate |].
  unfold Py.gtb in E. apply ltb_false in E. intros _.
  pose proof (abs_dx_le_distance (position (s b)) (position (s a))).
  pose proof (abs_dy_le_distance (position (s b)) (position (s a))).
  unfold boxes_overlap, RingM.get_bounding_box. simpl. lra.
Qed.

Lemma contact_boxes_overlap (s : Store) (a b : nat) (c : CollisionInfo) :
  sizes_nonnegative (s a) -> sizes_nonnegative (s b) ->
  CollisionDetector._check_collision s a b = Ok (Some c) ->
  boxes_overlap (get_bounding_box (s a)) (get_bounding_box (s b)).
Proof.
  intros Ha Hb. unfold CollisionDetector._check_collision.
  destruct (shape (s a)) eqn:Ea, (shape (s b)) eqn:Eb; try discriminate;
    intros H.
  - eapply circle_circle_boxes, H.
  - eapply circle_segment_boxes; [exact Hb | exact H].
  - eapply circle_ring_boxes, H.
  - apply boxes_overlap_sym. eapply circle_segment_boxes; [exact Ha | exact H].
  - apply boxes_overlap_sym. eapply circle_ring_boxes, H.
Qed.

(** The grid part of the no-false-negative contract: with cells of positive
    size and bodies of non-negative sizes, every two distinct bodies of the
    list between which the narrow phase finds a contact are among the pairs
    of [get_potential_collisions], in one order or the other. *)
Lemma grid_candidates_cover_contacts
    (g g' : SpatialGrid.t) (s : Store) (bodies : list nat) (a b : nat)
    (c : CollisionInfo) :
  0 < SpatialGrid.cell_size g ->
  (forall i, In i bodies -> sizes_nonnegative (s i)) ->
  CollisionDetector.insert_all (SpatialGrid.clear g) s bodies = Ok g' ->
  In a bodies -> In b bodies -> a <> b ->
  CollisionDetector._check_collision s a b = Ok (Some c) ->
  In (a, b) (SpatialGrid.get_potential_collisions g')
  \/ In (b, a) (SpatialGrid.get_potential_collisions g').
Proof.
  intros Hc Hsz Hins Ha Hb Hab Hhit.
  apply (grid_covers_overlapping_boxes g g' s bodies a b); try assumption.
  - apply box_ordered_of_sizes, Hsz, Ha.
  - apply box_ordered_of_sizes, Hsz, Hb.
  - apply (contact_boxes_overlap s a b c); auto.
Qed.

Lemma insert_all_returns (s : Store) (bodies : list nat) :
  forall g : SpatialGrid.t,
    SpatialGrid.cell_size g <> 0 ->
    exists g', CollisionDetector.insert_all g s bodies = Ok g'.
Proof.
  induction bodies as [| b bodies IH]; intros g Hc; simpl.
  - exists g. reflexivity.
  - unfold SpatialGrid.insert.
    destruct (get_cells_for_body_ok g (s b) Hc) as (cells & E & _).
    rewrite E. simpl. apply IH. exact Hc.
Qed.

(** The direction of the stored normal, in general. *)

Lemma circle_circle_normal_towards_b
    (s : Store) (a b : nat) (c : CollisionInfo) :
  CollisionDetector._circle_circle_collision s a b = Ok (Some c) ->
  body_a c = a /\ body_b c = b
  /\ 0 < Vector2D.dot (normal c) (position (s b) -v position (s a)).
Proof.
  unfold CollisionDetector._circle_circle_collision.
  destruct (shape (s a)) as [ra | |]; try discriminate.
  destruct (shape (s b)) as [rb | |]; try discriminate.
  destruct (_ <? _) eqn:E1; [| discriminate].
  destruct (_ >? _) eqn:E2; [| discriminate]. simpl.
  unfold Py.gtb in E2. apply ltb_true in E2.
  rewrite distance_to_sym, distance_to_magnitude in E2.
  rewrite normalized_nonzero by lra. simpl.
  intros E. injection E as <-. simpl.
  rewrite unit_of_dot by lra. repeat split. exact E2.
Qed.

Lemma circle_segment_normal_away_from_b
    (s : Store) (a b : nat) (c : CollisionInfo) :
  CollisionDetector._circle_segment_collision s a b = Ok (Some c) ->
  0 < Vector2D.distance_to (position (s a)) (contact_point c) ->
  body_a c = a /\ body_b c = b
  /\ Vector2D.dot (normal c) (contact_point c -v position (s a)) < 0.
Proof.
  unfold CollisionDetector._circle_segment_collision.
  destruct (shape (s a)) as [ra | |]; try discriminate.
  destruct (shape (s b)) as [| sg |]; try discriminate.
  destruct (SegmentM.closest_point_on_segment sg (position (s a)))
    as [cp | e]; [| discriminate]. simpl.
  destruct (_ <? _); [| discriminate].
  destruct (_ >? _) eqn:E2.
  - unfold Py.gtb in E2. apply ltb_true in E2.
    rewrite distance_to_magnitude in E2.
    rewrite normalized_nonzero by lra. simpl.
    intros E _. injection E as <-. simpl. repeat split.
    pose proof (unit_of_dot (position (s a) -v cp)) as D.
    assert (Hm : Vector2D.magnitude (position (s a) -v cp) <> 0) by lra.
    specialize (D Hm).
    unfold Vector2D.dot in *. simpl in *. lra.
  - unfold Py.gtb in E2. apply ltb_false in E2.
    destruct (SegmentM.get_normal sg); [| discriminate]. simpl.
    intros E Hd. injection E as <-. simpl in Hd. lra.
Qed.


(** * Further properties of the code *)

(** ** Vector kernel *)

Lemma magnitude_eq_of_squares (u v : Vector2D.t) :
  Vector2D.magnitude_squared u = Vector2D.magnitude_squared v ->
  Vector2D.magnitude u = Vector2D.magnitude v.
Proof.
  unfold Vector2D.magnitude, Vector2D.magnitude_squared. intros ->.
  reflexivity.
Qed.

Lemma magnitude_one_squares (n : Vector2D.t) :
  Vector2D.magnitude n = 1 ->
  Vector2D.x n * Vector2D.x n + Vector2D.y n * Vector2D.y n = 1.
Proof.
  intros H. rewrite <- magnitude_sqr, H. ring.
Qed.

(** X1: reflection about a unit normal keeps the magnitude, negates the
    component along the normal, and undoes itself when applied twice. *)
Theorem reflect_unit_normal (v n : Vector2D.t) :
  Vector2D.magnitude n = 1 ->
  Vector2D.magnitude (Vector2DOps.reflect v n) = Vector2D.magnitude v
  /\ Vector2D.dot (Vector2DOps.reflect v n) n = - Vector2D.dot v n
  /\ Vector2DOps.reflect (Vector2DOps.reflect v n) n = v.
Proof.
  intros H. apply magnitude_one_squares in H.
  destruct v as [a b], n as [c d]. simpl in H.
  set (k := a * c + b * d).
  split; [| split].
  - apply magnitude_eq_of_squares.
    unfold Vector2D.magnitude_squared, Vector2DOps.reflect, Vector2D.dot.
    simpl. fold k.
    replace ((a - c * (2 * k)) * (a - c * (2 * k))
             + (b - d * (2 * k)) * (b - d * (2 * k)))
      with (a * a + b * b + 4 * k * k * (c * c + d * d - 1))
      by (unfold k; ring).
    rewrite H. ring.
  - unfold Vector2DOps.reflect, Vector2D.dot. simpl. fold k.
    replace ((a - c * (2 * k)) * c + (b - d * (2 * k)) * d)
      with (k - 2 * k * (c * c + d * d)) by (unfold k; ring).
    rewrite H. ring.
  - unfold Vector2DOps.reflect, Vector2D.dot. simpl. fold k.
    replace ((a - c * (2 * k)) * c + (b - d * (2 * k)) * d)
      with (k - 2 * k * (c * c + d * d)) by (unfold k; ring).
    rewrite H. apply vec_eq; simpl; ring.
Qed.

Lemma magnitude_0_1 : Vector2D.magnitude (Vector2D.mk 0 1) = 1.
Proof. unfold Vector2D.magnitude. simpl. apply sqrt_of_square; lra. Qed.

Lemma reflect_unit_normal_witness :
  Vector2D.magnitude (Vector2DOps.reflect (Vector2D.mk 3 (-4))
                                          (Vector2D.mk 0 1))
  = Vector2D.magnitude (Vector2D.mk 3 (-4))
  /\ Vector2D.dot (Vector2DOps.reflect (Vector2D.mk 3 (-4))
                                       (Vector2D.mk 0 1))
                  (Vector2D.mk 0 1)
     = - Vector2D.dot (Vector2D.mk 3 (-4)) (Vector2D.mk 0 1)
  /\ Vector2DOps.reflect
       (Vector2DOps.reflect (Vector2D.mk 3 (-4)) (Vector2D.mk 0 1))
       (Vector2D.mk 0 1)
     = Vector2D.mk 3 (-4).
Proof.
  apply (reflect_unit_normal (Vector2D.mk 3 (-4)) (Vector2D.mk 0 1)).
  exact magnitude_0_1.
Defined.

(** X2: a rotation keeps the magnitude; rotating by [a] and then by [b] is
    rotating by [a + b]; rotating by 0 changes nothing, so that rotating
    back by [- a] restores the vector. *)
Theorem rotate_is_isometry_and_composes (v : Vector2D.t) (a b : R) :
  Vector2D.magnitude (Vector2DOps.rotate v a) = Vector2D.magnitude v
  /\ Vector2DOps.rotate (Vector2DOps.rotate v a) b
     = Vector2DOps.rotate v (a + b)
  /\ Vector2DOps.rotate v 0 = v
  /\ Vector2DOps.rotate (Vector2DOps.rotate v a) (- a) = v.
Proof.
  assert (C : forall w c, Vector2DOps.rotate (Vector2DOps.rotate w c) (- c)
                          = w).
  { intros [p q] c. unfold Vector2DOps.rotate. simpl.
    rewrite cos_neg, sin_neg. pose proof (sin2_cos2 c) as H.
    unfold Rsqr in H. apply vec_eq; simpl.
    - replace ((p * cos c - q * sin c) * cos c
               - (p * sin c + q * cos c) * - sin c)
        with (p * (sin c * sin c + cos c * cos c)) by ring.
      rewrite H. ring.
    - replace ((p * cos c - q * sin c) * - sin c
               + (p * sin c + q * cos c) * cos c)
        with (q * (sin c * sin c + cos c * cos c)) by ring.
      rewrite H. ring. }
  destruct v as [p q]. split; [| split; [| split]].
  - apply magnitude_eq_of_squares.
    unfold Vector2D.magnitude_squared, Vector2DOps.rotate. simpl.
    pose proof (sin2_cos2 a) as H. unfold Rsqr in H.
    replace ((p * cos a - q * sin a) * (p * cos a - q * sin a)
             + (p * sin a + q * cos a) * (p * sin a + q * cos a))
      with ((p * p + q * q) * (sin a * sin a + cos a * cos a)) by ring.
    rewrite H. ring.
  - unfold Vector2DOps.rotate. simpl. rewrite cos_plus, sin_plus.
    apply vec_eq; simpl; ring.
  - unfold Vector2DOps.rotate. simpl. rewrite cos_0, sin_0.
    apply vec_eq; simpl; ring.
  - apply C.
Qed.

(** X3: [project_onto] never raises; the projection is parallel to the
    vector projected onto, what is left of [self] is perpendicular to it,
    and the projection onto the zero vector is the zero vector. *)
Theorem project_onto_is_orthogonal_projection (v w : Vector2D.t) :
  exists p : Vector2D.t,
    Vector2DOps.project_onto v w = Ok p
    /\ Vector2DOps.cross p w = 0
    /\ Vector2D.dot (v -v p) w = 0
    /\ (w = Vector2D.mk 0 0 -> p = Vector2D.mk 0 0).
Proof.
  unfold Vector2DOps.project_onto.
  destruct (Vector2D.magnitude_squared w =? 0) eqn:E.
  - apply eqb_true in E. exists (Vector2D.mk 0 0).
    destruct v as [a b], w as [c d].
    unfold Vector2D.magnitude_squared in E. simpl in E.
    assert (c = 0) by nra. assert (d = 0) by nra. subst.
    unfold Vector2DOps.cross, Vector2D.dot. simpl.
    repeat split; ring.
  - apply eqb_false in E. rewrite truediv_ok by exact E. simpl.
    eexists. split; [reflexivity |].
    destruct v as [a b], w as [c d].
    unfold Vector2D.magnitude_squared, Vector2D.dot, Vector2DOps.cross in *.
    simpl in *. split; [| split].
    + field. exact E.
    + field. exact E.
    + intros H. injection H as -> ->. exfalso. apply E. ring.
Qed.





(** X5: the interpolation starts at [self], ends at [other], and lies at
    [|t|] times their distance from [self]. *)
Theorem lerp_endpoints_and_distance (p q : Vector2D.t) (t : R) :
  Vector2DOps.lerp p q 0 = p
  /\ Vector2DOps.lerp p q 1 = q
  /\ Vector2D.distance_to p (Vector2DOps.lerp p q t)
     = Rabs t * Vector2D.distance_to p q.
Proof.
  split; [| split].
  - apply vec_eq; simpl; ring.
  - apply vec_eq; simpl; ring.
  - unfold Vector2D.distance_to, Vector2DOps.lerp. simpl.
    rewrite <- sqrt_Rsqr_abs. rewrite <- sqrt_mult.
    + f_equal. unfold Rsqr. ring.
    + apply Rle_0_sqr.
    + apply sumsq_nonneg.
Qed.


(** ** Utilities *)

(** X6: with bounds in order, [clamp] returns a value between them, and the
    value itself when it already lies between them; with bounds out of
    order it returns the lower bound [min_val]. *)
Theorem clamp_within_bounds (value min_val max_val : R) :
  (min_val <= max_val ->
   min_val <= Utils.clamp value min_val max_val <= max_val
   /\ (min_val <= value <= max_val ->
       Utils.clamp value min_val max_val = value))
  /\ (max_val < min_val -> Utils.clamp value min_val max_val = min_val).
Proof.
  unfold Utils.clamp.
  pose proof (Rmax_l min_val (Rmin max_val value)) as M1.
  pose proof (Rmin_l max_val value) as M2.
  split; intros H.
  - split.
    + split; [exact M1 |]. apply Rmax_lub; assumption.
    + intros [H1 H2]. rewrite Rmin_right by exact H2.
      apply Rmax_right. exact H1.
  - apply Rmax_left. lra.
Qed.

Lemma clamp_within_bounds_witness :
  0 <= Utils.clamp 7 0 5 <= 5
  /\ (0 <= 7 <= 5 -> Utils.clamp 7 0 5 = 7).
Proof.
  apply (proj1 (clamp_within_bounds 7 0 5)). lra.
Defined.

(** X7: [map_range] raises [ZeroDivisionError] on an input range of width
    0; otherwise it returns, sends the ends of the input range to the ends
    of the output range, and is undone by the map in the other direction
    when the output range has a width too. *)
Theorem map_range_ends_and_round_trip
    (value in_min in_max out_min out_max : R) :
  (in_min = in_max ->
   Utils.map_range value in_min in_max out_min out_max
   = Raise ZeroDivisionError)
  /\ (in_min <> in_max ->
      Utils.map_range in_min in_min in_max out_min out_max = Ok out_min
      /\ Utils.map_range in_max in_min in_max out_min out_max = Ok out_max
      /\ exists w : R,
           Utils.map_range value in_min in_max out_min out_max = Ok w
           /\ (out_min <> out_max ->
               Utils.map_range w out_min out_max in_min in_max = Ok value)).
Proof.
  unfold Utils.map_range. split.
  - intros ->. replace (in_max - in_max) with 0 by ring.
    rewrite truediv_zero. reflexivity.
  - intros H. assert (Hd : in_max - in_min <> 0) by lra.
    rewrite !truediv_ok by exact Hd. simpl. split; [| split].
    + f_equal. field. exact Hd.
    + f_equal. field. exact Hd.
    + eexists. split; [reflexivity |]. intros Ho.
      assert (Hd' : out_max - out_min <> 0) by lra.
      rewrite truediv_ok by exact Hd'. simpl. f_equal. field.
      split; assumption.
Qed.

Lemma map_range_ends_and_round_trip_witness :
  Utils.map_range 0 0 10 100 200 = Ok 100
  /\ Utils.map_range 10 0 10 100 200 = Ok 200
  /\ exists w : R,
       Utils.map_range 5 0 10 100 200 = Ok w
       /\ (100 <> 200 -> Utils.map_range w 100 200 0 10 = Ok 5).
Proof.
  apply (proj2 (map_range_ends_and_round_trip 5 0 10 100 200)). lra.
Defined.

Lemma smooth_poly_range (t : R) : 0 <= t <= 1 -> 0 <= t * t * (3 - 2 * t) <= 1.
Proof.
  intros [H0 H1]. split.
  - apply Rmult_le_pos; [nra | lra].
  - assert (0 <= (1 - t) * (1 - t) * (1 + 2 * t))
      by (apply Rmult_le_pos; [nra | lra]).
    nra.
Qed.

(** X8: [smooth_step] raises [ZeroDivisionError] when the two edges are
    equal; between increasing edges it returns a value of [0, 1], which is
    0 up to the first edge and 1 from the second edge on. *)
Theorem smooth_step_range (edge0 edge1 x : R) :
  (edge0 = edge1 ->
   Utils.smooth_step edge0 edge1 x = Raise ZeroDivisionError)
  /\ (edge0 < edge1 ->
      exists y : R,
        Utils.smooth_step edge0 edge1 x = Ok y
        /\ 0 <= y <= 1
        /\ (x <= edge0 -> y = 0)
        /\ (edge1 <= x -> y = 1)).
Proof.
  unfold Utils.smooth_step. split.
  - intros ->. replace (edge1 - edge1) with 0 by ring.
    rewrite truediv_zero. reflexivity.
  - intros H. assert (Hd : edge1 - edge0 <> 0) by lra.
    rewrite truediv_ok by exact Hd. simpl.
    set (q := (x - edge0) / (edge1 - edge0)).
    assert (Cr : 0 <= Utils.clamp q 0 1 <= 1).
    { unfold Utils.clamp. split; [apply Rmax_l |].
      apply Rmax_lub; [lra | apply Rmin_l]. }
    eexists. split; [reflexivity |]. split; [| split].
    + apply smooth_poly_range, Cr.
    + intros Hx.
      assert (Hq : q <= 0).
      { unfold q. apply Rmult_le_reg_r with (edge1 - edge0); [lra |].
        unfold Rdiv. rewrite Rmult_assoc, Rinv_l by exact Hd. lra. }
      assert (E : Utils.clamp q 0 1 = 0).
      { unfold Utils.clamp. rewrite Rmin_right by lra.
        apply Rmax_left. exact Hq. }
      rewrite E. ring.
    + intros Hx.
      assert (Hq : 1 <= q).
      { unfold q. apply Rmult_le_reg_r with (edge1 - edge0); [lra |].
        unfold Rdiv. rewrite Rmult_assoc, Rinv_l by exact Hd. lra. }
      assert (E : Utils.clamp q 0 1 = 1).
      { unfold Utils.clamp. rewrite Rmin_left by lra.
        apply Rmax_right. lra. }
      rewrite E. ring.
Qed.

Lemma smooth_step_range_witness :
  exists y : R,
    Utils.smooth_step 0 10 5 = Ok y
    /\ 0 <= y <= 1
    /\ (5 <= 0 -> y = 0)
    /\ (10 <= 5 -> y = 1).
Proof.
  apply (proj2 (smooth_step_range 0 10 5)). lra.
Defined.

(** X9: the quadratic easing sends 0 to 0, one half to one half and 1 to
    1; on [0, 1] it stays in [0, 1] and grows with [t]; and it is symmetric
    about the centre: f(1 - t) = 1 - f(t). *)
Theorem ease_in_out_quad_shape :
  Utils.ease_in_out_quad 0 = 0
  /\ Utils.ease_in_out_quad 1 = 1
  /\ Utils.ease_in_out_quad 0.5 = 0.5
  /\ (forall t, 0 <= t <= 1 -> 0 <= Utils.ease_in_out_quad t <= 1)
  /\ (forall s t, 0 <= s -> s <= t -> t <= 1 ->
        Utils.ease_in_out_quad s <= Utils.ease_in_out_quad t)
  /\ (forall t, t <> 0.5 ->
        Utils.ease_in_out_quad (1 - t) = 1 - Utils.ease_in_out_quad t).
Proof.
  unfold Utils.ease_in_out_quad.
  split; [rewrite ltb_intro by lra; ring |].
  split; [rewrite ltb_elim by lra; ring |].
  split; [rewrite ltb_elim by lra; lra |].
  split; [| split].
  - intros t Ht.
    destruct (t <? 0.5) eqn:E; [apply ltb_true in E | apply ltb_false in E];
      split; nra.
  - intros s t H0 Hst H1.
    destruct (s <? 0.5) eqn:Es; [apply ltb_true in Es | apply ltb_false in Es];
      (destruct (t <? 0.5) eqn:Et;
       [apply ltb_true in Et | apply ltb_false in Et]); nra.
  - intros t Ht.
    destruct (t <? 0.5) eqn:Et; [apply ltb_true in Et | apply ltb_false in Et].
    + rewrite ltb_elim by lra. ring.
    + rewrite ltb_intro by lra. ring.
Qed.

Lemma ease_in_out_quad_shape_witness :
  0 <= Utils.ease_in_out_quad 0.25 <= 1.
Proof.
  apply (proj1 (proj2 (proj2 (proj2 ease_in_out_quad_shape))) 0.25).
  lra.
Defined.

(** X10: the two implementations of the distance from a point to a segment
    agree: [distance_point_to_line] of [utils.py] returns what
    [Segment.distance_to_point] returns, for every thickness, and neither
    raises, also on a segment of length 0. *)
Theorem distance_point_to_line_agrees
    (point a b : Vector2D.t) (th : R) :
  exists d : R,
    Utils.distance_point_to_line point a b = Ok d
    /\ SegmentOps.distance_to_point (mkSegment a b th) point = Ok d
    /\ 0 <= d.
Proof.
  unfold Utils.distance_point_to_line, SegmentOps.distance_to_point,
    SegmentM.closest_point_on_segment. simpl.
  destruct (Vector2D.magnitude_squared (b -v a) =? 0) eqn:E.
  - simpl. rewrite copy_id. eexists. split; [reflexivity |].
    split; [| apply magnitude_nonneg].
    rewrite distance_to_magnitude. reflexivity.
  - apply eqb_false in E. rewrite truediv_ok by exact E. simpl.
    eexists. split; [reflexivity |]. split; [reflexivity |].
    rewrite distance_to_magnitude. apply magnitude_nonneg.
Qed.


(** ** Segments *)

Lemma clamp01_cases (q : R) :
  let t := Rmax 0 (Rmin 1 q) in
  (t = q /\ 0 <= q <= 1) \/ (t = 0 /\ q <= 0) \/ (t = 1 /\ 1 <= q).
Proof.
  intros t. unfold t.
  destruct (Rle_dec q 0) as [H0 | H0].
  - right. left. split; [| exact H0].
    rewrite Rmin_right by lra. apply Rmax_left. exact H0.
  - destruct (Rle_dec q 1) as [H1 | H1].
    + left. split; [| lra]. rewrite Rmin_right by lra.
      apply Rmax_right. lra.
    + right. right. split; [| lra]. rewrite Rmin_left by lra.
      apply Rmax_right. lra.
Qed.

Lemma distance_le_of_squares (p a b : Vector2D.t) :
  Vector2D.magnitude_squared (p -v a) <= Vector2D.magnitude_squared (p -v b) ->
  Vector2D.distance_to p a <= Vector2D.distance_to p b.
Proof.
  intros H. rewrite !distance_to_magnitude. unfold Vector2D.magnitude.
  apply sqrt_le_1; try apply sumsq_nonneg. exact H.
Qed.

(** X11: [closest_point_on_segment] never raises; the point it returns lies
    on the segment, and no point of the segment is nearer to the given
    point.  On a segment of length 0 it returns the start point. *)
Theorem closest_point_is_nearest (seg : SegmentData) (p : Vector2D.t) :
  exists (cp : Vector2D.t) (t : R),
    SegmentM.closest_point_on_segment seg p = Ok cp
    /\ 0 <= t <= 1
    /\ cp = start seg +v (end_ seg -v start seg) *v t
    /\ (start seg = end_ seg -> cp = start seg)
    /\ forall u : R,
         0 <= u <= 1 ->
         Vector2D.distance_to p cp
         <= Vector2D.distance_to
              p (start seg +v (end_ seg -v start seg) *v u).
Proof.
  unfold SegmentM.closest_point_on_segment.
  destruct seg as [[sx sy] [ex ey] th]. destruct p as [px py]. simpl.
  unfold Vector2D.magnitude_squared, Vector2D.dot. simpl.
  set (lx := ex - sx). set (ly := ey - sy).
  set (M := lx * lx + ly * ly).
  destruct (M =? 0) eqn:E.
  - apply eqb_true in E.
    assert (Hx : lx = 0) by (unfold M in E; nra).
    assert (Hy : ly = 0) by (unfold M in E; nra).
    exists (Vector2D.mk sx sy), 0. split; [reflexivity |].
    split; [lra |]. split; [apply vec_eq; simpl; ring |].
    split; [reflexivity |].
    intros u _. apply distance_le_of_squares.
    unfold Vector2D.magnitude_squared. simpl. fold lx ly.
    rewrite Hx, Hy. apply Req_le. ring.
  - apply eqb_false in E. rewrite truediv_ok by exact E. simpl.
    set (q := ((px - sx) * lx + (py - sy) * ly) / M).
    set (t := Rmax 0 (Rmin 1 q)).
    assert (HM : 0 < M).
    { pose proof (sumsq_nonneg lx ly). unfold M in *. lra. }
    assert (Hq : q * M = (px - sx) * lx + (py - sy) * ly).
    { unfold q. field. exact E. }
    pose proof (clamp01_cases q) as C. fold t in C. simpl in C.
    exists (Vector2D.mk (sx + lx * t) (sy + ly * t)), t.
    split; [reflexivity |].
    split; [destruct C as [[-> ?] | [[-> ?] | [-> ?]]]; lra |].
    split; [reflexivity |].
    split.
    { intros H. injection H as Hx Hy. exfalso. apply E.
      unfold M, lx, ly. rewrite Hx, Hy. ring. }
    intros u Hu. apply distance_le_of_squares.
    unfold Vector2D.magnitude_squared. simpl. fold lx ly.
    assert (K : 0 <= M * ((u - t) * (u + t - 2 * q))).
    { apply Rmult_le_pos; [lra |].
      destruct C as [[-> ?] | [[-> ?] | [-> ?]]].
      - replace ((u - q) * (u + q - 2 * q)) with ((u - q) * (u - q)) by ring.
        apply Rle_0_sqr.
      - replace ((u - 0) * (u + 0 - 2 * q)) with (u * (u - 2 * q)) by ring.
        apply Rmult_le_pos; lra.
      - replace ((u - 1) * (u + 1 - 2 * q))
          with ((1 - u) * (2 * q - 1 - u)) by ring.
        apply Rmult_le_pos; lra. }
    replace (M * ((u - t) * (u + t - 2 * q)))
      with (M * u * u - M * t * t - 2 * (u - t) * (q * M)) in K by ring.
    rewrite Hq in K. unfold M in K. nra.
Qed.




(** ** Bodies *)

(** X13: a static circle is built with inverse mass 0 whatever its mass,
    the mass 0 included; a non-static circle of mass 0 cannot be built, the
    constructor raises [ZeroDivisionError]; a non-static circle of finite
    non-zero mass has the inverse of its mass as inverse mass, and one of
    infinite mass the inverse mass 0.  A new body is at rest at a copy of
    the given position. *)
Theorem circle_constructor_inverse_mass
    (p : Vector2D.t) (radius : R) (m : Py.xfloat) :
  (exists b, Circle_init p radius m true = Ok b
             /\ inv_mass b = 0 /\ static b = true /\ position b = p
             /\ velocity b = Vector2D.mk 0 0 /\ shape b = Circle radius)
  /\ Circle_init p radius (Py.Fin 0) false = Raise ZeroDivisionError
  /\ (exists b, Circle_init p radius Py.Inf false = Ok b /\ inv_mass b = 0)
  /\ (forall r : R,
        m = Py.Fin r -> r <> 0 ->
        exists b, Circle_init p radius m false = Ok b
                  /\ inv_mass b * r = 1 /\ static b = false
                  /\ position b = p /\ velocity b = Vector2D.mk 0 0
                  /\ shape b = Circle radius).
Proof.
  unfold Circle_init, PhysicsBody_init. split; [| split; [| split]].
  - simpl. eexists. split; [reflexivity |]. simpl. rewrite copy_id.
    repeat split.
  - simpl. rewrite truediv_zero. reflexivity.
  - simpl. eexists. split; [reflexivity |]. reflexivity.
  - intros r -> Hr. simpl. rewrite truediv_ok by exact Hr. simpl.
    eexists. split; [reflexivity |]. simpl. rewrite copy_id.
    repeat split. field. exact Hr.
Qed.

Lemma circle_constructor_inverse_mass_witness :
  exists b, Circle_init (Vector2D.mk 0 0) 5 (Py.Fin 2) false = Ok b
            /\ inv_mass b * 2 = 1 /\ static b = false
            /\ position b = Vector2D.mk 0 0
            /\ velocity b = Vector2D.mk 0 0
            /\ shape b = Circle 5.
Proof.
  apply (proj2 (proj2 (proj2
           (circle_constructor_inverse_mass (Vector2D.mk 0 0) 5 (Py.Fin 2))))
           2 eq_refl).
  lra.
Defined.

(** ** Rings *)

(** X14: [collision_with_circle] never raises, and answers by the distance
    [d] of the centres: [None] for a circle wholly inside the hole
    ([d + r < inner]), wholly outside ([d - r > outer]) or with its centre
    in the gap; otherwise a hit of the inner border when [d < inner + r],
    else a hit of the outer border when [d + r > outer], both with a
    positive penetration; and the empty dictionary, which the detector
    takes for no contact, exactly for a circle (of non-negative radius)
    that lies within the band with its centre out of the gap. *)
Theorem ring_collision_cases
    (self : PhysicsBody) (ring : RingData) (c : Vector2D.t) (r : R) :
  let d := Vector2D.distance_to (position self) c in
  exists res : RingCollision,
    RingM.collision_with_circle self ring c r = Ok res
    /\ (d + r < inner_radius ring -> res = RingNone)
    /\ (outer_radius ring < d - r -> res = RingNone)
    /\ (RingM.point_in_gap self ring c = true -> res = RingNone)
    /\ (forall type normal penetration contact_point,
          res = RingHit type normal penetration contact_point ->
          0 < penetration
          /\ ((type = "inner"%string
               /\ penetration = inner_radius ring + r - d
               /\ contact_point
                  = position self +v normal *v inner_radius ring)
              \/ (type = "outer"%string
                  /\ penetration = r + d - outer_radius ring
                  /\ inner_radius ring + r <= d)))
    /\ (res = RingEmpty ->
        RingM.point_in_gap self ring c = false
        /\ inner_radius ring + r <= d <= outer_radius ring - r)
    /\ (0 <= r ->
        RingM.point_in_gap self ring c = false ->
        inner_radius ring + r <= d <= outer_radius ring - r ->
        res = RingEmpty).
Proof.
  intros d. unfold RingM.collision_with_circle. fold d.
  assert (G : RingM.has_gap ring && RingM.point_in_gap self ring c
              = RingM.point_in_gap self ring c).
  { unfold RingM.point_in_gap. destruct (RingM.has_gap ring); reflexivity. }
  rewrite G. unfold Py.gtb.
  destruct (d + r <? inner_radius ring) eqn:E1;
    [apply ltb_true in E1 | apply ltb_false in E1].
  { exists RingNone. split; [reflexivity |].
    split; [reflexivity |]. split; [reflexivity |]. split; [reflexivity |].
    split; [intros ? ? ? ? H; discriminate H |].
    split; [intros H; discriminate H | intros; lra]. }
  destruct (outer_radius ring <? d - r) eqn:E2;
    [apply ltb_true in E2 | apply ltb_false in E2].
  { exists RingNone. split; [reflexivity |].
    split; [reflexivity |]. split; [reflexivity |]. split; [reflexivity |].
    split; [intros ? ? ? ? H; discriminate H |].
    split; [intros H; discriminate H | intros; lra]. }
  destruct (RingM.point_in_gap self ring c) eqn:E3.
  { exists RingNone. split; [reflexivity |].
    split; [reflexivity |]. split; [reflexivity |]. split; [reflexivity |].
    split; [intros ? ? ? ? H; discriminate H |].
    split; [intros H; discriminate H | intros ? H; discriminate H]. }
  destruct (d <? inner_radius ring + r) eqn:E4;
    [apply ltb_true in E4 | apply ltb_false in E4].
  { destruct (normalized_returns (c -v position self)) as [n Hn].
    rewrite Hn. simpl. eexists. split; [reflexivity |].
    split; [intros; lra |]. split; [intros; lra |].
    split; [intros H; discriminate H |]. split.
    - intros type normal penetration contact_point H.
      injection H as <- <- <- <-. split; [lra |]. left.
      split; [reflexivity |]. split; reflexivity.
    - split; [intros H; discriminate H |]. intros. lra. }
  destruct (outer_radius ring <? d + r) eqn:E5;
    [apply ltb_true in E5 | apply ltb_false in E5].
  { destruct (normalized_returns (position self -v c)) as [n Hn].
    destruct (normalized_returns (c -v position self)) as [o Ho].
    rewrite Hn. simpl. rewrite Ho. simpl. eexists. split; [reflexivity |].
    split; [intros; lra |]. split; [intros; lra |].
    split; [intros H; discriminate H |]. split.
    - intros type normal penetration contact_point H.
      injection H as <- <- <- <-. split; [lra |]. right.
      split; [reflexivity |]. split; [reflexivity | exact E4].
    - split; [intros H; discriminate H |]. intros. lra. }
  exists RingEmpty. split; [reflexivity |].
  split; [intros; lra |]. split; [intros; lra |].
  split; [intros H; discriminate H |].
  split; [intros ? ? ? ? H; discriminate H |].
  split; [| reflexivity]. intros _. split; [reflexivity | lra].
Qed.

Lemma mod360_absorbs (a b : R) :
  Py.mod360 (a + Py.mod360 b) = Py.mod360 (a + b).
Proof.
  destruct (mod360_shift b) as [k Ek]. rewrite Ek.
  destruct (mod360_shift (a + b)) as [j Ej].
  pose proof (mod360_range (a + b)) as Hr. rewrite Ej in *.
  rewrite (mod360_spec (a + (b - 360 * IZR k)) (j - k)).
  - rewrite minus_IZR. ring.
  - rewrite minus_IZR. lra.
Qed.

(** X15: [update_rotation] leaves a rotation that is not negative and not
    above 360 (on floats the remainder of a tiny negative angle is rounded
    to 360.0 itself, so 360 is not excluded), and bringing the rotation
    back into that range does not change which points are in the gap:
    [point_in_gap] answers after the update as it would with the rotation
    [rotation + rotation_speed * dt] left as it is. *)
Theorem update_rotation_wraps_without_moving_gap
    (self : PhysicsBody) (ring : RingData) (rotation_speed dt : R)
    (point : Vector2D.t) :
  0 <= rotation (RingOps.update_rotation ring rotation_speed dt) <= 360
  /\ RingM.point_in_gap self
       (RingOps.update_rotation ring rotation_speed dt) point
     = RingM.point_in_gap self
         (mkRing (inner_radius ring) (outer_radius ring) (gap_angle ring)
                 (gap_start ring) (rotation ring + rotation_speed * dt))
         point.
Proof.
  split.
  - simpl. pose proof (mod360_range (rotation ring + rotation_speed * dt)).
    lra.
  - unfold RingM.point_in_gap, RingM.has_gap. simpl.
    rewrite mod360_absorbs. reflexivity.
Qed.


(** ** The narrow phase as a whole *)

Lemma closest_point_returns (seg : SegmentData) (p : Vector2D.t) :
  exists cp, SegmentM.closest_point_on_segment seg p = Ok cp.
Proof.
  unfold SegmentM.closest_point_on_segment.
  destruct (_ =? 0) eqn:E.
  - eexists. reflexivity.
  - apply eqb_false in E. rewrite truediv_ok by exact E. eexists.
    reflexivity.
Qed.

Lemma get_normal_returns (seg : SegmentData) :
  exists n, SegmentM.get_normal seg = Ok n.
Proof.
  unfold SegmentM.get_normal, SegmentM.get_direction.
  destruct (normalized_returns (end_ seg -v start seg)) as [d Hd].
  rewrite Hd. eexists. reflexivity.
Qed.

Lemma circle_circle_returns (s : Store) (a b : nat) :
  exists r, CollisionDetector._circle_circle_collision s a b = Ok r
            /\ forall c, r = Some c ->
                 body_a c = a /\ body_b c = b /\ 0 < penetration c
                 /\ exists rad, shape (s a) = Circle rad.
Proof.
  unfold CollisionDetector._circle_circle_collision.
  destruct (shape (s a)) as [ra | |];
    try (exists None; split; [reflexivity | intros c H; discriminate H]).
  destruct (shape (s b)) as [rb | |];
    try (exists None; split; [reflexivity | intros c H; discriminate H]).
  destruct (_ <? _) eqn:E1;
    [| exists None; split; [reflexivity | intros c H; discriminate H]].
  destruct (_ >? _) eqn:E2;
    [| exists None; split; [reflexivity | intros c H; discriminate H]].
  simpl.
  destruct (normalized_returns (position (s b) -v position (s a)))
    as [n Hn]. rewrite Hn. simpl. eexists. split; [reflexivity |].
  intros c H. injection H as <-. simpl. apply ltb_true in E1.
  repeat split; try lra. exists ra. reflexivity.
Qed.

Lemma circle_segment_returns (s : Store) (a b : nat) :
  exists r, CollisionDetector._circle_segment_collision s a b = Ok r
            /\ forall c, r = Some c ->
                 body_a c = a /\ body_b c = b /\ 0 < penetration c
                 /\ exists rad, shape (s a) = Circle rad.
Proof.
  unfold CollisionDetector._circle_segment_collision.
  destruct (shape (s a)) as [ra | |];
    try (exists None; split; [reflexivity | intros c H; discriminate H]).
  destruct (shape (s b)) as [| sg |];
    try (exists None; split; [reflexivity | intros c H; discriminate H]).
  destruct (closest_point_returns sg (position (s a))) as [cp Hcp].
  rewrite Hcp. simpl.
  destruct (_ <? _) eqn:E1;
    [| exists None; split; [reflexivity | intros c H; discriminate H]].
  apply ltb_true in E1.
  assert (N : exists n,
            (if Vector2D.distance_to (position (s a)) cp >? 0
             then Vector2D.normalized (position (s a) -v cp)
             else SegmentM.get_normal sg) = Ok n).
  { destruct (_ >? _);
      [apply normalized_returns | apply get_normal_returns]. }
  destruct N as [n Hn]. rewrite Hn. simpl. eexists. split; [reflexivity |].
  intros c H. injection H as <-. simpl.
  repeat split; try lra. exists ra. reflexivity.
Qed.

Lemma ring_collision_returns (self : PhysicsBody) (ring : RingData)
    (c : Vector2D.t) (r : R) :
  exists res, RingM.collision_with_circle self ring c r = Ok res
              /\ forall type normal penetration contact_point,
                   res = RingHit type normal penetration contact_point ->
                   0 < penetration.
Proof.
  unfold RingM.collision_with_circle.
  destruct (_ <? _);
    [exists RingNone; split; [reflexivity | intros ? ? ? ? H; discriminate H] |].
  destruct (_ >? _);
    [exists RingNone; split; [reflexivity | intros ? ? ? ? H; discriminate H] |].
  destruct (_ && _);
    [exists RingNone; split; [reflexivity | intros ? ? ? ? H; discriminate H] |].
  destruct (_ <? _) eqn:E4.
  { apply ltb_true in E4.
    destruct (normalized_returns (c -v position self)) as [n Hn].
    rewrite Hn. simpl. eexists. split; [reflexivity |].
    intros ? ? ? ? H. injection H as <- <- <- <-. lra. }
  destruct (_ >? _) eqn:E5.
  { unfold Py.gtb in E5. apply ltb_true in E5.
    destruct (normalized_returns (position self -v c)) as [n Hn].
    destruct (normalized_returns (c -v position self)) as [o Ho].
    rewrite Hn. simpl. rewrite Ho. simpl. eexists. split; [reflexivity |].
    intros ? ? ? ? H. injection H as <- <- <- <-. lra. }
  exists RingEmpty. split; [reflexivity | intros ? ? ? ? H; discriminate H].
Qed.

Lemma circle_ring_returns (s : Store) (a b : nat) :
  exists r, CollisionDetector._circle_ring_collision s a b = Ok r
            /\ forall c, r = Some c ->
                 body_a c = a /\ body_b c = b /\ 0 < penetration c
                 /\ exists rad, shape (s a) = Circle rad.
Proof.
  unfold CollisionDetector._circle_ring_collision.
  destruct (shape (s a)) as [ra | |];
    try (exists None; split; [reflexivity | intros c H; discriminate H]).
  destruct (shape (s b)) as [| | rg];
    try (exists None; split; [reflexivity | intros c H; discriminate H]).
  destruct (ring_collision_returns (s b) rg (position (s a)) ra)
    as (res & E & Hp). rewrite E. simpl.
  destruct res as [| | ty n p cp];
    try (exists None; split; [reflexivity | intros c H; discriminate H]).
  eexists. split; [reflexivity |].
  intros c H. injection H as <-. simpl.
  repeat split; [eapply Hp; reflexivity | exists ra; reflexivity].
Qed.

(** X16: the narrow phase never raises; a contact it returns is between
    the two bodies given, has a circle as body A and a positive
    penetration; and two bodies neither of which is a circle never give a
    contact. *)
Theorem narrow_phase_returns (s : Store) (a b : nat) :
  exists r : option CollisionInfo,
    CollisionDetector._check_collision s a b = Ok r
    /\ (forall c, r = Some c ->
          ((body_a c = a /\ body_b c = b) \/ (body_a c = b /\ body_b c = a))
          /\ 0 < penetration c
          /\ exists rad, shape (s (body_a c)) = Circle rad)
    /\ ((forall rad, shape (s a) <> Circle rad) ->
        (forall rad, shape (s b) <> Circle rad) -> r = None).
Proof.
  unfold CollisionDetector._check_collision.
  destruct (shape (s a)) as [ra | sa | ga] eqn:Ea;
    destruct (shape (s b)) as [rb | sb | gb] eqn:Eb.
  - destruct (circle_circle_returns s a b) as (r & E & H). exists r.
    split; [exact E |]. split.
    + intros c Hc. destruct (H c Hc) as (A & B & P & rad & Hr).
      split; [left; split; assumption |]. split; [exact P |].
      exists rad. rewrite A. exact Hr.
    + intros N _. exfalso. apply (N ra). reflexivity.
  - destruct (circle_segment_returns s a b) as (r & E & H). exists r.
    split; [exact E |]. split.
    + intros c Hc. destruct (H c Hc) as (A & B & P & rad & Hr).
      split; [left; split; assumption |]. split; [exact P |].
      exists rad. rewrite A. exact Hr.
    + intros N _. exfalso. apply (N ra). reflexivity.
  - destruct (circle_ring_returns s a b) as (r & E & H). exists r.
    split; [exact E |]. split.
    + intros c Hc. destruct (H c Hc) as (A & B & P & rad & Hr).
      split; [left; split; assumption |]. split; [exact P |].
      exists rad. rewrite A. exact Hr.
    + intros N _. exfalso. apply (N ra). reflexivity.
  - destruct (circle_segment_returns s b a) as (r & E & H). exists r.
    split; [exact E |]. split.
    + intros c Hc. destruct (H c Hc) as (A & B & P & rad & Hr).
      split; [right; split; assumption |]. split; [exact P |].
      exists rad. rewrite A. exact Hr.
    + intros _ N. exfalso. apply (N rb). reflexivity.
  - exists None. split; [reflexivity |].
    split; [intros c H; discriminate H | reflexivity].
  - exists None. split; [reflexivity |].
    split; [intros c H; discriminate H | reflexivity].
  - destruct (circle_ring_returns s b a) as (r & E & H). exists r.
    split; [exact E |]. split.
    + intros c Hc. destruct (H c Hc) as (A & B & P & rad & Hr).
      split; [right; split; assumption |]. split; [exact P |].
      exists rad. rewrite A. exact Hr.
    + intros _ N. exfalso. apply (N rb). reflexivity.
  - exists None. split; [reflexivity |].
    split; [intros c H; discriminate H | reflexivity].
  - exists None. split; [reflexivity |].
    split; [intros c H; discriminate H | reflexivity].
Qed.

Lemma unit_of_neg (v w : Vector2D.t) :
  w = Vector2D.__neg__ v ->
  unit_of w = Vector2D.__neg__ (unit_of v).
Proof.
  intros ->. unfold unit_of.
  assert (E : Vector2D.magnitude (Vector2D.__neg__ v) = Vector2D.magnitude v).
  { apply magnitude_eq_of_squares. unfold Vector2D.magnitude_squared.
    simpl. ring. }
  rewrite E. unfold Vector2D.__neg__. simpl.
  unfold Rdiv. f_equal; ring.
Qed.

(** X17: detection does not depend on the order of the two bodies.  Two
    circles give a contact in one order exactly when they do in the other,
    with the same penetration and opposite normals; a circle and a segment,
    or a circle and a ring, give the same answer in both orders. *)
Theorem narrow_phase_symmetry (s : Store) (a b : nat) :
  (forall c,
     CollisionDetector._circle_circle_collision s a b = Ok (Some c) ->
     exists c',
       CollisionDetector._circle_circle_collision s b a = Ok (Some c')
       /\ body_a c' = body_b c /\ body_b c' = body_a c
       /\ penetration c' = penetration c
       /\ normal c' = Vector2D.__neg__ (normal c))
  /\ (CollisionDetector._circle_circle_collision s a b = Ok None ->
      CollisionDetector._circle_circle_collision s b a = Ok None)
  /\ ((forall ra rb, shape (s a) = Circle ra -> shape (s b) <> Circle rb) ->
      CollisionDetector._check_collision s a b
      = CollisionDetector._check_collision s b a).
Proof.
  split; [| split].
  - unfold CollisionDetector._circle_circle_collision.
    destruct (shape (s a)) as [ra | |]; try discriminate.
    destruct (shape (s b)) as [rb | |]; try discriminate.
    rewrite (distance_to_sym (position (s b)) (position (s a))).
    replace (rb + ra) with (ra + rb) by ring.
    destruct (_ <? _) eqn:E1; [| discriminate].
    destruct (_ >? _) eqn:E2; [| discriminate]. simpl.
    unfold Py.gtb in E2. apply ltb_true in E2.
    assert (Mab : Vector2D.magnitude (position (s b) -v position (s a)) <> 0).
    { rewrite <- distance_to_magnitude, distance_to_sym. lra. }
    assert (Mba : Vector2D.magnitude (position (s a) -v position (s b)) <> 0).
    { rewrite <- distance_to_magnitude. lra. }
    rewrite (normalized_nonzero _ Mab), (normalized_nonzero _ Mba). simpl.
    intros c H. injection H as <-. eexists. split; [reflexivity |]. simpl.
    repeat split. apply unit_of_neg. apply vec_eq; simpl; ring.
  - unfold CollisionDetector._circle_circle_collision.
    destruct (shape (s a)) as [ra | |]; destruct (shape (s b)) as [rb | |];
      try reflexivity.
    rewrite (distance_to_sym (position (s b)) (position (s a))).
    replace (rb + ra) with (ra + rb) by ring.
    destruct (_ <? _); [| reflexivity].
    destruct (_ >? _); [| reflexivity]. simpl.
    destruct (normalized_returns (position (s b) -v position (s a)))
      as [n Hn]. rewrite Hn. simpl. discriminate.
  - intros H. unfold CollisionDetector._check_collision.
    destruct (shape (s a)) as [ra | sa | ga] eqn:Ea;
      destruct (shape (s b)) as [rb | sb | gb] eqn:Eb; try reflexivity.
    exfalso. apply (H ra rb); reflexivity.
Qed.


(** ** The detector as a whole *)

Lemma check_collision_returns (s : Store) (a b : nat) :
  exists r, CollisionDetector._check_collision s a b = Ok r.
Proof.
  unfold CollisionDetector._check_collision.
  destruct (shape (s a)), (shape (s b)); try (eexists; reflexivity).
  - destruct (circle_circle_returns s a b) as (r & E & _). exists r. exact E.
  - destruct (circle_segment_returns s a b) as (r & E & _). exists r. exact E.
  - destruct (circle_ring_returns s a b) as (r & E & _). exists r. exact E.
  - destruct (circle_segment_returns s b a) as (r & E & _). exists r. exact E.
  - destruct (circle_ring_returns s b a) as (r & E & _). exists r. exact E.
Qed.

(** A contact in one order is a contact in the other. *)
Lemma check_collision_swap (s : Store) (a b : nat) (c : CollisionInfo) :
  CollisionDetector._check_collision s a b = Ok (Some c) ->
  exists c', CollisionDetector._check_collision s b a = Ok (Some c').
Proof.
  unfold CollisionDetector._check_collision.
  destruct (shape (s a)) as [ra | sa | ga] eqn:Ea;
    destruct (shape (s b)) as [rb | sb | gb] eqn:Eb;
    try (intros H; exists c; exact H); try discriminate.
  unfold CollisionDetector._circle_circle_collision. rewrite Ea, Eb.
  rewrite (distance_to_sym (position (s b)) (position (s a))).
  replace (rb + ra) with (ra + rb) by ring.
  destruct (_ && _); [| discriminate]. intros _.
  destruct (normalized_returns (position (s a) -v position (s b)))
    as [n Hn]. rewrite Hn. simpl. eexists. reflexivity.
Qed.

Lemma check_all_spec (s : Store) (l : list (nat * nat)) :
  exists cs,
    CollisionDetector.check_all s l = Ok cs
    /\ forall c, In c cs <->
         exists a b, In (a, b) l
           /\ CollisionDetector._check_collision s a b = Ok (Some c).
Proof.
  induction l as [| [a b] l (cs & E & H)]; simpl.
  - exists []. split; [reflexivity |]. intros c. split; [intros [] |].
    intros (a & b & [] & _).
  - destruct (check_collision_returns s a b) as [r Er]. rewrite Er, E. simpl.
    destruct r as [c0 |].
    + exists (c0 :: cs). split; [reflexivity |]. intros c. split.
      * intros [<- | Hin].
        -- exists a, b. split; [left; reflexivity | exact Er].
        -- apply H in Hin. destruct Hin as (x & y & Hxy & Hc).
           exists x, y. split; [right; exact Hxy | exact Hc].
      * intros (x & y & [Hh | Hxy] & Hc).
        -- injection Hh as <- <-. rewrite Er in Hc. injection Hc as ->.
           left. reflexivity.
        -- right. apply H. exists x, y. split; assumption.
    + exists cs. split; [reflexivity |]. intros c. split.
      * intros Hin. apply H in Hin. destruct Hin as (x & y & Hxy & Hc).
        exists x, y. split; [right; exact Hxy | exact Hc].
      * intros (x & y & [Hh | Hxy] & Hc).
        -- injection Hh as <- <-. rewrite Er in Hc. discriminate.
        -- apply H. exists x, y. split; assumption.
Qed.

Lemma In_pairs_of (l : list nat) (a b : nat) :
  In (a, b) (pairs_of l) -> In a l /\ In b l.
Proof.
  induction l as [| x l IH]; simpl; [intros [] |].
  intros H. apply in_app_or in H. destruct H as [H | H].
  - apply in_map_iff in H. destruct H as (y & E & Hy).
    injection E as <- <-. split; [left; reflexivity | right; exact Hy].
  - destruct (IH H) as [Ha Hb]. split; right; assumption.
Qed.

Lemma length_pairs_of (l : list nat) :
  (2 * List.length (pairs_of l)
   = List.length l * (List.length l - 1))%nat.
Proof.
  induction l as [| x l IH]; simpl; [reflexivity |].
  rewrite length_app, length_map. nia.
Qed.

(** X18: without the grid, [detect_collisions] never raises; it returns
    exactly the contacts the narrow phase finds between two bodies of the
    list, the earlier one first, that are not both static; and it counts
    one check for each of the n(n-1)/2 pairs and one found contact for each
    contact returned. *)
Theorem naive_detection_spec
    (self : CollisionDetector.t) (s : Store) (bodies : list nat) :
  CollisionDetector.use_spatial_optimization self = false
  \/ CollisionDetector.spatial_grid self = None ->
  exists cs self',
    CollisionDetector.detect_collisions self s bodies = Ok (cs, self')
    /\ (forall c, In c cs <->
          exists a b, In (a, b) (pairs_of bodies)
            /\ (static (s a) = false \/ static (s b) = false)
            /\ CollisionDetector._check_collision s a b = Ok (Some c))
    /\ (2 * CollisionDetector.collision_checks self'
        = Z.of_nat (List.length bodies)
          * (Z.of_nat (List.length bodies) - 1))%Z
    /\ CollisionDetector.collisions_found self'
       = Z.of_nat (List.length cs).
Proof.
  intros Hpath.
  destruct (check_all_spec s (CollisionDetector.naive_candidates s bodies))
    as (cs & E & H).
  assert (D : CollisionDetector.detect_collisions self s bodies
              = Ok (cs,
                    CollisionDetector.mk
                      (CollisionDetector.use_spatial_optimization self)
                      (CollisionDetector.spatial_grid self)
                      (CollisionDetector.cell_size self)
                      (Z.of_nat (List.length (pairs_of bodies)))
                      (Z.of_nat (List.length cs)))).
  { unfold CollisionDetector.detect_collisions.
    destruct Hpath as [-> | ->].
    - rewrite E. reflexivity.
    - destruct (CollisionDetector.use_spatial_optimization self);
        rewrite E; reflexivity. }
  eexists. eexists. split; [exact D |]. simpl. split; [| split].
  - intros c. rewrite H. split.
    + intros (a & b & Hin & Hc). exists a, b.
      unfold CollisionDetector.naive_candidates in Hin.
      apply filter_In in Hin. destruct Hin as [Hin Hf]. simpl in Hf.
      split; [exact Hin |]. split; [| exact Hc].
      destruct (static (s a)), (static (s b)); simpl in Hf;
        try discriminate; auto.
    + intros (a & b & Hin & Hst & Hc). exists a, b. split; [| exact Hc].
      unfold CollisionDetector.naive_candidates. apply filter_In.
      split; [exact Hin |]. simpl.
      destruct Hst as [-> | ->]; [reflexivity |].
      destruct (static (s a)); reflexivity.
  - pose proof (length_pairs_of bodies) as L.
    set (n := List.length bodies) in *.
    set (k := List.length (pairs_of bodies)) in *.
    change (2 * Z.of_nat k = Z.of_nat n * (Z.of_nat n - 1))%Z.
    clearbody n k. clear - L.
    destruct n as [| n]; [simpl in L; lia |].
    replace (S n - 1)%nat with n in L by lia. nia.
  - reflexivity.
Qed.

Lemma naive_detection_spec_witness :
  exists cs self',
    CollisionDetector.detect_collisions (CollisionDetector.init false 100)
                                        scene_static_pair [0; 1]%nat
    = Ok (cs, self')
    /\ (2 * CollisionDetector.collision_checks self' = 2 * (2 - 1))%Z
    /\ CollisionDetector.collisions_found self' = Z.of_nat (List.length cs).
Proof.
  destruct (naive_detection_spec (CollisionDetector.init false 100)
              scene_static_pair [0; 1]%nat)
    as (cs & d & E & _ & Hc & Hf).
  - left. reflexivity.
  - exists cs, d. split; [exact E |]. split; [exact Hc | exact Hf].
Defined.


(** ** The spatial grid's candidate pairs *)

Lemma yield_new_sub (candidates : list (nat * nat)) :
  forall (seen : list (nat * nat)) (p : nat * nat),
    In p (SpatialGrid.yield_new candidates seen) ->
    In p candidates /\ ~ In (pair_key p) seen.
Proof.
  induction candidates as [| [x y] rest IH]; intros seen p; simpl;
    [intros [] |].
  change (Nat.min x y, Nat.max x y) with (pair_key (x, y)).
  destruct (existsb (pair_eqb (pair_key (x, y))) seen) eqn:E.
  - intros H. destruct (IH _ _ H) as [H1 H2]. split; [right |]; assumption.
  - intros [<- | H].
    + split; [left; reflexivity |]. intros K.
      apply existsb_pair_eqb in K. congruence.
    + destruct (IH _ _ H) as [H1 H2]. split; [right; exact H1 |].
      intros K. apply H2. right. exact K.
Qed.

Lemma yield_new_nodup (candidates : list (nat * nat)) :
  forall seen : list (nat * nat),
    NoDup (map pair_key (SpatialGrid.yield_new candidates seen)).
Proof.
  induction candidates as [| [x y] rest IH]; intros seen; simpl;
    [constructor |].
  change (Nat.min x y, Nat.max x y) with (pair_key (x, y)).
  destruct (existsb (pair_eqb (pair_key (x, y))) seen); [apply IH |].
  simpl. constructor; [| apply IH].
  intros K. apply in_map_iff in K. destruct K as (p & Ep & Hp).
  apply yield_new_sub in Hp. destruct Hp as [_ Hp]. apply Hp.
  left. symmetry. exact Ep.
Qed.

(** X19: whatever the grid holds, [get_potential_collisions] yields only
    pairs of bodies filed under one common cell, the first of the two
    earlier in that cell's list, and it yields no unordered pair twice. *)
Theorem potential_collisions_sound_and_unique (g : SpatialGrid.t) :
  (forall a b, In (a, b) (SpatialGrid.get_potential_collisions g) ->
     exists cell l, In (cell, l) (SpatialGrid.grid g)
                    /\ In (a, b) (pairs_of l))
  /\ NoDup (map pair_key (SpatialGrid.get_potential_collisions g)).
Proof.
  unfold SpatialGrid.get_potential_collisions. split.
  - intros a b H. apply yield_new_sub in H. destruct H as [H _].
    apply in_flat_map in H. destruct H as ([cell l] & Hin & Hp).
    exists cell, l. split; [exact Hin | exact Hp].
  - apply yield_new_nodup.
Qed.

(** ** The grid path of the detector *)

Lemma grid_append_members (P : nat -> Prop) (cell : Z * Z) (id : nat) :
  P id ->
  forall g : list ((Z * Z) * list nat),
    (forall c l j, In (c, l) g -> In j l -> P j) ->
    forall c l j,
      In (c, l) (SpatialGrid.grid_append g cell id) -> In j l -> P j.
Proof.
  intros Hid. induction g as [| [c0 l0] g IH]; intros Hg c l j; simpl.
  - intros [E | []] Hj. injection E as <- <-.
    destruct Hj as [<- | []]. exact Hid.
  - destruct (cell_eqb c0 cell).
    + intros [E | Hin] Hj.
      * injection E as <- <-. apply in_app_or in Hj.
        destruct Hj as [Hj | [<- | []]]; [| exact Hid].
        apply (Hg c0 l0); [left; reflexivity | exact Hj].
      * apply (Hg c l); [right; exact Hin | exact Hj].
    + intros [E | Hin] Hj.
      * injection E as <- <-. apply (Hg c0 l0); [left; reflexivity | exact Hj].
      * apply (IH (fun c l j H => Hg c l j (or_intror H)) c l j Hin Hj).
Qed.

Lemma fold_append_members (P : nat -> Prop) (id : nat) (cells : list (Z * Z)) :
  P id ->
  forall g : list ((Z * Z) * list nat),
    (forall c l j, In (c, l) g -> In j l -> P j) ->
    forall c l j,
      In (c, l) (fold_left (fun g cell => SpatialGrid.grid_append g cell id)
                           cells g) ->
      In j l -> P j.
Proof.
  intros Hid. induction cells as [| cell cells IH]; intros g Hg; simpl.
  - exact Hg.
  - apply IH. apply grid_append_members; assumption.
Qed.

Lemma insert_all_members (P : nat -> Prop) (s : Store) (bodies : list nat) :
  forall g g' : SpatialGrid.t,
    (forall i, In i bodies -> P i) ->
    (forall c l j, In (c, l) (SpatialGrid.grid g) -> In j l -> P j) ->
    CollisionDetector.insert_all g s bodies = Ok g' ->
    forall c l j, In (c, l) (SpatialGrid.grid g') -> In j l -> P j.
Proof.
  induction bodies as [| b bodies IH]; intros g g' Hb Hg; simpl.
  - intros E. injection E as <-. exact Hg.
  - unfold SpatialGrid.insert.
    destruct (SpatialGrid._get_cells_for_body g (s b)) as [cells | e];
      [| discriminate].
    simpl. apply IH.
    + intros i Hi. apply Hb. right. exact Hi.
    + simpl. apply fold_append_members; [apply Hb; left; reflexivity |].
      exact Hg.
Qed.

(** X20: with the grid switched on, cells of positive size and no negative
    radius or thickness, [detect_collisions] never raises and loses no
    contact: for every two distinct bodies of the list between which the
    narrow phase finds a contact, the result holds the contact of that pair
    in one order or the other.  Every contact returned is one the narrow
    phase finds between two bodies of the list, and the counter of found
    contacts is the length of the result. *)
Theorem grid_detection_complete
    (self : CollisionDetector.t) (g : SpatialGrid.t) (s : Store)
    (bodies : list nat) :
  CollisionDetector.use_spatial_optimization self = true ->
  CollisionDetector.spatial_grid self = Some g ->
  0 < SpatialGrid.cell_size g ->
  (forall i, In i bodies -> sizes_nonnegative (s i)) ->
  exists cs self',
    CollisionDetector.detect_collisions self s bodies = Ok (cs, self')
    /\ (forall a b c,
          In a bodies -> In b bodies -> a <> b ->
          CollisionDetector._check_collision s a b = Ok (Some c) ->
          exists c', In c' cs
            /\ (CollisionDetector._check_collision s a b = Ok (Some c')
                \/ CollisionDetector._check_collision s b a = Ok (Some c')))
    /\ (forall c, In c cs ->
          exists a b, In a bodies /\ In b bodies
            /\ CollisionDetector._check_collision s a b = Ok (Some c))
    /\ CollisionDetector.collisions_found self' = Z.of_nat (List.length cs).
Proof.
  intros Hu Hg Hc Hsz.
  destruct (insert_all_returns s bodies (SpatialGrid.clear g)) as [g' Eg].
  { simpl. lra. }
  destruct (check_all_spec s (SpatialGrid.get_potential_collisions g'))
    as (cs & E & H).
  exists cs. eexists. split; [| split; [| split]].
  - unfold CollisionDetector.detect_collisions. rewrite Hu, Hg, Eg. simpl.
    rewrite E. simpl. reflexivity.
  - intros a b c Ha Hb Hab Hhit.
    destruct (grid_candidates_cover_contacts g g' s bodies a b c
                Hc Hsz Eg Ha Hb Hab Hhit) as [Hin | Hin].
    + exists c. split; [| left; exact Hhit].
      apply H. exists a, b. split; assumption.
    + destruct (check_collision_swap s a b c Hhit) as [c' Hc'].
      exists c'. split; [| right; exact Hc'].
      apply H. exists b, a. split; assumption.
  - intros c Hin. apply H in Hin. destruct Hin as (a & b & Hab & Hhit).
    exists a, b.
    unfold SpatialGrid.get_potential_collisions in Hab.
    apply yield_new_sub in Hab. destruct Hab as [Hab _].
    apply in_flat_map in Hab. destruct Hab as ([cell l] & Hl & Hp).
    simpl in Hp. apply In_pairs_of in Hp. destruct Hp as [Pa Pb].
    assert (M : forall c l j, In (c, l) (SpatialGrid.grid g') -> In j l ->
                              In j bodies).
    { apply (insert_all_members (fun j => In j bodies) s bodies
               (SpatialGrid.clear g) g'); [auto | | exact Eg].
      simpl. intros ? ? ? []. }
    split; [apply (M cell l a Hl Pa) |].
    split; [apply (M cell l b Hl Pb) | exact Hhit].
  - reflexivity.
Qed.

Lemma grid_detection_complete_witness :
  exists cs self',
    CollisionDetector.detect_collisions
      (CollisionDetector.mk true
         (Some (SpatialGrid.mk 1080 1920 100 11 20 [])) 100 0 0)
      scene_static_pair [0; 1]%nat
    = Ok (cs, self')
    /\ CollisionDetector.collisions_found self' = Z.of_nat (List.length cs).
Proof.
  destruct (grid_detection_complete
              (CollisionDetector.mk true
                 (Some (SpatialGrid.mk 1080 1920 100 11 20 [])) 100 0 0)
              (SpatialGrid.mk 1080 1920 100 11 20 [])
              scene_static_pair [0; 1]%nat)
    as (cs & d & E & _ & _ & F).
  - reflexivity.
  - reflexivity.
  - simpl. lra.
  - intros i [<- | [<- | []]]; unfold sizes_nonnegative; simpl; lra.
  - exists cs, d. split; [exact E | exact F].
Defined.


(** ** The cells of the grid *)

Lemma ceil_bounds (a : R) : a <= IZR (Py.ceil a) < a + 1.
Proof.
  unfold Py.ceil. rewrite opp_IZR.
  pose proof (floor_bounds (- a)) as H. unfold Py.floor in H. lra.
Qed.

Lemma cell_of_coordinate (x w c : R) (n : Z) :
  0 < c -> n = Py.ceil (w / c) -> 0 <= x < w ->
  clamp (Py.floor (x / c)) n = Py.floor (x / c)
  /\ IZR (Py.floor (x / c)) * c <= x < (IZR (Py.floor (x / c)) + 1) * c.
Proof.
  intros Hc -> [H0 Hw].
  pose proof (floor_bounds (x / c)) as [F1 F2].
  pose proof (ceil_bounds (w / c)) as [C1 _].
  assert (Q0 : 0 <= x / c).
  { apply Rmult_le_pos; [exact H0 |]. left. apply Rinv_0_lt_compat, Hc. }
  assert (Qw : x / c < w / c).
  { apply Rmult_lt_compat_r; [apply Rinv_0_lt_compat, Hc | exact Hw]. }
  assert (Z0 : (0 <= Py.floor (x / c))%Z).
  { assert (IZR (-1) < IZR (Py.floor (x / c))) as K
      by (change (IZR (-1)) with (-1); lra).
    apply lt_IZR in K. lia. }
  assert (Z1 : (Py.floor (x / c) < Py.ceil (w / c))%Z).
  { apply lt_IZR. lra. }
  split; [unfold clamp; lia |].
  assert (E : x = x / c * c) by (field; lra).
  split.
  - rewrite E at 2. apply Rmult_le_compat_r; lra.
  - rewrite E at 1. apply Rmult_lt_compat_r; lra.
Qed.

(** X21: a grid cannot be made with cells of size 0 (the constructor raises
    ZeroDivisionError).  With a positive cell size and a world of positive
    width and height, the constructor returns, [_get_cell_coords] never
    raises and always answers a cell of the grid, also for points outside
    the world; and a point of the world lies in the cell it is given. *)
Theorem cell_coords_within_grid (w h c x y : R) :
  SpatialGrid.init w h 0 = Raise ZeroDivisionError
  /\ (0 < c -> 0 < w -> 0 < h ->
      exists g col row,
        SpatialGrid.init w h c = Ok g
        /\ SpatialGrid._get_cell_coords g x y = Ok (col, row)
        /\ (0 <= col < SpatialGrid.cols g)%Z
        /\ (0 <= row < SpatialGrid.rows g)%Z
        /\ (0 <= x < w -> IZR col * c <= x < (IZR col + 1) * c)
        /\ (0 <= y < h -> IZR row * c <= y < (IZR row + 1) * c)).
Proof.
  split.
  - unfold SpatialGrid.init. rewrite truediv_zero. reflexivity.
  - intros Hc Hw Hh.
    set (g := SpatialGrid.mk w h c (Py.ceil (w / c)) (Py.ceil (h / c)) []).
    assert (Pw : (1 <= Py.ceil (w / c))%Z).
    { pose proof (ceil_bounds (w / c)) as [C1 _].
      assert (0 < w / c)
        by (apply Rmult_lt_0_compat; [lra | apply Rinv_0_lt_compat, Hc]).
      assert (IZR 0 < IZR (Py.ceil (w / c))) as K by (simpl; lra).
      apply lt_IZR in K. lia. }
    assert (Ph : (1 <= Py.ceil (h / c))%Z).
    { pose proof (ceil_bounds (h / c)) as [C1 _].
      assert (0 < h / c)
        by (apply Rmult_lt_0_compat; [lra | apply Rinv_0_lt_compat, Hc]).
      assert (IZR 0 < IZR (Py.ceil (h / c))) as K by (simpl; lra).
      apply lt_IZR in K. lia. }
    exists g, (clamp (Py.floor (x / c)) (Py.ceil (w / c))),
           (clamp (Py.floor (y / c)) (Py.ceil (h / c))).
    split; [| split; [| split; [| split; [| split]]]].
    + unfold SpatialGrid.init. rewrite !truediv_ok by lra. reflexivity.
    + rewrite get_cell_coords_ok by (simpl; lra). reflexivity.
    + simpl. unfold clamp. lia.
    + simpl. unfold clamp. lia.
    + intros Hx.
      destruct (cell_of_coordinate x w c _ Hc eq_refl Hx) as [-> K]. exact K.
    + intros Hy.
      destruct (cell_of_coordinate y h c _ Hc eq_refl Hy) as [-> K]. exact K.
Qed.

Lemma cell_coords_within_grid_witness :
  exists g col row,
    SpatialGrid.init 1080 1920 100 = Ok g
    /\ SpatialGrid._get_cell_coords g 250 (-30) = Ok (col, row)
    /\ (0 <= col < SpatialGrid.cols g)%Z
    /\ (0 <= row < SpatialGrid.rows g)%Z.
Proof.
  destruct (cell_coords_within_grid 1080 1920 100 250 (-30)) as [_ H].
  destruct H as (g & col & row & E & F & Hc & Hr & _); [lra | lra | lra |].
  exists g, col, row. repeat split; try assumption; lia.
Defined.


(** ** The engine's integration step *)

Lemma magnitude_scale (v : Vector2D.t) (k : R) :
  0 <= k -> Vector2D.magnitude (v *v k) = k * Vector2D.magnitude v.
Proof.
  intros Hk. pose proof (magnitude_nonneg v) as Hv.
  pose proof (magnitude_sqr v) as Hs.
  unfold Vector2D.magnitude at 1. simpl.
  apply sqrt_of_square; [apply Rmult_le_pos; assumption |].
  replace (k * Vector2D.magnitude v * (k * Vector2D.magnitude v))
    with (k * k * (Vector2D.magnitude v * Vector2D.magnitude v)) by ring.
  rewrite Hs. ring.
Qed.

(** One turn of the loop of [_integrate], on a body that is not static. *)
Lemma integrate_body_spec
    (e : PhysicsEngine.t) (dt : R) (id : nat) (s : Store) :
  static (s id) = false ->
  0 <= EngineConfig.max_velocity (PhysicsEngine.config e) ->
  0 <= EngineConfig.friction (PhysicsEngine.config e) * dt <= 1 ->
  exists s',
    PhysicsEngine._integrate_body e dt id s = Return tt s'
    /\ static (s' id) = false
    /\ position (s' id)
       = position (s id)
         +v (velocity (s id) *v dt
             +v acceleration (s id) *v 0.5 *v dt *v dt)
    /\ Vector2D.magnitude (velocity (s' id))
       <= EngineConfig.max_velocity (PhysicsEngine.config e)
    /\ (forall j, j <> id -> s' j = s j).
Proof.
  intros Hst Hmax Hf.
  set (vmax := EngineConfig.max_velocity (PhysicsEngine.config e)) in *.
  set (k := 1 - EngineConfig.friction (PhysicsEngine.config e) * dt).
  assert (Hk : 0 <= k <= 1) by (unfold k; lra).
  unfold PhysicsEngine._integrate_body, bind, get, modify.
  rewrite Hst. cbv beta iota. change (negb false) with true. cbv beta iota.
  rewrite !upd_eq. fold vmax. fold k.
  set (v1 := velocity (set_position (s id) _)
             +v acceleration (set_position (s id) _) *v dt).
  destruct (Vector2D.magnitude
              (velocity (set_velocity (set_position (s id) _) v1)) >? vmax)
    eqn:E.
  - simpl in E. apply ltb_true in E.
    assert (Hn : Vector2D.magnitude v1 <> 0) by lra.
    unfold lift. simpl velocity. rewrite (normalized_nonzero v1 Hn).
    eexists. split; [reflexivity |]. rewrite !upd_eq.
    split; [exact Hst |]. split; [| split].
    + reflexivity.
    + simpl. fold (unit_of v1 *v vmax *v k).
      rewrite !magnitude_scale by lra.
      rewrite (unit_of_magnitude v1 Hn). nra.
    + intros j Hj. rewrite !upd_neq by exact Hj. reflexivity.
  - simpl in E. apply ltb_false in E.
    unfold ret. eexists. split; [reflexivity |]. rewrite !upd_eq.
    split; [exact Hst |]. split; [| split].
    + reflexivity.
    + simpl velocity. fold (v1 *v k). rewrite magnitude_scale by lra.
      pose proof (magnitude_nonneg v1). nra.
    + intros j Hj. rewrite !upd_neq by exact Hj. reflexivity.
Qed.

Lemma integrate_body_static
    (e : PhysicsEngine.t) (dt : R) (id : nat) (s : Store) :
  static (s id) = true ->
  PhysicsEngine._integrate_body e dt id s = Return tt s.
Proof.
  intros H. unfold PhysicsEngine._integrate_body, bind, get. rewrite H.
  reflexivity.
Qed.

(** The loop of [_integrate] over a list of bodies. *)
Lemma integrate_loop (e : PhysicsEngine.t) (dt : R) (l : list nat) :
  0 <= EngineConfig.max_velocity (PhysicsEngine.config e) ->
  0 <= EngineConfig.friction (PhysicsEngine.config e) * dt <= 1 ->
  forall s : Store,
  exists s',
    for_each l (PhysicsEngine._integrate_body e dt) s = Return tt s'
    /\ (forall j, static (s' j) = static (s j))
    /\ (forall j, static (s j) = true \/ ~ In j l -> s' j = s j)
    /\ (forall id, In id l -> static (s id) = false ->
          Vector2D.magnitude (velocity (s' id))
          <= EngineConfig.max_velocity (PhysicsEngine.config e))
    /\ (NoDup l ->
        forall id, In id l -> static (s id) = false ->
          position (s' id)
          = position (s id)
            +v (velocity (s id) *v dt
                +v acceleration (s id) *v 0.5 *v dt *v dt)).
Proof.
  intros Hmax Hf. induction l as [| a l IH]; intros s.
  - exists s. split; [reflexivity |]. split; [reflexivity |].
    split; [reflexivity |]. split; [intros id [] | intros _ id []].
  - assert (Step : exists s1,
               PhysicsEngine._integrate_body e dt a s = Return tt s1
               /\ (forall j, static (s1 j) = static (s j))
               /\ (forall j, static (s j) = true \/ j <> a -> s1 j = s j)
               /\ (static (s a) = false ->
                   Vector2D.magnitude (velocity (s1 a))
                   <= EngineConfig.max_velocity (PhysicsEngine.config e)
                   /\ position (s1 a)
                      = position (s a)
                        +v (velocity (s a) *v dt
                            +v acceleration (s a) *v 0.5 *v dt *v dt))).
    { destruct (static (s a)) eqn:Sa.
      - exists s. split; [apply integrate_body_static, Sa |].
        split; [reflexivity |]. split; [reflexivity |]. discriminate.
      - destruct (integrate_body_spec e dt a s Sa Hmax Hf)
          as (s1 & E1 & S1 & P1 & V1 & O1).
        exists s1. split; [exact E1 |]. split; [| split].
        + intros j. destruct (Nat.eq_dec j a) as [-> | Hj];
            [congruence | rewrite (O1 j Hj); reflexivity].
        + intros j [Hj | Hj]; [| apply O1, Hj].
          apply O1. intros ->. congruence.
        + intros _. split; assumption. }
    destruct Step as (s1 & E1 & St1 & Fr1 & Sp1).
    destruct (IH s1) as (s' & E' & St' & Fr' & Sp' & Po').
    exists s'. simpl. unfold bind. rewrite E1.
    split; [exact E' |]. split; [| split; [| split]].
    + intros j. rewrite St'. apply St1.
    + intros j Hj. rewrite Fr'.
      * apply Fr1. destruct Hj as [Hj | Hj]; [left; exact Hj |].
        right. intros ->. apply Hj. left. reflexivity.
      * destruct Hj as [Hj | Hj]; [left; rewrite St1; exact Hj |].
        right. intros K. apply Hj. right. exact K.
    + intros id Hin Hs. destruct (in_dec Nat.eq_dec id l) as [Hl | Hl].
      * apply Sp'; [exact Hl | rewrite St1; exact Hs].
      * destruct Hin as [<- | Hin]; [| contradiction].
        rewrite (Fr' a (or_intror Hl)). apply Sp1, Hs.
    + intros Hnd id Hin Hs. inversion Hnd as [| ? ? Ha Hnd']; subst.
      destruct Hin as [<- | Hin].
      * rewrite (Fr' a (or_intror Ha)). apply Sp1, Hs.
      * assert (Hne : id <> a) by (intros ->; contradiction).
        rewrite (Po' Hnd' id Hin) by (rewrite St1; exact Hs).
        rewrite (Fr1 id (or_intror Hne)). reflexivity.
Qed.

(** X22: with a speed limit that is not negative and a damping factor
    [1 - friction * dt] between 0 and 1, [_integrate] returns; every body
    of the engine that is not static is left with a speed of at most
    [max_velocity] and, when the list holds no body twice, has moved by
    [v dt + a dt^2 / 2]; every static body and every body that is not in
    the list is the same object after as before. *)
Theorem integrate_limits_speed
    (e : PhysicsEngine.t) (dt : R) (s : Store) :
  0 <= EngineConfig.max_velocity (PhysicsEngine.config e) ->
  0 <= EngineConfig.friction (PhysicsEngine.config e) * dt <= 1 ->
  exists s',
    PhysicsEngine._integrate e dt s = Return tt s'
    /\ (forall id,
          In id (PhysicsEngine.bodies e) -> static (s id) = false ->
          Vector2D.magnitude (velocity (s' id))
          <= EngineConfig.max_velocity (PhysicsEngine.config e))
    /\ (NoDup (PhysicsEngine.bodies e) ->
        forall id,
          In id (PhysicsEngine.bodies e) -> static (s id) = false ->
          position (s' id)
          = position (s id)
            +v (velocity (s id) *v dt
                +v acceleration (s id) *v 0.5 *v dt *v dt))
    /\ (forall j,
          static (s j) = true \/ ~ In j (PhysicsEngine.bodies e) ->
          s' j = s j).
Proof.
  intros Hmax Hf. unfold PhysicsEngine._integrate.
  destruct (integrate_loop e dt (PhysicsEngine.bodies e) Hmax Hf s)
    as (s' & E & _ & Fr & Sp & Po).
  exists s'. split; [exact E |]. split; [exact Sp |].
  split; [exact Po | exact Fr].
Qed.

Lemma integrate_limits_speed_witness :
  exists s',
    PhysicsEngine._integrate scene_engine 1 scene_head_on = Return tt s'
    /\ Vector2D.magnitude (velocity (s' 0%nat)) <= 2000.
Proof.
  destruct (integrate_limits_speed scene_engine 1 scene_head_on)
    as (s' & E & H & _).
  - simpl. lra.
  - simpl. lra.
  - exists s'. split; [exact E |]. apply (H 0%nat).
    + left. reflexivity.
    + reflexivity.
Defined.

(** ** The engine's forces *)

Lemma truediv_x_fin (f : Vector2D.t) (m : R) :
  m <> 0 ->
  Vector2D.truediv_x f (Py.Fin m)
  = Ok (Vector2D.mk (Vector2D.x f / m) (Vector2D.y f / m)).
Proof.
  intros Hm. unfold Vector2D.truediv_x. simpl.
  rewrite !truediv_ok by exact Hm. reflexivity.
Qed.

Lemma set_acceleration_same (b : PhysicsBody) :
  set_acceleration b (acceleration b) = b.
Proof. destruct b. reflexivity. Qed.

Lemma set_acceleration_twice (b : PhysicsBody) (a a' : Vector2D.t) :
  set_acceleration (set_acceleration b a) a' = set_acceleration b a'.
Proof. destruct b. reflexivity. Qed.

Lemma accumulate_forces (id : nat) (m : R) (l : list Vector2D.t) :
  m <> 0 ->
  forall s : Store,
  exists s',
    for_each l (fun force =>
      q <~ lift (Vector2D.truediv_x force (Py.Fin m)) ;;
      modify id (fun o => set_acceleration o (acceleration o +v q))) s
    = Return tt s'
    /\ (exists a, s' id = set_acceleration (s id) a
                  /\ a *v m = acceleration (s id) *v m +v vsum l)
    /\ (forall j, j <> id -> s' j = s j).
Proof.
  intros Hm. induction l as [| f l IH]; intros s; simpl.
  - exists s. split; [reflexivity |]. split; [| reflexivity].
    exists (acceleration (s id)). split.
    + symmetry. apply set_acceleration_same.
    + apply vec_eq; simpl; ring.
  - unfold bind at 1. unfold bind at 1. unfold lift.
    rewrite (truediv_x_fin f m Hm). unfold modify at 1.
    match goal with
    | |- context [for_each l _ ?s1] =>
        destruct (IH s1) as (s' & E & (a & Ea & Ha) & Ho)
    end.
    exists s'. split; [exact E |]. split.
    + exists a. split.
      * rewrite Ea, upd_eq. apply set_acceleration_twice.
      * rewrite Ha, upd_eq. apply vec_eq; simpl; field; exact Hm.
    + intros j Hj. rewrite (Ho j Hj). apply upd_neq. exact Hj.
Qed.

(** One turn of the loop of [_apply_forces], on a body that is not static
    and has a finite mass other than zero. *)
Lemma apply_forces_body_spec
    (e : PhysicsEngine.t) (id : nat) (s : Store) (m : R) :
  static (s id) = false -> mass (s id) = Py.Fin m -> m <> 0 ->
  exists s' a,
    PhysicsEngine._apply_forces_body e id s = Return tt s'
    /\ s' id = set_forces (set_acceleration (s id) a) []
    /\ a *v m
       = EngineConfig.gravity (PhysicsEngine.config e) *v m
         +v drag_force (velocity (s id)) (drag_coefficient (s id))
         +v vsum (forces (s id))
    /\ (forall j, j <> id -> s' j = s j).
Proof.
  intros Hst Hm Hm0.
  unfold PhysicsEngine._apply_forces_body.
  unfold bind at 1. unfold get at 1. rewrite Hst.
  change (negb false) with true. cbv beta iota.
  unfold bind at 1. unfold modify at 1. rewrite copy_id.
  set (g := EngineConfig.gravity (PhysicsEngine.config e)).
  set (s1 := upd s id (set_acceleration (s id) g)).
  set (v := velocity (s id)). set (c := drag_coefficient (s id)).
  assert (D : exists s2,
             (if Vector2D.magnitude v >? 0
              then
                n <~ lift (Vector2D.normalized v) ;;
                q <~ lift (Vector2D.truediv_x
                             (n *v (- Vector2D.magnitude_squared v) *v 0.5
                                *v c) (mass (s id))) ;;
                modify id (fun o => set_acceleration o (acceleration o +v q))
              else ret tt) s1 = Return tt s2
             /\ (exists a, s2 id = set_acceleration (s id) a
                           /\ a *v m = g *v m +v drag_force v c)
             /\ (forall j, j <> id -> s2 j = s j)).
  { destruct (Vector2D.magnitude v >? 0) eqn:E.
    - apply ltb_true in E.
      assert (Hn : Vector2D.magnitude v <> 0) by lra.
      unfold bind, lift. rewrite (normalized_nonzero v Hn), Hm.
      rewrite truediv_x_fin by exact Hm0. unfold modify.
      eexists. split; [reflexivity |]. split.
      + eexists. split.
        * rewrite upd_eq. unfold s1. rewrite upd_eq.
          apply set_acceleration_twice.
        * simpl acceleration.
          replace (Vector2D.magnitude_squared v)
            with (Vector2D.magnitude v * Vector2D.magnitude v)
            by (rewrite magnitude_sqr; reflexivity).
          unfold drag_force, unit_of.
          apply vec_eq; simpl; field; split; assumption.
      + intros j Hj. rewrite upd_neq by exact Hj. unfold s1.
        apply upd_neq. exact Hj.
    - apply ltb_false in E. pose proof (magnitude_nonneg v) as Hp.
      assert (Hz : Vector2D.magnitude v = 0) by lra.
      unfold ret. exists s1. split; [reflexivity |]. split.
      + exists g. split; [unfold s1; apply upd_eq |].
        unfold drag_force. rewrite Hz. apply vec_eq; simpl; ring.
      + intros j Hj. unfold s1. apply upd_neq. exact Hj. }
  destruct D as (s2 & E2 & (a2 & Ea2 & Ha2) & Ho2).
  unfold bind at 1. fold v c. rewrite E2.
  unfold bind at 1. rewrite Hm.
  destruct (accumulate_forces id m (forces (s id)) Hm0 s2)
    as (s3 & E3 & (a3 & Ea3 & Ha3) & Ho3).
  rewrite E3. unfold modify.
  exists (upd s3 id (set_forces (s3 id) [])), a3.
  split; [reflexivity |]. split; [| split].
  - rewrite upd_eq, Ea3, Ea2, set_acceleration_twice. reflexivity.
  - rewrite Ha3, Ea2. simpl acceleration. rewrite Ha2. reflexivity.
  - intros j Hj. rewrite upd_neq by exact Hj.
    rewrite (Ho3 j Hj). apply Ho2. exact Hj.
Qed.

Lemma apply_forces_body_static
    (e : PhysicsEngine.t) (id : nat) (s : Store) :
  static (s id) = true ->
  PhysicsEngine._apply_forces_body e id s = Return tt s.
Proof.
  intros H. unfold PhysicsEngine._apply_forces_body, bind, get. rewrite H.
  reflexivity.
Qed.

Lemma accelerated_refl (s : Store) : accelerated s s.
Proof.
  intros j. exists (acceleration (s j)), (forces (s j)).
  destruct (s j). reflexivity.
Qed.

Lemma accelerated_trans (s1 s2 s3 : Store) :
  accelerated s1 s2 -> accelerated s2 s3 -> accelerated s1 s3.
Proof.
  intros H1 H2 j. destruct (H1 j) as (a1 & f1 & E1).
  destruct (H2 j) as (a2 & f2 & E2). exists a2, f2.
  rewrite E2, E1. destruct (s1 j). reflexivity.
Qed.

Lemma accelerated_fields (s s' : Store) (j : nat) :
  accelerated s s' ->
  static (s' j) = static (s j) /\ mass (s' j) = mass (s j)
  /\ position (s' j) = position (s j) /\ velocity (s' j) = velocity (s j)
  /\ drag_coefficient (s' j) = drag_coefficient (s j).
Proof.
  intros H. destruct (H j) as (a & f & ->). destruct (s j).
  repeat split; reflexivity.
Qed.

(** The loop of [_apply_forces] over a list of bodies. *)
Lemma apply_forces_loop (e : PhysicsEngine.t) (l : list nat) :
  forall s : Store,
    (forall id, In id l -> static (s id) = false ->
       exists m, mass (s id) = Py.Fin m /\ m <> 0) ->
    exists s',
      for_each l (PhysicsEngine._apply_forces_body e) s = Return tt s'
      /\ accelerated s s'
      /\ (forall j, static (s j) = true \/ ~ In j l -> s' j = s j)
      /\ (forall id, In id l -> static (s id) = false -> forces (s' id) = [])
      /\ (NoDup l ->
          forall id m, In id l -> static (s id) = false ->
            mass (s id) = Py.Fin m ->
            acceleration (s' id) *v m
            = EngineConfig.gravity (PhysicsEngine.config e) *v m
              +v drag_force (velocity (s id)) (drag_coefficient (s id))
              +v vsum (forces (s id))).
Proof.
  induction l as [| a l IH]; intros s Hmass.
  - exists s. split; [reflexivity |]. split; [apply accelerated_refl |].
    split; [reflexivity |]. split; [intros id [] | intros _ id m []].
  - assert (Step : exists s1,
               PhysicsEngine._apply_forces_body e a s = Return tt s1
               /\ accelerated s s1
               /\ (forall j, static (s j) = true \/ j <> a -> s1 j = s j)
               /\ (static (s a) = false ->
                   forces (s1 a) = []
                   /\ forall m, mass (s a) = Py.Fin m ->
                        acceleration (s1 a) *v m
                        = EngineConfig.gravity (PhysicsEngine.config e) *v m
                          +v drag_force (velocity (s a))
                                        (drag_coefficient (s a))
                          +v vsum (forces (s a)))).
    { destruct (static (s a)) eqn:Sa.
      - exists s. split; [apply apply_forces_body_static, Sa |].
        split; [apply accelerated_refl |]. split; [reflexivity |].
        discriminate.
      - destruct (Hmass a (or_introl eq_refl) Sa) as (m & Hm & Hm0).
        destruct (apply_forces_body_spec e a s m Sa Hm Hm0)
          as (s1 & acc & E1 & I1 & N1 & O1).
        exists s1. split; [exact E1 |]. split; [| split].
        + intros j. destruct (Nat.eq_dec j a) as [-> | Hj].
          * exists acc, []. exact I1.
          * rewrite (O1 j Hj). apply accelerated_refl.
        + intros j [Hj | Hj]; [| apply O1, Hj].
          apply O1. intros ->. congruence.
        + intros _. rewrite I1. split; [reflexivity |].
          intros m' Hm'. rewrite Hm in Hm'. injection Hm' as <-.
          exact N1. }
    destruct Step as (s1 & E1 & A1 & Fr1 & Sp1).
    destruct (IH s1) as (s' & E' & A' & Fr' & Fo' & Ne').
    { intros id Hin Hs.
      destruct (accelerated_fields s s1 id A1) as (F1 & F2 & _).
      rewrite F1 in Hs. rewrite F2. apply Hmass; [right; exact Hin | exact Hs]. }
    exists s'. simpl. unfold bind. rewrite E1.
    split; [exact E' |]. split; [| split; [| split]].
    + apply (accelerated_trans s s1 s'); assumption.
    + intros j Hj. rewrite Fr'.
      * apply Fr1. destruct Hj as [Hj | Hj]; [left; exact Hj |].
        right. intros ->. apply Hj. left. reflexivity.
      * destruct (accelerated_fields s s1 j A1) as (F1 & _).
        destruct Hj as [Hj | Hj]; [left; rewrite F1; exact Hj |].
        right. intros K. apply Hj. right. exact K.
    + intros id Hin Hs.
      destruct (accelerated_fields s s1 id A1) as (F1 & _).
      destruct (in_dec Nat.eq_dec id l) as [Hl | Hl].
      * apply Fo'; [exact Hl | rewrite F1; exact Hs].
      * destruct Hin as [<- | Hin]; [| contradiction].
        rewrite (Fr' a (or_intror Hl)). apply Sp1, Hs.
    + intros Hnd id m Hin Hs Hm. inversion Hnd as [| ? ? Ha Hnd']; subst.
      destruct Hin as [<- | Hin].
      * rewrite (Fr' a (or_intror Ha)). apply Sp1; assumption.
      * assert (Hne : id <> a) by (intros ->; contradiction).
        pose proof (Fr1 id (or_intror Hne)) as Same.
        rewrite (Ne' Hnd' id m Hin) by (rewrite Same; assumption).
        rewrite Same. reflexivity.
Qed.

(** X23: when every body of the engine that is not static has a finite
    mass other than zero, [_apply_forces] returns and empties the queue of
    forces of each of them; no position and no velocity changes, and every
    static body and every body that is not in the list is the same object
    after as before.  When the list holds no body twice, Newton's second
    law is in force for each body that is not static: mass times the new
    acceleration is the weight plus the drag (against the velocity, of
    size [drag_coefficient |v|^2 / 2]) plus the sum of the queued
    forces. *)
Theorem apply_forces_newton
    (e : PhysicsEngine.t) (dt : R) (s : Store) :
  (forall id,
     In id (PhysicsEngine.bodies e) -> static (s id) = false ->
     exists m, mass (s id) = Py.Fin m /\ m <> 0) ->
  exists s',
    PhysicsEngine._apply_forces e dt s = Return tt s'
    /\ (forall id,
          In id (PhysicsEngine.bodies e) -> static (s id) = false ->
          forces (s' id) = [])
    /\ (NoDup (PhysicsEngine.bodies e) ->
        forall id m,
          In id (PhysicsEngine.bodies e) -> static (s id) = false ->
          mass (s id) = Py.Fin m ->
          acceleration (s' id) *v m
          = EngineConfig.gravity (PhysicsEngine.config e) *v m
            +v drag_force (velocity (s id)) (drag_coefficient (s id))
            +v vsum (forces (s id)))
    /\ (forall j,
          position (s' j) = position (s j)
          /\ velocity (s' j) = velocity (s j))
    /\ (forall j,
          static (s j) = true \/ ~ In j (PhysicsEngine.bodies e) ->
          s' j = s j).
Proof.
  intros Hmass. unfold PhysicsEngine._apply_forces.
  destruct (apply_forces_loop e (PhysicsEngine.bodies e) s Hmass)
    as (s' & E & A & Fr & Fo & Ne).
  exists s'. split; [exact E |]. split; [exact Fo |]. split; [exact Ne |].
  split; [| exact Fr].
  intros j. destruct (accelerated_fields s s' j A) as (_ & _ & P & V & _).
  split; assumption.
Qed.

Lemma apply_forces_newton_witness :
  exists s',
    PhysicsEngine._apply_forces scene_engine 1 scene_head_on = Return tt s'
    /\ forces (s' 0%nat) = [].
Proof.
  destruct (apply_forces_newton scene_engine 1 scene_head_on)
    as (s' & E & F & _).
  - intros id [<- | [<- | []]] _; exists 1; split; try reflexivity; lra.
  - exists s'. split; [exact E |]. apply (F 0%nat).
    + left. reflexivity.
    + reflexivity.
Defined.


(** ** The engine's own narrow phase *)





(** ** The resolver: the correction of positions *)

(** X25: when the two bodies are distinct and their effective inverse
    masses add up to more than zero, [_resolve_position] returns and has
    pushed the two bodies apart along the normal by
    [penetration * position_correction_factor] in all, whatever the two
    masses are, each body moving in proportion to its own effective inverse
    mass; no velocity changes.  When the sum is zero or less nothing
    changes. *)
Theorem resolve_position_separates
    (r : CollisionResolver.t) (a b : nat) (n : Vector2D.t) (p : R)
    (s : Store) :
  a <> b ->
  exists s',
    CollisionResolver._resolve_position r a b n p s = Return tt s'
    /\ (forall i, velocity (s' i) = velocity (s i))
    /\ (effective_inv_mass (s a) + effective_inv_mass (s b) <= 0 ->
        s' = s)
    /\ (0 < effective_inv_mass (s a) + effective_inv_mass (s b) ->
        (position (s' b) -v position (s' a))
        = (position (s b) -v position (s a))
          +v n *v (p * CollisionResolver.position_correction_factor r)
        /\ (position (s' a) -v position (s a))
             *v effective_inv_mass (s b)
           = Vector2D.__neg__
               ((position (s' b) -v position (s b))
                  *v effective_inv_mass (s a))).
Proof.
  intros Hab.
  assert (Hba : b <> a) by (intros E; apply Hab; symmetry; exact E).
  unfold CollisionResolver._resolve_position, bind, get.
  unfold effective_inv_mass.
  set (ia := if static (s a) then 0 else inv_mass (s a)).
  set (ib := if static (s b) then 0 else inv_mass (s b)).
  destruct (ia + ib <=? 0) eqn:E.
  - apply leb_true in E. exists s. split; [reflexivity |].
    split; [reflexivity |]. split; [reflexivity |]. intros H. lra.
  - apply leb_false in E. rewrite truediv_ok by lra. unfold lift.
    set (k := p * CollisionResolver.position_correction_factor r / (ia + ib)).
    assert (Hk : k * (ia + ib)
                 = p * CollisionResolver.position_correction_factor r)
      by (unfold k; field; lra).
    assert (Za : static (s a) = true -> ia = 0)
      by (intros H; unfold ia; rewrite H; reflexivity).
    assert (Zb : static (s b) = true -> ib = 0)
      by (intros H; unfold ib; rewrite H; reflexivity).
    clearbody ia ib k.
    destruct (static (s a)) eqn:Sa, (static (s b)) eqn:Sb; simpl;
      unfold modify, ret; eexists; (split; [reflexivity |]);
      try rewrite (Za eq_refl) in *; try rewrite (Zb eq_refl) in *.
    + lra.
    + split; [| split; [intros; lra |]].
      * intros i. unfold upd.
        destruct (Nat.eqb_spec i b) as [-> |]; reflexivity.
      * intros _. rewrite upd_eq, upd_neq by exact Hab. split.
        -- apply vec_eq; simpl; rewrite <- Hk; ring.
        -- apply vec_eq; simpl; ring.
    + split; [| split; [intros; lra |]].
      * intros i. unfold upd.
        destruct (Nat.eqb_spec i a) as [-> |]; reflexivity.
      * intros _. rewrite upd_eq, upd_neq by exact Hba. split.
        -- apply vec_eq; simpl; rewrite <- Hk; ring.
        -- apply vec_eq; simpl; ring.
    + split; [| split; [intros; lra |]].
      * intros i. unfold upd.
        destruct (Nat.eqb_spec i b) as [-> |];
          [rewrite (proj2 (Nat.eqb_neq b a) Hba); reflexivity |].
        destruct (Nat.eqb_spec i a) as [-> |]; reflexivity.
      * intros _. rewrite !upd_eq, !upd_neq by assumption.
        rewrite upd_eq. split.
        -- apply vec_eq; simpl; rewrite <- Hk; ring.
        -- apply vec_eq; simpl; ring.
Qed.

Lemma resolve_position_separates_witness :
  exists s',
    CollisionResolver._resolve_position CollisionResolver.init 0%nat 1%nat
      (Vector2D.mk 1 0) 2 scene_head_on = Return tt s'
    /\ (forall i, velocity (s' i) = velocity (scene_head_on i)).
Proof.
  destruct (resolve_position_separates CollisionResolver.init 0%nat 1%nat
              (Vector2D.mk 1 0) 2 scene_head_on) as (s' & E & V & _).
  - discriminate.
  - exists s'. split; [exact E | exact V].
Defined.


(** ** The resolver: impulses *)

Lemma set_velocity_same (o : PhysicsBody) : set_velocity o (velocity o) = o.
Proof. destruct o. reflexivity. Qed.

Lemma set_velocity_twice (o : PhysicsBody) (v w : Vector2D.t) :
  set_velocity (set_velocity o v) w = set_velocity o w.
Proof. destruct o. reflexivity. Qed.

Lemma effective_inv_mass_set_velocity (o : PhysicsBody) (v : Vector2D.t) :
  effective_inv_mass (set_velocity o v) = effective_inv_mass o.
Proof. destruct o. reflexivity. Qed.

Lemma kicked_zero (a b : nat) (s : Store) :
  kicked a b (Vector2D.mk 0 0) s s.
Proof.
  split; [| split].
  - apply vec_eq; simpl; ring.
  - apply vec_eq; simpl; ring.
  - intros i. exists (velocity (s i)). symmetry. apply set_velocity_same.
Qed.

Lemma kicked_trans (a b : nat) (J1 J2 : Vector2D.t) (s1 s2 s3 : Store) :
  kicked a b J1 s1 s2 -> kicked a b J2 s2 s3 ->
  kicked a b (J1 +v J2) s1 s3.
Proof.
  intros (A1 & B1 & O1) (A2 & B2 & O2).
  assert (Ea : effective_inv_mass (s2 a) = effective_inv_mass (s1 a)).
  { destruct (O1 a) as [v ->]. apply effective_inv_mass_set_velocity. }
  assert (Eb : effective_inv_mass (s2 b) = effective_inv_mass (s1 b)).
  { destruct (O1 b) as [v ->]. apply effective_inv_mass_set_velocity. }
  split; [| split].
  - rewrite A2, A1, Ea. apply vec_eq; simpl; ring.
  - rewrite B2, B1, Eb. apply vec_eq; simpl; ring.
  - intros i. destruct (O1 i) as [v Hv]. destruct (O2 i) as [w Hw].
    exists w. rewrite Hw, Hv. apply set_velocity_twice.
Qed.

(** The two guarded writes every impulse is applied with. *)
Lemma impulse_pair (a b : nat) (J : Vector2D.t) (s : Store) :
  a <> b ->
  exists s',
    ((if negb (static (s a)) then
        modify a (fun o =>
          set_velocity o
            (velocity o -v J *v (if static (s a) then 0 else inv_mass (s a))))
      else ret tt) ;;;
     (if negb (static (s b)) then
        modify b (fun o =>
          set_velocity o
            (velocity o +v J *v (if static (s b) then 0 else inv_mass (s b))))
      else ret tt)) s = Return tt s'
    /\ kicked a b J s s'.
Proof.
  intros Hab.
  assert (Hba : b <> a) by (intros E; apply Hab; symmetry; exact E).
  unfold kicked, effective_inv_mass, bind.
  destruct (static (s a)) eqn:Sa, (static (s b)) eqn:Sb; simpl;
    unfold modify, ret; eexists; (split; [reflexivity |]).
  - split; [| split].
    + apply vec_eq; simpl; ring.
    + apply vec_eq; simpl; ring.
    + intros i. exists (velocity (s i)). symmetry. apply set_velocity_same.
  - rewrite upd_eq, upd_neq by exact Hab. split; [| split].
    + apply vec_eq; simpl; ring.
    + reflexivity.
    + intros i. unfold upd. destruct (Nat.eqb_spec i b) as [-> |].
      * eexists. reflexivity.
      * exists (velocity (s i)). symmetry. apply set_velocity_same.
  - rewrite upd_eq, upd_neq by exact Hba. split; [| split].
    + reflexivity.
    + apply vec_eq; simpl; ring.
    + intros i. unfold upd. destruct (Nat.eqb_spec i a) as [-> |].
      * eexists. reflexivity.
      * exists (velocity (s i)). symmetry. apply set_velocity_same.
  - rewrite !upd_eq, !upd_neq by assumption. rewrite upd_eq.
    split; [| split].
    + reflexivity.
    + simpl. rewrite upd_neq by exact Hba. reflexivity.
    + intros i. unfold upd. destruct (Nat.eqb_spec i b) as [-> |].
      * rewrite (proj2 (Nat.eqb_neq b a) Hba). eexists. reflexivity.
      * destruct (Nat.eqb_spec i a) as [-> |].
        -- eexists. reflexivity.
        -- exists (velocity (s i)). symmetry. apply set_velocity_same.
Qed.

Lemma unit_of_orthogonal (t n : Vector2D.t) :
  Vector2D.dot t n = 0 -> Vector2D.dot (unit_of t) n = 0.
Proof.
  unfold Vector2D.dot, unit_of. simpl. intros H.
  replace (Vector2D.x t / Vector2D.magnitude t * Vector2D.x n
           + Vector2D.y t / Vector2D.magnitude t * Vector2D.y n)
    with ((Vector2D.x t * Vector2D.x n + Vector2D.y t * Vector2D.y n)
          * / Vector2D.magnitude t)
    by (unfold Rdiv; ring).
  rewrite H. ring.
Qed.

Lemma tangent_orthogonal (rel n : Vector2D.t) :
  Vector2D.magnitude n = 1 ->
  Vector2D.dot (rel -v n *v Vector2D.dot rel n) n = 0.
Proof.
  intros Hn. apply magnitude_one_squares in Hn.
  destruct rel as [rx ry], n as [nx ny]. unfold Vector2D.dot. simpl in *.
  replace ((rx - nx * (rx * nx + ry * ny)) * nx
           + (ry - ny * (rx * nx + ry * ny)) * ny)
    with ((rx * nx + ry * ny) * (1 - (nx * nx + ny * ny))) by ring.
  rewrite Hn. ring.
Qed.

(** Friction: the impulse is across the normal when the normal is a unit
    vector, and the call returns when the two friction coefficients have
    a product that is not negative. *)
Lemma apply_friction_kick (r : CollisionResolver.t) (a b : nat)
    (n : Vector2D.t) (j : R) (s : Store) :
  a <> b ->
  exists J,
    kicked a b J s (final (CollisionResolver._apply_friction r a b n j s))
    /\ (Vector2D.magnitude n = 1 -> Vector2D.dot J n = 0)
    /\ (0 <= friction (s a) * friction (s b) ->
        exists s', CollisionResolver._apply_friction r a b n j s
                   = Return tt s').
Proof.
  intros Hab.
  remember (CollisionResolver._apply_friction r a b n j s) as o eqn:Eo.
  revert Eo. unfold CollisionResolver._apply_friction.
  unfold bind at 1. unfold get at 1. unfold bind at 1. unfold get at 1.
  set (rel := velocity (s b) -v velocity (s a)).
  set (t := rel -v n *v Vector2D.dot rel n).
  assert (Z : Vector2D.dot (Vector2D.mk 0 0) n = 0)
    by (unfold Vector2D.dot; simpl; ring).
  destruct (Vector2D.magnitude t <? CollisionResolver.velocity_threshold r).
  - intros ->. exists (Vector2D.mk 0 0). split; [apply kicked_zero |].
    split; [intros _; exact Z |]. intros _. exists s. reflexivity.
  - assert (T : Vector2D.magnitude n = 1 -> Vector2D.dot t n = 0).
    { intros Hn. apply tangent_orthogonal, Hn. }
    assert (N : exists u, Vector2D.normalized t = Ok u
                /\ (Vector2D.magnitude n = 1 -> Vector2D.dot u n = 0)).
    { destruct (Req_dec_T (Vector2D.magnitude t) 0) as [H | H].
      - exists (Vector2D.mk 0 0). split; [apply normalized_zero_mag, H |].
        intros _. exact Z.
      - exists (unit_of t). split; [apply normalized_nonzero, H |].
        intros Hn. apply unit_of_orthogonal, T, Hn. }
    destruct N as (u & Eu & Hu).
    unfold bind at 1. rewrite Eu. unfold lift at 1.
    unfold bind at 1. unfold Py.sqrt.
    destruct (friction (s a) * friction (s b) <? 0) eqn:F.
    + unfold lift. intros ->. simpl final. exists (Vector2D.mk 0 0).
      split; [apply kicked_zero |]. split; [intros _; exact Z |].
      apply ltb_true in F. intros H. lra.
    + unfold lift at 1.
      set (mu := sqrt (friction (s a) * friction (s b))).
      set (J := if Rabs (- Vector2D.dot rel u) <? j * mu
                then u *v (- Vector2D.dot rel u)
                else u *v (- j * mu)).
      destruct (impulse_pair a b J s Hab) as (s' & E & K).
      rewrite E. intros ->. exists J. split; [exact K |]. split.
      * intros Hn. specialize (Hu Hn).
        assert (S : forall k, Vector2D.dot (u *v k) n = 0).
        { intros k. unfold Vector2D.dot in *. simpl.
          replace (Vector2D.x u * k * Vector2D.x n
                   + Vector2D.y u * k * Vector2D.y n)
            with (k * (Vector2D.x u * Vector2D.x n
                       + Vector2D.y u * Vector2D.y n)) by ring.
          rewrite Hu. ring. }
        unfold J. destruct (Rabs _ <? _); apply S.
      * intros _. exists s'. reflexivity.
Qed.


(** ** The resolver: velocities *)

Lemma dot_scaled_unit (n : Vector2D.t) (k : R) :
  Vector2D.magnitude n = 1 -> Vector2D.dot (n *v k) n = k.
Proof.
  intros Hn. apply magnitude_one_squares in Hn. unfold Vector2D.dot. simpl.
  replace (Vector2D.x n * k * Vector2D.x n + Vector2D.y n * k * Vector2D.y n)
    with (k * (Vector2D.x n * Vector2D.x n + Vector2D.y n * Vector2D.y n))
    by ring.
  rewrite Hn. ring.
Qed.

Lemma dot_add_l (u v n : Vector2D.t) :
  Vector2D.dot (u +v v) n = Vector2D.dot u n + Vector2D.dot v n.
Proof. unfold Vector2D.dot. simpl. ring. Qed.

Lemma bind_pair_then {B} (m1 m2 : M unit) (k : M B) (s s3 : Store) :
  (m1 ;;; m2) s = Return tt s3 -> (m1 ;;; (m2 ;;; k)) s = k s3.
Proof.
  unfold bind. destruct (m1 s) as [u s1 | x s1]; [| discriminate].
  destruct (m2 s1) as [u2 s2 | x s2]; [| discriminate].
  intros E. injection E as _ <-. reflexivity.
Qed.

(** What [_resolve_velocity] does, as one impulse. *)
Lemma resolve_velocity_kick (r : CollisionResolver.t) (a b : nat)
    (n : Vector2D.t) (c : CollisionInfo) (s : Store) :
  a <> b ->
  exists J,
    kicked a b J s (final (CollisionResolver._resolve_velocity r a b n c s))
    /\ (0 < Vector2D.dot (velocity (s b) -v velocity (s a)) n ->
        CollisionResolver._resolve_velocity r a b n c s = Return tt s)
    /\ (Vector2D.dot (velocity (s b) -v velocity (s a)) n <= 0 ->
        effective_inv_mass (s a) + effective_inv_mass (s b) <> 0 ->
        0 <= friction (s a) * friction (s b) ->
        (exists s', CollisionResolver._resolve_velocity r a b n c s
                    = Return tt s')
        /\ (Vector2D.magnitude n = 1 ->
            Vector2D.dot J n
            = - (1 + Rmin (restitution (s a)) (restitution (s b)))
              * Vector2D.dot (velocity (s b) -v velocity (s a)) n
              / (effective_inv_mass (s a) + effective_inv_mass (s b)))).
Proof.
  intros Hab.
  remember (CollisionResolver._resolve_velocity r a b n c s) as o eqn:Eo.
  revert Eo. unfold CollisionResolver._resolve_velocity.
  unfold bind at 1. unfold get at 1. unfold bind at 1. unfold get at 1.
  set (van := Vector2D.dot (velocity (s b) -v velocity (s a)) n).
  unfold effective_inv_mass.
  set (e := Rmin (restitution (s a)) (restitution (s b))).
  destruct (van >? 0) eqn:V.
  - intros ->. apply ltb_true in V. exists (Vector2D.mk 0 0).
    split; [apply kicked_zero |]. split; [reflexivity |]. intros H. lra.
  - apply ltb_false in V. unfold bind at 1. unfold Py.truediv.
    destruct ((if static (s a) then 0 else inv_mass (s a))
              + (if static (s b) then 0 else inv_mass (s b)) =? 0) eqn:D.
    + unfold lift. intros ->. simpl final. exists (Vector2D.mk 0 0).
      split; [apply kicked_zero |]. split; [intros H; lra |].
      intros _ H. apply eqb_true in D. contradiction.
    + unfold lift at 1.
      set (j := - (1 + e) * van
                / ((if static (s a) then 0 else inv_mass (s a))
                   + (if static (s b) then 0 else inv_mass (s b)))).
      destruct (impulse_pair a b (n *v j) s Hab) as (s3 & E3 & K3).
      rewrite (bind_pair_then _ _ _ s s3 E3).
      destruct (apply_friction_kick r a b n j s3 Hab) as (Jf & Kf & Of & Rf).
      intros ->. exists (n *v j +v Jf).
      split; [apply (kicked_trans a b _ _ s s3); assumption |].
      split; [intros H; lra |]. intros _ _ Hff. split.
      * destruct K3 as (_ & _ & O3).
        assert (Fa : friction (s3 a) = friction (s a)).
        { destruct (O3 a) as [v ->]. destruct (s a). reflexivity. }
        assert (Fb : friction (s3 b) = friction (s b)).
        { destruct (O3 b) as [v ->]. destruct (s b). reflexivity. }
        apply Rf. rewrite Fa, Fb. exact Hff.
      * intros Hn. rewrite dot_add_l, (Of Hn), (dot_scaled_unit n j Hn).
        unfold j. ring.
Qed.

Lemma moved_then_kicked (a b : nat) (J : Vector2D.t) (s s1 s' : Store) :
  moved s s1 -> kicked a b J s1 s' ->
  velocity (s' a) = velocity (s a) -v J *v effective_inv_mass (s a)
  /\ velocity (s' b) = velocity (s b) +v J *v effective_inv_mass (s b).
Proof.
  intros M (Ka & Kb & _).
  destruct (M a) as [qa Ea]. destruct (M b) as [qb Eb].
  rewrite Ka, Kb, Ea, Eb. destruct (s a), (s b). split; reflexivity.
Qed.

(** X26: resolving a contact between two distinct bodies changes their
    velocities by one impulse, taken from the one and given to the other,
    each by its effective inverse mass, also when the call raises on its
    way.  So when both effective inverse masses are the inverses of masses
    [ma] and [mb], the total momentum [ma va + mb vb] after the call is the
    one before. *)
Theorem resolve_collision_conserves_momentum
    (r : CollisionResolver.t) (c : CollisionInfo) (dt : R) (s : Store) :
  body_a c <> body_b c ->
  let a := body_a c in
  let b := body_b c in
  let s' := final (CollisionResolver.resolve_collision r c dt s) in
  (exists J,
      velocity (s' a) = velocity (s a) -v J *v effective_inv_mass (s a)
      /\ velocity (s' b) = velocity (s b) +v J *v effective_inv_mass (s b))
  /\ forall ma mb,
       ma <> 0 -> mb <> 0 ->
       effective_inv_mass (s a) = 1 / ma ->
       effective_inv_mass (s b) = 1 / mb ->
       velocity (s' a) *v ma +v velocity (s' b) *v mb
       = velocity (s a) *v ma +v velocity (s b) *v mb.
Proof.
  intros Hab a b s'.
  assert (K : exists J,
             velocity (s' a) = velocity (s a) -v J *v effective_inv_mass (s a)
             /\ velocity (s' b)
                = velocity (s b) +v J *v effective_inv_mass (s b)).
  { unfold s', CollisionResolver.resolve_collision. fold a b.
    unfold bind.
    destruct (CollisionResolver.position_correction r && (penetration c >? 0)).
    - destruct (resolve_position_moves r a b (normal c) (penetration c) s)
        as (s1 & E1 & M1).
      rewrite E1.
      destruct (resolve_velocity_kick r a b (normal c) c s1 Hab)
        as (J & KJ & _).
      exists J. apply (moved_then_kicked a b J s s1 _ M1 KJ).
    - unfold ret.
      destruct (resolve_velocity_kick r a b (normal c) c s Hab)
        as (J & KJ & _).
      exists J. apply (moved_then_kicked a b J s s _ (moved_refl s) KJ). }
  split; [exact K |].
  intros ma mb Hma Hmb Ea Eb. destruct K as (J & -> & ->).
  rewrite Ea, Eb. apply vec_eq; simpl; field; split; assumption.
Qed.

Lemma resolve_collision_conserves_momentum_witness :
  let s' := final (CollisionResolver.resolve_collision
                     CollisionResolver.init scene_head_on_contact 1
                     scene_head_on) in
  velocity (s' 0%nat) *v 1 +v velocity (s' 1%nat) *v 1
  = velocity (scene_head_on 0%nat) *v 1 +v velocity (scene_head_on 1%nat) *v 1.
Proof.
  destruct (resolve_collision_conserves_momentum CollisionResolver.init
              scene_head_on_contact 1 scene_head_on) as [_ H].
  - discriminate.
  - apply (H 1 1); [lra | lra | |]; unfold effective_inv_mass; simpl; lra.
Defined.

(** X27: for two distinct bodies, a unit normal, effective inverse masses
    whose sum is not zero and friction coefficients whose product is not
    negative, [resolve_collision] returns.  If the bodies were closing
    along the normal, their relative velocity along the normal is then the
    one before, reversed and scaled by the smaller of the two restitution
    coefficients, whatever friction did; if they were separating, no
    velocity has changed. *)
Theorem resolve_collision_restitution
    (r : CollisionResolver.t) (c : CollisionInfo) (dt : R) (s : Store) :
  let a := body_a c in
  let b := body_b c in
  let n := normal c in
  a <> b ->
  Vector2D.magnitude n = 1 ->
  effective_inv_mass (s a) + effective_inv_mass (s b) <> 0 ->
  0 <= friction (s a) * friction (s b) ->
  exists s',
    CollisionResolver.resolve_collision r c dt s = Return tt s'
    /\ (Vector2D.dot (velocity (s b) -v velocity (s a)) n <= 0 ->
        Vector2D.dot (velocity (s' b) -v velocity (s' a)) n
        = - Rmin (restitution (s a)) (restitution (s b))
          * Vector2D.dot (velocity (s b) -v velocity (s a)) n)
    /\ (0 < Vector2D.dot (velocity (s b) -v velocity (s a)) n ->
        forall i, velocity (s' i) = velocity (s i)).
Proof.
  intros a b n Hab Hn Hsum Hff.
  assert (P : exists s1,
             (if CollisionResolver.position_correction r
                 && (penetration c >? 0)
              then CollisionResolver._resolve_position r a b n (penetration c)
              else ret tt) s = Return tt s1 /\ moved s s1).
  { destruct (_ && _).
    - apply resolve_position_moves.
    - exists s. split; [reflexivity | apply moved_refl]. }
  destruct P as (s1 & E1 & M1).
  assert (Q : forall i,
             velocity (s1 i) = velocity (s i)
             /\ effective_inv_mass (s1 i) = effective_inv_mass (s i)
             /\ friction (s1 i) = friction (s i)
             /\ restitution (s1 i) = restitution (s i)).
  { intros i. destruct (M1 i) as [q ->]. destruct (s i).
    repeat split; reflexivity. }
  destruct (Q a) as (Va & Ia & Fa & Ra). destruct (Q b) as (Vb & Ib & Fb & Rb).
  destruct (resolve_velocity_kick r a b n c s1 Hab) as (J & KJ & Sep & Clo).
  rewrite Va, Vb, Ia, Ib, Fa, Fb, Ra, Rb in *.
  set (van := Vector2D.dot (velocity (s b) -v velocity (s a)) n) in *.
  unfold CollisionResolver.resolve_collision. fold a b n.
  unfold bind. rewrite E1.
  destruct (Rlt_dec 0 van) as [Hv | Hv].
  - rewrite (Sep Hv). exists s1. split; [reflexivity |].
    split; [intros H; lra |]. intros _ i. apply Q.
  - assert (Hv' : van <= 0) by lra.
    destruct (Clo Hv' Hsum Hff) as ((s' & E') & HJ).
    rewrite E' in KJ |- *. simpl in KJ. exists s'. split; [reflexivity |].
    split; [| intros H; lra]. intros _.
    destruct KJ as (Ka & Kb & _). rewrite Ka, Kb, Va, Vb, Ia, Ib.
    specialize (HJ Hn). clear - HJ Hsum.
    set (ia := effective_inv_mass (s a)) in *.
    set (ib := effective_inv_mass (s b)) in *.
    set (e := Rmin (restitution (s a)) (restitution (s b))) in *.
    assert (D : Vector2D.dot
                  (velocity (s b) +v J *v ib -v (velocity (s a) -v J *v ia)) n
                = van + Vector2D.dot J n * (ia + ib)).
    { unfold van, Vector2D.dot. simpl. ring. }
    rewrite D, HJ. field. exact Hsum.
Qed.

Lemma resolve_collision_restitution_witness :
  exists s',
    CollisionResolver.resolve_collision CollisionResolver.init
      scene_head_on_contact 1 scene_head_on = Return tt s'.
Proof.
  destruct (resolve_collision_restitution CollisionResolver.init
              scene_head_on_contact 1 scene_head_on) as (s' & E & _).
  - discriminate.
  - unfold Vector2D.magnitude. simpl. apply sqrt_of_square; lra.
  - unfold effective_inv_mass. simpl. lra.
  - simpl. lra.
  - exists s'. exact E.
Defined.


(** ** The quadtree: quadrants *)

Lemma get_index_range (bounds : R * R * R * R) (b : PhysicsBody) :
  In (QuadTreeM.get_index bounds b) [-1; 0; 1; 2; 3]%Z.
Proof.
  unfold QuadTreeM.get_index. destruct bounds as [[[x y] w] h].
  destruct (get_bounding_box b) as [lo hi].
  repeat match goal with
         | |- context [if ?c then _ else _] => destruct c
         end; simpl; auto 6.
Qed.

(** X28: [get_index] answers -1 or one of the quadrants 0 to 3, and a body
    it files under a quadrant has the corners of its box on that
    quadrant's side of both centre lines.  So two bodies
    filed under different quadrants have boxes that do not overlap. *)
Theorem get_index_quadrants
    (x y w h : R) (p q : PhysicsBody) :
  let i := QuadTreeM.get_index (x, y, w, h) p in
  let j := QuadTreeM.get_index (x, y, w, h) q in
  let lo := fst (get_bounding_box p) in
  let hi := snd (get_bounding_box p) in
  In i [-1; 0; 1; 2; 3]%Z
  /\ ((i = 1 \/ i = 2)%Z -> Vector2D.x hi < x + w / 2)
  /\ ((i = 0 \/ i = 3)%Z -> x + w / 2 < Vector2D.x lo)
  /\ ((i = 0 \/ i = 1)%Z -> Vector2D.y hi < y + h / 2)
  /\ ((i = 2 \/ i = 3)%Z -> y + h / 2 < Vector2D.y lo)
  /\ (i <> (-1)%Z -> j <> (-1)%Z -> i <> j ->
      ~ boxes_overlap (get_bounding_box p) (get_bounding_box q)).
Proof.
  intros i j lo hi. split; [apply get_index_range |].
  unfold i, j, lo, hi, QuadTreeM.get_index, boxes_overlap.
  destruct (get_bounding_box p) as [plo phi].
  destruct (get_bounding_box q) as [qlo qhi]. simpl fst. simpl snd.
  unfold Py.gtb.
  assert (Q : forall A B C D E : Prop,
             (A /\ B /\ C /\ D) -> E -> A /\ B /\ C /\ D /\ E) by tauto.
  apply Q.
  - repeat match goal with
           | |- context [?u <? ?v] =>
               let E := fresh "E" in
               destruct (u <? v) eqn:E;
               [apply ltb_true in E | apply ltb_false in E]
           end; simpl;
      repeat split; intros [K | K]; try discriminate K; lra.
  - repeat match goal with
           | |- context [?u <? ?v] =>
               let E := fresh "E" in
               destruct (u <? v) eqn:E;
               [apply ltb_true in E | apply ltb_false in E]
           end; simpl; intros Hi Hj Hij;
      try (exfalso; apply Hi; reflexivity);
      try (exfalso; apply Hj; reflexivity);
      try (exfalso; apply Hij; reflexivity);
      intros (O1 & O2 & O3 & O4); lra.
Qed.

Lemma get_index_quadrants_witness :
  ~ boxes_overlap (get_bounding_box (scene_quadrants 0%nat))
                  (get_bounding_box (scene_quadrants 1%nat)).
Proof.
  destruct (get_index_quadrants 0 0 100 100 (scene_quadrants 0%nat)
              (scene_quadrants 1%nat)) as (_ & _ & _ & _ & _ & H).
  apply H.
  - change (0, 0, 100, 100) with square100.
    rewrite quadrant_of_first. discriminate.
  - change (0, 0, 100, 100) with square100.
    rewrite quadrant_of_second. discriminate.
  - change (0, 0, 100, 100) with square100.
    rewrite quadrant_of_first, quadrant_of_second. discriminate.
Defined.


(** ** The quadtree: insertion *)

Lemma children_ok_Forall (mo ml lv : Z) (nodes : list QuadTree) :
  children_ok well_formed mo ml lv nodes
  <-> Forall (fun c => QuadTreeM.max_objects c = mo
                       /\ QuadTreeM.max_levels c = ml
                       /\ QuadTreeM.level c = (lv + 1)%Z
                       /\ well_formed c) nodes.
Proof.
  unfold children_ok. induction nodes as [| c l IH]; simpl.
  - split; [constructor | trivial].
  - split.
    + intros [H1 H2]. constructor; [exact H1 | apply IH, H2].
    + intros H. inversion H; subst. split; [assumption | apply IH; assumption].
Qed.

Lemma well_formed_eq (b : R * R * R * R) (mo ml lv : Z) (objs : list nat)
    (nodes : list QuadTree) :
  well_formed (mkQuadTree b mo ml lv objs nodes)
  <-> (nodes = [] \/ (List.length nodes = 4%nat /\ (lv < ml)%Z))
      /\ Forall (fun c => QuadTreeM.max_objects c = mo
                          /\ QuadTreeM.max_levels c = ml
                          /\ QuadTreeM.level c = (lv + 1)%Z
                          /\ well_formed c) nodes.
Proof.
  rewrite <- children_ok_Forall. reflexivity.
Qed.

Lemma set_nth_length (l : list QuadTree) (k : nat) (c : QuadTree) :
  List.length (QuadTreeM.set_nth l k c) = List.length l.
Proof.
  revert k. induction l as [| x l IH]; intros [| k]; simpl; auto.
Qed.

Lemma set_nth_Forall (P : QuadTree -> Prop) (l : list QuadTree) (k : nat)
    (c : QuadTree) :
  Forall P l -> P c -> Forall P (QuadTreeM.set_nth l k c).
Proof.
  intros H Hc. revert k. induction H as [| x l Hx Hl IH]; intros [| k]; simpl;
    constructor; auto.
Qed.

Lemma set_nth_objects (l : list QuadTree) (k : nat) (c c' : QuadTree)
    (x : nat) :
  nth_error l k = Some c ->
  Permutation (all_objects c') (x :: all_objects c) ->
  Permutation (flat_map all_objects (QuadTreeM.set_nth l k c'))
              (x :: flat_map all_objects l).
Proof.
  revert k. induction l as [| y l IH]; intros [| k] E Hp; simpl in *;
    try discriminate.
  - injection E as ->.
    change (x :: all_objects c ++ flat_map all_objects l)
      with ((x :: all_objects c) ++ flat_map all_objects l).
    apply Permutation_app_tail, Hp.
  - apply Permutation_trans
      with (all_objects y ++ x :: flat_map all_objects l).
    + apply Permutation_app_head, (IH k E Hp).
    + symmetry. apply Permutation_middle.
Qed.

Lemma nth_of_index (bounds : R * R * R * R) (b : PhysicsBody)
    (nodes : list QuadTree) :
  List.length nodes = 4%nat ->
  QuadTreeM.get_index bounds b <> (-1)%Z ->
  exists c, nth_error nodes (Z.to_nat (QuadTreeM.get_index bounds b)) = Some c.
Proof.
  intros L H. pose proof (get_index_range bounds b) as R.
  destruct nodes as [| c0 [| c1 [| c2 [| c3 [| ? ?]]]]]; try discriminate L.
  simpl in R.
  destruct R as [E | [E | [E | [E | [E | []]]]]]; rewrite <- E in *;
    [contradiction | | | |]; eexists; reflexivity.
Qed.

Lemma split_nodes_ok (b : R * R * R * R) (mo ml lv : Z) :
  List.length (QuadTreeM.split_nodes b mo ml lv) = 4%nat
  /\ Forall (fun c => QuadTreeM.max_objects c = mo
                      /\ QuadTreeM.max_levels c = ml
                      /\ QuadTreeM.level c = (lv + 1)%Z
                      /\ well_formed c)
            (QuadTreeM.split_nodes b mo ml lv)
  /\ flat_map all_objects (QuadTreeM.split_nodes b mo ml lv) = [].
Proof.
  destruct b as [[[x y] w] h]. unfold QuadTreeM.split_nodes, QuadTreeM.init.
  split; [reflexivity |]. split; [| reflexivity].
  repeat constructor; simpl; auto.
Qed.

(** Same place, same limits, same level. *)
Lemma insert_spec (s : Store) (depth : nat) :
  forall (t : QuadTree) (body : nat),
    well_formed t -> (room t < depth)%nat ->
    exists t',
      QuadTreeM.insert depth s t body = Some t'
      /\ well_formed t'
      /\ QuadTreeM.bounds t' = QuadTreeM.bounds t
      /\ QuadTreeM.max_objects t' = QuadTreeM.max_objects t
      /\ QuadTreeM.max_levels t' = QuadTreeM.max_levels t
      /\ QuadTreeM.level t' = QuadTreeM.level t
      /\ Permutation (all_objects t') (body :: all_objects t).
Proof.
  induction depth as [| depth IH]; intros t body Hwf Hroom; [lia |].
  destruct t as [b mo ml lv objs nodes].
  apply well_formed_eq in Hwf. destruct Hwf as [Hshape Hkids].
  unfold room in Hroom. simpl in Hroom.
  (** a call on a child *)
  assert (Child : forall (nds : list QuadTree) (obj : nat),
             List.length nds = 4%nat -> (lv < ml)%Z ->
             Forall (fun c => QuadTreeM.max_objects c = mo
                              /\ QuadTreeM.max_levels c = ml
                              /\ QuadTreeM.level c = (lv + 1)%Z
                              /\ well_formed c) nds ->
             QuadTreeM.get_index b (s obj) <> (-1)%Z ->
             exists c c',
               nth_error nds (Z.to_nat (QuadTreeM.get_index b (s obj)))
               = Some c
               /\ QuadTreeM.insert depth s c obj = Some c'
               /\ Forall (fun c => QuadTreeM.max_objects c = mo
                                   /\ QuadTreeM.max_levels c = ml
                                   /\ QuadTreeM.level c = (lv + 1)%Z
                                   /\ well_formed c)
                         (QuadTreeM.set_nth nds
                            (Z.to_nat (QuadTreeM.get_index b (s obj))) c')
               /\ Permutation
                    (flat_map all_objects
                       (QuadTreeM.set_nth nds
                          (Z.to_nat (QuadTreeM.get_index b (s obj))) c'))
                    (obj :: flat_map all_objects nds)).
  { intros nds obj L Hlv F Hi.
    destruct (nth_of_index b (s obj) nds L Hi) as [c Ec].
    assert (Hc := Ec). apply nth_error_In in Hc.
    rewrite Forall_forall in F. destruct (F c Hc) as (C1 & C2 & C3 & C4).
    destruct (IH c obj C4) as (c' & E' & W' & _ & P1 & P2 & P3 & Pm).
    { unfold room. rewrite C2, C3. lia. }
    exists c, c'. split; [exact Ec |]. split; [exact E' |]. split.
    - apply set_nth_Forall; [apply Forall_forall, F |].
      repeat split; congruence.
    - apply (set_nth_objects nds _ c c' obj Ec Pm). }
  cbn [QuadTreeM.insert].
  destruct (negb (QuadTreeM.is_empty nodes)
            && negb (Z.eqb (QuadTreeM.get_index b (s body)) (-1))) eqn:Cond.
  - apply andb_true_iff in Cond. destruct Cond as [Cn Ci].
    assert (Hn : nodes <> []) by (destruct nodes; [discriminate | discriminate]).
    destruct Hshape as [Hn' | [L Hlv]]; [contradiction |].
    assert (Hi : QuadTreeM.get_index b (s body) <> (-1)%Z).
    { intros E. rewrite E in Ci. discriminate. }
    destruct (Child nodes body L Hlv Hkids Hi) as (c & c' & Ec & E' & F' & Pm).
    rewrite Ec, E'. eexists. split; [reflexivity |].
    split; [| repeat split].
    + apply well_formed_eq. split; [| exact F'].
      right. split; [rewrite set_nth_length; exact L | exact Hlv].
    + simpl.
      apply Permutation_trans
        with (objs ++ body :: flat_map all_objects nodes).
      * apply Permutation_app_head, Pm.
      * symmetry. apply Permutation_middle.
  - clear Cond.
    destruct (Z.ltb mo (Z.of_nat (List.length (objs ++ [body])))
              && Z.ltb lv ml) eqn:Full.
    + apply andb_true_iff in Full. destruct Full as [_ Hlv].
      apply Z.ltb_lt in Hlv.
      set (nds := if QuadTreeM.is_empty nodes
                  then QuadTreeM.split_nodes b mo ml lv else nodes).
      assert (N : List.length nds = 4%nat
                  /\ Forall (fun c => QuadTreeM.max_objects c = mo
                                      /\ QuadTreeM.max_levels c = ml
                                      /\ QuadTreeM.level c = (lv + 1)%Z
                                      /\ well_formed c) nds
                  /\ flat_map all_objects nds = flat_map all_objects nodes).
      { unfold nds. destruct nodes as [| c0 l0]; simpl QuadTreeM.is_empty.
        - destruct (split_nodes_ok b mo ml lv) as (L & F & O).
          split; [exact L |]. split; [exact F | exact O].
        - destruct Hshape as [Hn' | [L _]]; [discriminate |].
          split; [exact L |]. split; [exact Hkids | reflexivity]. }
      destruct N as (L & F & O). clearbody nds.
      match goal with
      | |- exists t', ?f (objs ++ [body]) [] nds = Some t' /\ _ =>
          set (redistribute := f)
      end.
      assert (Loop : forall (todo kept : list nat) (nds : list QuadTree),
                 List.length nds = 4%nat ->
                 Forall (fun c => QuadTreeM.max_objects c = mo
                                  /\ QuadTreeM.max_levels c = ml
                                  /\ QuadTreeM.level c = (lv + 1)%Z
                                  /\ well_formed c) nds ->
                 exists t',
                   redistribute todo kept nds = Some t'
                   /\ well_formed t'
                   /\ QuadTreeM.bounds t' = b
                   /\ QuadTreeM.max_objects t' = mo
                   /\ QuadTreeM.max_levels t' = ml
                   /\ QuadTreeM.level t' = lv
                   /\ Permutation (all_objects t')
                        (kept ++ todo ++ flat_map all_objects nds)).
      { clear L F O nds.
        induction todo as [| obj todo IHt]; intros kept nds L F.
        - eexists. split; [reflexivity |]. split; [| repeat split].
          + apply well_formed_eq. split; [| exact F].
            right. split; [exact L | exact Hlv].
          + simpl. apply Permutation_refl.
        - unfold redistribute. cbn beta iota. fold redistribute.
          destruct (Z.eqb (QuadTreeM.get_index b (s obj)) (-1)) eqn:Ei.
          + destruct (IHt (kept ++ [obj]) nds L F)
              as (t' & E' & W' & B1 & B2 & B3 & B4 & Pm).
            exists t'. split; [exact E' |]. repeat split; try assumption.
            rewrite <- app_assoc in Pm. exact Pm.
          + assert (Hi : QuadTreeM.get_index b (s obj) <> (-1)%Z).
            { intros E. rewrite E in Ei. discriminate. }
            destruct (Child nds obj L Hlv F Hi)
              as (c & c' & Ec & Ec' & F' & Pc).
            rewrite Ec, Ec'.
            destruct (IHt kept _ (eq_trans (set_nth_length _ _ _) L) F')
              as (t' & E' & W' & B1 & B2 & B3 & B4 & Pm).
            exists t'. split; [exact E' |]. repeat split; try assumption.
            apply (Permutation_trans Pm).
            apply Permutation_app_head.
            apply Permutation_trans
              with (todo ++ obj :: flat_map all_objects nds).
            * apply Permutation_app_head, Pc.
            * symmetry. simpl. apply Permutation_middle. }
      destruct (Loop (objs ++ [body]) [] nds L F)
        as (t' & E' & W' & B1 & B2 & B3 & B4 & Pm).
      exists t'. split; [exact E' |]. repeat split; try assumption.
      apply (Permutation_trans Pm). simpl. rewrite O.
      rewrite <- app_assoc. simpl. symmetry. apply Permutation_middle.
    + eexists. split; [reflexivity |]. split; [| repeat split].
      * apply well_formed_eq. split; assumption.
      * simpl. rewrite <- app_assoc. simpl. symmetry.
        apply Permutation_middle.
Qed.

(** ** The quadtree: retrieval *)

Lemma QuadTree_induction (P : QuadTree -> Prop) :
  (forall b mo ml lv objs nodes,
      Forall P nodes -> P (mkQuadTree b mo ml lv objs nodes)) ->
  forall t, P t.
Proof.
  intros H.
  refine (fix F (t : QuadTree) : P t :=
            match t with
            | mkQuadTree b mo ml lv objs nodes =>
                H b mo ml lv objs nodes
                  ((fix G (l : list QuadTree) : Forall P l :=
                      match l with
                      | [] => Forall_nil P
                      | c :: l' => Forall_cons c (F c) (G l')
                      end) nodes)
            end).
Qed.

Lemma retrieve_sound (s : Store) (q : nat) (t : QuadTree) :
  forall (acc : list nat) (o : nat),
    In o (QuadTreeM.retrieve t acc s q) ->
    In o acc \/ In o (all_objects t).
Proof.
  induction t as [b mo ml lv objs nodes IH] using QuadTree_induction.
  intros acc o. cbn [QuadTreeM.retrieve]. intros H.
  apply in_app_or in H. destruct H as [H | H];
    [| right; simpl; apply in_or_app; left; exact H].
  destruct (negb (Z.eqb (QuadTreeM.get_index b (s q)) (-1))
            && negb (QuadTreeM.is_empty nodes)); [| left; exact H].
  revert H. generalize (Z.to_nat (QuadTreeM.get_index b (s q))). intros k.
  simpl all_objects. revert k.
  induction IH as [| c l Hc Hl IHl]; intros k.
  - destruct k; intros H; left; exact H.
  - destruct k as [| k].
    + intros H. destruct (Hc acc o H) as [K | K]; [left; exact K |].
      right. apply in_or_app. right. simpl. apply in_or_app. left. exact K.
    + intros H. destruct (IHl k H) as [K | K]; [left; exact K |].
      right. apply in_app_or in K. apply in_or_app.
      destruct K as [K | K]; [left; exact K |].
      right. simpl. apply in_or_app. right. exact K.
Qed.

Lemma retrieve_keeps (s : Store) (q : nat) (t : QuadTree) :
  forall (acc : list nat) (o : nat),
    In o acc \/ In o (QuadTreeM.objects t) ->
    In o (QuadTreeM.retrieve t acc s q).
Proof.
  induction t as [b mo ml lv objs nodes IH] using QuadTree_induction.
  intros acc o H. cbn [QuadTreeM.retrieve]. apply in_or_app.
  destruct H as [H | H]; [left | right; exact H].
  destruct (negb (Z.eqb (QuadTreeM.get_index b (s q)) (-1))
            && negb (QuadTreeM.is_empty nodes)); [| exact H].
  generalize (Z.to_nat (QuadTreeM.get_index b (s q))). intros k. revert k.
  induction IH as [| c l Hc Hl IHl]; intros k.
  - destruct k; exact H.
  - destruct k as [| k].
    + apply Hc. left. exact H.
    + apply IHl.
Qed.

(** X29: a new tree is well formed, and so is a cleared one, which holds
    nothing.  On a well-formed tree [insert] returns within as many nested
    calls as there are levels left below the node, plus one; the tree it
    leaves is well formed, at the same place and level, and holds the
    objects it held and the new one, each as often as before: nothing is
    lost or doubled when a node splits.  [retrieve] then answers the list
    it was given, the node's own objects and otherwise only objects that
    were inserted. *)
Theorem quadtree_insert_keeps_objects
    (s : Store) (t : QuadTree) (body : nat) (depth : nat) :
  (forall b mo ml lv, well_formed (QuadTreeM.init b mo ml lv))
  /\ (well_formed t ->
      well_formed (QuadTreeOps.clear t)
      /\ all_objects (QuadTreeOps.clear t) = [])
  /\ (well_formed t -> (room t < depth)%nat ->
      exists t',
        QuadTreeM.insert depth s t body = Some t'
        /\ well_formed t'
        /\ QuadTreeM.bounds t' = QuadTreeM.bounds t
        /\ room t' = room t
        /\ Permutation (all_objects t') (body :: all_objects t)
        /\ forall (acc : list nat) (q o : nat),
             (In o acc \/ In o (QuadTreeM.objects t') ->
              In o (QuadTreeM.retrieve t' acc s q))
             /\ (In o (QuadTreeM.retrieve t' acc s q) ->
                 In o acc \/ o = body \/ In o (all_objects t))).
Proof.
  split; [| split].
  - intros b mo ml lv. apply well_formed_eq. split; [left; reflexivity |].
    constructor.
  - intros _. destruct t as [b mo ml lv objs nodes]. split; [| reflexivity].
    apply well_formed_eq. split; [left; reflexivity | constructor].
  - intros Hwf Hroom.
    destruct (insert_spec s depth t body Hwf Hroom)
      as (t' & E & W & B1 & B2 & B3 & B4 & Pm).
    exists t'. split; [exact E |]. split; [exact W |].
    split; [exact B1 |]. split; [unfold room; rewrite B3, B4; reflexivity |].
    split; [exact Pm |]. intros acc q o. split.
    + apply retrieve_keeps.
    + intros H. destruct (retrieve_sound s q t' acc o H) as [K | K];
        [left; exact K | right].
      apply (Permutation_in _ Pm) in K. destruct K as [K | K];
        [left; symmetry; exact K | right; exact K].
Qed.

Lemma quadtree_insert_keeps_objects_witness :
  exists t',
    QuadTreeM.insert 6 scene_quadrants (QuadTreeM.init square100 1 5 0)
                     0%nat = Some t'
    /\ Permutation (all_objects t') [0%nat].
Proof.
  destruct (quadtree_insert_keeps_objects scene_quadrants
              (QuadTreeM.init square100 1 5 0) 0%nat 6) as (W & _ & H).
  destruct (H (W square100 1 5 0)%Z) as (t' & E & _ & _ & _ & Pm & _).
  - unfold room. simpl. lia.
  - exists t'. split; [exact E | exact Pm].
Defined.


(** ** The engine's list of bodies *)

Lemma contains_In (l : list nat) (body : nat) :
  PhysicsEngineOps.contains l body = true <-> In body l.
Proof.
  unfold PhysicsEngineOps.contains. rewrite existsb_exists. split.
  - intros (x & Hx & E). apply Nat.eqb_eq in E. subst x. exact Hx.
  - intros H. exists body. split; [exact H | apply Nat.eqb_refl].
Qed.

Lemma remove_first_absent (l : list nat) (body : nat) :
  ~ In body l -> PhysicsEngineOps.remove_first l body = l.
Proof.
  induction l as [| x l IH]; simpl; intros H; [reflexivity |].
  destruct (Nat.eqb_spec x body) as [E | E].
  - exfalso. apply H. left. exact E.
  - f_equal. apply IH. intros K. apply H. right. exact K.
Qed.

Lemma remove_first_appended (l : list nat) (body : nat) :
  ~ In body l -> PhysicsEngineOps.remove_first (l ++ [body]) body = l.
Proof.
  induction l as [| x l IH]; simpl; intros H.
  - rewrite Nat.eqb_refl. reflexivity.
  - destruct (Nat.eqb_spec x body) as [E | E].
    + exfalso. apply H. left. exact E.
    + f_equal. apply IH. intros K. apply H. right. exact K.
Qed.

Lemma remove_first_count (l : list nat) (body x : nat) :
  In body l ->
  count_occ Nat.eq_dec l x
  = (count_occ Nat.eq_dec (PhysicsEngineOps.remove_first l body) x
     + (if Nat.eq_dec body x then 1 else 0))%nat.
Proof.
  induction l as [| y l IH]; simpl; intros H; [destruct H |].
  destruct (Nat.eqb_spec y body) as [E | E].
  - subst y. destruct (Nat.eq_dec body x); lia.
  - destruct H as [H | H]; [contradiction |]. simpl.
    rewrite (IH H). destruct (Nat.eq_dec y x); lia.
Qed.

(** X30: [add_body] puts the body at the end of the list and [remove_body]
    takes out its first occurrence only: every other body stays, as often
    and in the order it was there, and a body that was added twice is
    still there after one removal.  Removing a body that is not in the list
    changes nothing, and removing a body right after adding it to an
    engine that did not hold it gives the engine back. *)
Theorem add_then_remove_body (e : PhysicsEngine.t) (body : nat) :
  PhysicsEngine.bodies (PhysicsEngineOps.add_body e body)
  = PhysicsEngine.bodies e ++ [body]
  /\ (~ In body (PhysicsEngine.bodies e) ->
      PhysicsEngineOps.remove_body e body = e
      /\ PhysicsEngineOps.remove_body (PhysicsEngineOps.add_body e body) body
         = e)
  /\ (In body (PhysicsEngine.bodies e) ->
      forall x,
        count_occ Nat.eq_dec (PhysicsEngine.bodies e) x
        = (count_occ Nat.eq_dec
             (PhysicsEngine.bodies (PhysicsEngineOps.remove_body e body)) x
           + (if Nat.eq_dec body x then 1 else 0))%nat)
  /\ filter (fun y => negb (Nat.eqb y body))
            (PhysicsEngine.bodies (PhysicsEngineOps.remove_body e body))
     = filter (fun y => negb (Nat.eqb y body)) (PhysicsEngine.bodies e).
Proof.
  split; [reflexivity |]. split; [| split].
  - intros H. split.
    + unfold PhysicsEngineOps.remove_body.
      destruct (PhysicsEngineOps.contains (PhysicsEngine.bodies e) body)
        eqn:C; [| reflexivity].
      apply contains_In in C. contradiction.
    + unfold PhysicsEngineOps.remove_body, PhysicsEngineOps.add_body.
      destruct e as [cfg p ts l cp d]. simpl in *.
      assert (C : PhysicsEngineOps.contains (l ++ [body]) body = true).
      { apply contains_In, in_or_app. right. left. reflexivity. }
      rewrite C. unfold PhysicsEngineOps.set_bodies. simpl.
      rewrite remove_first_appended by exact H. reflexivity.
  - intros H x. unfold PhysicsEngineOps.remove_body.
    rewrite (proj2 (contains_In _ _) H). destruct e as [cfg p ts l cp d].
    simpl in *. apply remove_first_count, H.
  - unfold PhysicsEngineOps.remove_body.
    destruct (PhysicsEngineOps.contains (PhysicsEngine.bodies e) body);
      [| reflexivity].
    destruct e as [cfg p ts l cp d]. simpl. clear.
    induction l as [| y l IH]; simpl; [reflexivity |].
    destruct (Nat.eqb_spec y body) as [E | E]; simpl.
    + reflexivity.
    + rewrite (proj2 (Nat.eqb_neq y body) E). simpl. f_equal. exact IH.
Qed.

Lemma add_then_remove_body_witness :
  PhysicsEngineOps.remove_body (PhysicsEngineOps.add_body scene_engine 2) 2
  = scene_engine.
Proof.
  destruct (add_then_remove_body scene_engine 2%nat) as (_ & H & _).
  apply H. simpl. intros [K | [K | []]]; discriminate K.
Defined.


(** ** Instances *)

Lemma project_onto_is_orthogonal_projection_witness :
  Vector2DOps.project_onto (Vector2D.mk 3 4) (Vector2D.mk 0 0)
  = Ok (Vector2D.mk 0 0).
Proof.
  destruct (project_onto_is_orthogonal_projection
              (Vector2D.mk 3 4) (Vector2D.mk 0 0)) as (p & E & _ & _ & H).
  rewrite E, (H eq_refl). reflexivity.
Defined.

Lemma closest_point_is_nearest_witness :
  exists cp,
    SegmentM.closest_point_on_segment
      (mkSegment (Vector2D.mk (-10) 0) (Vector2D.mk 10 0) 2)
      (Vector2D.mk 0 3) = Ok cp
    /\ Vector2D.distance_to (Vector2D.mk 0 3) cp
       <= Vector2D.distance_to
            (Vector2D.mk 0 3)
            (Vector2D.mk (-10) 0
             +v (Vector2D.mk 10 0 -v Vector2D.mk (-10) 0) *v 1).
Proof.
  destruct (closest_point_is_nearest
              (mkSegment (Vector2D.mk (-10) 0) (Vector2D.mk 10 0) 2)
              (Vector2D.mk 0 3)) as (cp & t & E & _ & _ & _ & H).
  exists cp. split; [exact E |]. apply (H 1). lra.
Defined.

Lemma ring_collision_cases_witness :
  RingM.collision_with_circle scene_open_ring scene_open_ring_data
    (Vector2D.mk 10 0) 5 = Ok RingNone.
Proof.
  destruct (ring_collision_cases scene_open_ring scene_open_ring_data
              (Vector2D.mk 10 0) 5) as (res & E & H & _).
  rewrite E. f_equal. apply H.
  unfold scene_open_ring, scene_open_ring_data, ring_body. simpl.
  rewrite (distance_on_x_axis 0 10 10) by lra. lra.
Defined.

Lemma narrow_phase_returns_witness :
  CollisionDetector._check_collision
    (store_of [segment_body (Vector2D.mk 0 0) (Vector2D.mk 1 0) 2 true;
               segment_body (Vector2D.mk 0 0) (Vector2D.mk 0 1) 2 true])
    0%nat 1%nat = Ok None.
Proof.
  destruct (narrow_phase_returns
              (store_of [segment_body (Vector2D.mk 0 0) (Vector2D.mk 1 0) 2
                                      true;
                         segment_body (Vector2D.mk 0 0) (Vector2D.mk 0 1) 2
                                      true])
              0%nat 1%nat) as (r & E & _ & H).
  rewrite E. f_equal. apply H; intros rad; discriminate.
Defined.

Lemma narrow_phase_symmetry_witness :
  CollisionDetector._check_collision scene_wall 1%nat 0%nat
  = CollisionDetector._check_collision scene_wall 0%nat 1%nat.
Proof.
  destruct (narrow_phase_symmetry scene_wall 1%nat 0%nat) as (_ & _ & H).
  apply H. intros ra rb K. discriminate K.
Defined.

Lemma potential_collisions_sound_and_unique_witness :
  exists cell l,
    In (cell, l) [((0, 0)%Z, [0; 1]%nat)] /\ In (0%nat, 1%nat) (pairs_of l).
Proof.
  destruct (potential_collisions_sound_and_unique
              (SpatialGrid.mk 100 100 100 1 1 [((0, 0)%Z, [0; 1]%nat)]))
    as [H _].
  apply (H 0%nat 1%nat). left. reflexivity.
Defined.
